(** * qax.utils: reconciliation of pytrees containing ImplicitArray nodes

    A shallow embedding of [src/qax/utils.py] and the properties of its
    functions [vmap_all_but_one], [flatten_one_implicit_layer],
    [implicit_depth], [_map_leaves_with_implicit_path],
    [_get_pruning_transform] and [get_common_prefix_transforms]. *)

From Stdlib Require Import ZArith Lia.
From stdpp Require Import base decidable option list relations gmap sets.

Set Default Proof Using "Type".
Set Warnings "-register-all".

(** ** Data model *)

(** The abstract value [core.get_aval] gives for a leaf: only [shape] and
    [dtype] are ever read by the code. *)
Record aval := Aval { shape : list nat; dtype : nat }.

#[global] Instance aval_eq_dec : EqDecision aval.
Proof. solve_decision. Defined.

(** Modelled from the spec: the class [implicit_array.ImplicitArray], whose
    module is not part of the sources.  An ImplicitArray is a pytree node:
    flattening it gives its child pytrees, and its auxiliary data holds the
    declared [shape] and [dtype] together with the remaining static fields
    (here one number [aux], which also stands for the concrete subclass).

    A pytree is a concrete array (a leaf carrying its aval and an identifier
    of its contents), an ImplicitArray, or a built-in container (list, tuple,
    dict, None) described by a number [kind] for the container type and its
    node data (such as the keys of a dict). *)
Inductive tree :=
| Array (a : aval) (data : nat)
| Implicit (a : aval) (aux : nat) (children : list tree)
| Container (kind : nat) (children : list tree).

(** What labels an interior node of a [PyTreeDef]. *)
Inductive node_kind :=
| KContainer (kind : nat)
| KImplicit (a : aval) (aux : nat).

#[global] Instance node_kind_eq_dec : EqDecision node_kind.
Proof. solve_decision. Defined.

(** [PyTreeDef]: the structure of a flattened pytree, leaves as [*]. *)
Inductive treedef :=
| LeafDef
| NodeDef (nk : node_kind) (children : list treedef).

Fixpoint treedef_eq_dec (x y : treedef) {struct x} : {x = y} + {x <> y}.
Proof.
  destruct x as [|k xs], y as [|k' ys].
  - left; reflexivity.
  - right; discriminate.
  - right; discriminate.
  - destruct (decide (k = k')) as [->|Hk].
    + destruct (List.list_eq_dec treedef_eq_dec xs ys) as [->|Hc].
      * left; reflexivity.
      * right; intros [=]; contradiction.
    + right; intros [=]; contradiction.
Defined.

#[global] Instance treedef_eq_decision : EqDecision treedef := treedef_eq_dec.

(** A path: the tuple of integers built by [path_prefix + (idx,)]. *)
Abbreviation path := (list nat).

(** [leaf_predicate = lambda x: isinstance(x, implicit_array.ImplicitArray)] *)
Definition leaf_predicate (x : tree) : bool :=
  match x with Implicit _ _ _ => true | _ => false end.

(** [core.get_aval(leaf)]: the aval of an array, the declared aval of an
    ImplicitArray.  The code applies it to leaves only; a container is given
    the aval of an empty scalar so that the function is total. *)
Definition get_aval (x : tree) : aval :=
  match x with
  | Array a _ => a
  | Implicit a _ _ => a
  | Container _ _ => Aval [] 0
  end.

(** [aval.shape == expected_aval.shape and aval.dtype == expected_aval.dtype] *)
Definition aval_matches (av expected : aval) : bool :=
  bool_decide (shape av = shape expected) && bool_decide (dtype av = dtype expected).

(** ** TreeWalker: flattening with ImplicitArray as a leaf *)

(** [tree_leaves_with_implicit(tree)] *)
Fixpoint tree_leaves_with_implicit (t : tree) : list tree :=
  match t with
  | Array _ _ => [t]
  | Implicit _ _ _ => [t]
  | Container _ cs => flat_map tree_leaves_with_implicit cs
  end.

(** [tree_structure_with_implicit(tree)] *)
Fixpoint tree_structure_with_implicit (t : tree) : treedef :=
  match t with
  | Array _ _ => LeafDef
  | Implicit _ _ _ => LeafDef
  | Container k cs => NodeDef (KContainer k) (map tree_structure_with_implicit cs)
  end.

(** [tree_flatten_with_implicit(tree)] *)
Definition tree_flatten_with_implicit (t : tree) : list tree * treedef :=
  (tree_leaves_with_implicit t, tree_structure_with_implicit t).

(** ** LayerExpander *)

(** The leaves computed by [flatten_one_implicit_layer]: each leaf of the
    virtual-as-leaf flattening that is an ImplicitArray is replaced by
    [tree_leaves(leaf, is_leaf=partial(is_leaf_below_node, leaf))], the
    flattening of its children with the ImplicitArrays below it as leaves;
    any other leaf is kept as [[leaf]]. *)
Fixpoint one_layer_leaves (t : tree) : list tree :=
  match t with
  | Array _ _ => [t]
  | Implicit _ _ cs => flat_map tree_leaves_with_implicit cs
  | Container _ cs => flat_map one_layer_leaves cs
  end.

(** [tree_util.tree_structure(prototype)]: in the prototype every
    ImplicitArray leaf of the tree is opened once and everything below it
    is replaced by the leaf [1]. *)
Fixpoint one_layer_structure (t : tree) : treedef :=
  match t with
  | Array _ _ => LeafDef
  | Implicit a aux cs => NodeDef (KImplicit a aux) (map tree_structure_with_implicit cs)
  | Container k cs => NodeDef (KContainer k) (map one_layer_structure cs)
  end.

Definition flatten_one_implicit_layer (t : tree) : list tree * treedef :=
  (one_layer_leaves t, one_layer_structure t).

(** ** Outcomes of calls *)

(** The exceptions the module raises, with the values formatted into their
    messages.  ['Trees do not have the same structure after materialization']
    is a constant message; the aval message is the f-string
    ['... Tree 0: {expected_aval}, Tree {i}: {aval}'], the axis message is
    ['Axis {axis} is out of bounds for array of dimension {n_dim}'].
    [TreeUnflattenError] is what [tree_util.tree_unflatten] raises when the
    number of leaves does not fit the structure; [JaxValueError] is the
    [ValueError] a function wrapped by [jax.vmap] raises when it is called
    with an argument that has no axis [in_axes], with mapped axes of
    different sizes, or with a result that has no place for [out_axes]. *)
Inductive exn :=
| StructureValueError
| AvalValueError (expected : aval) (i : nat) (actual : aval)
| AxisValueError (axis : Z) (n_dim : nat)
| TreeUnflattenError
| JaxValueError.

(** A call of a method of a node that the module makes: the only one it
    can make besides reading fields is [node._materialize()], in [f] at
    line 113.  The call is recorded with the path [f] was given. *)
Abbreviation call := (list nat * tree)%type.

(** A call returns a value, having made the recorded method calls in order;
    or raises; or is still running when the fuel given to a [while] loop or
    to a recursion is used up. *)
Inductive outcome (A : Type) :=
| Returns (a : A) (calls : list call)
| Raises (e : exn)
| OutOfFuel.
Arguments Returns {A} a calls.
Arguments Raises {A} e.
Arguments OutOfFuel {A}.

#[global] Instance outcome_ret : MRet outcome := fun A a => Returns a [].

#[global] Instance outcome_bind : MBind outcome := fun A B k m =>
  match m with
  | Returns a calls =>
      match k a with
      | Returns b calls' => Returns b (calls ++ calls')
      | Raises e => Raises e
      | OutOfFuel => OutOfFuel
      end
  | Raises e => Raises e
  | OutOfFuel => OutOfFuel
  end.

(** The tree index a raised exception names in its message, if any. *)
Definition named_tree_index (e : exn) : option nat :=
  match e with
  | AvalValueError _ i _ => Some i
  | _ => None
  end.

(** ** Python helpers *)

(** [zip] applied to the unpacked [lists]: the tuples of the i-th elements, as long as every list
    has an i-th element. *)
Fixpoint zip_star {A} (lists : list (list A)) : list (list A) :=
  match lists with
  | [] => []
  | [l] => map (fun x => [x]) l
  | l :: ls => zip_with cons l (zip_star ls)
  end.

(** [list.pop()]: the list without its last element, and that element. *)
Fixpoint pop {A} (l : list A) : option (list A * A) :=
  match l with
  | [] => None
  | x :: l' =>
      match pop l' with
      | None => Some ([], x)
      | Some (r, y) => Some (x :: r, y)
      end
  end.

(** ** StructureReconciler *)

(** An entry of the stack: [(path, nodes)], one node from each tree. *)
Abbreviation entry := (path * list tree)%type.

(** Lines 144-149: the avals of the leaves of tree [i] against tree 0's. *)
Fixpoint check_avals (i : nat) (leaves : list tree) (expected : list aval)
  : outcome unit :=
  match leaves, expected with
  | leaf :: leaves', expected_aval :: expected' =>
      if aval_matches (get_aval leaf) expected_aval
      then check_avals i leaves' expected'
      else Raises (AvalValueError expected_aval i (get_aval leaf))
  | _, _ => mret tt
  end.

(** Lines 140-149: the loop over the trees after the first, [i] counting
    from 1. *)
Fixpoint check_trees (i : nat) (rest : list (list tree * treedef))
    (structure0 : treedef) (post_materialization_avals : list aval)
  : outcome unit :=
  match rest with
  | [] => mret tt
  | (leaves, structure) :: rest' =>
      if bool_decide (structure <> structure0) then Raises StructureValueError
      else
        _ ← check_avals i leaves post_materialization_avals;
        check_trees (S i) rest' structure0 post_materialization_avals
  end.

(** Lines 179-190: is there a group with a leaf whose aval differs from the
    aval of the group's first leaf. *)
Definition group_aval_diff (leaves : list tree) : bool :=
  match leaves with
  | [] => false
  | first :: rest =>
      existsb (fun leaf => negb (aval_matches (get_aval leaf) (get_aval first))) rest
  end.

Definition aval_diff (groups : list (list tree)) : bool :=
  existsb group_aval_diff groups.

(** What one iteration of the [while stack] loop does with the entry it
    popped: nothing, add its path to [materialization_paths], or append one
    entry per group of leaves. *)
Inductive verdict :=
| Skip
| Materialize
| Expand (entries : list entry).

(** Lines 168-196, the body of the loop for one popped entry. *)
Definition process_entry (e : entry) : verdict :=
  let '(path_prefix, nodes) := e in
  if negb (existsb leaf_predicate nodes) then Skip
  else
    let all_leaves := map (fun node => (flatten_one_implicit_layer node).1) nodes in
    let all_structures := map (fun node => (flatten_one_implicit_layer node).2) nodes in
    if bool_decide (1 < length (remove_dups all_structures)) then Materialize
    else if aval_diff (zip_star all_leaves) then Materialize
    else Expand (imap (fun i leaf_group => (path_prefix ++ [i], leaf_group))
                      (zip_star all_leaves)).

(** The state of the loop: the stack and [materialization_paths]. *)
Abbreviation state := (list entry * gset path)%type.

(** One iteration of [while stack]; [None] when the stack is empty. *)
Definition step (st : state) : option state :=
  let '(stack, materialization_paths) := st in
  match pop stack with
  | None => None
  | Some (stack', (path_prefix, nodes)) =>
      match process_entry (path_prefix, nodes) with
      | Skip => Some (stack', materialization_paths)
      | Materialize => Some (stack', {[ path_prefix ]} ∪ materialization_paths)
      | Expand entries => Some (stack' ++ entries, materialization_paths)
      end
  end.

(** The [while stack] loop of lines 166-196. *)
Fixpoint run_stack (fuel : nat) (st : state) : outcome (gset path) :=
  match step st with
  | None => mret st.2
  | Some st' =>
      match fuel with
      | 0 => OutOfFuel
      | S fuel' => run_stack fuel' st'
      end
  end.

(** Lines 156-163: the initial stack. *)
Definition initial_stack (trees : list tree) : list entry :=
  imap (fun i nodes => ([i], nodes))
       (zip_star (map tree_leaves_with_implicit trees)).

(** Lines 138-196 for two trees or more: the precondition checks and the
    set [materialization_paths] at the end of the loop. *)
Definition materialization_paths_of (fuel : nat) (trees : list tree)
  : outcome (gset path) :=
  let flat := map tree_flatten_with_implicit trees in
  match flat with
  | [] => mret ∅ (* not reached: the caller has two trees or more *)
  | (leaves0, structure0) :: rest =>
      _ ← check_trees 1 rest structure0 (map get_aval leaves0);
      run_stack fuel (initial_stack trees, ∅)
  end.

(** ** TreeWalker: rebuilding a tree *)

(** [tree_util.tree_unflatten(struct, leaves)] reads the leaves from left to
    right; [unflatten_from] returns the tree built and the leaves left. *)
Fixpoint unflatten_from (d : treedef) (leaves : list tree) : option (tree * list tree) :=
  match d with
  | LeafDef =>
      match leaves with
      | x :: rest => Some (x, rest)
      | [] => None
      end
  | NodeDef nk ds =>
      let fix children (ds : list treedef) (leaves : list tree)
        : option (list tree * list tree) :=
        match ds with
        | [] => Some ([], leaves)
        | d' :: ds' =>
            match unflatten_from d' leaves with
            | Some (t, rest) =>
                match children ds' rest with
                | Some (ts, rest') => Some (t :: ts, rest')
                | None => None
                end
            | None => None
            end
        end in
      match children ds leaves with
      | Some (cs, rest) =>
          Some (match nk with
                | KContainer k => Container k cs
                | KImplicit a aux => Implicit a aux cs
                end, rest)
      | None => None
      end
  end.

(** The children of a node rebuilt by [tree_unflatten]. *)
Fixpoint unflatten_children (ds : list treedef) (leaves : list tree)
  : option (list tree * list tree) :=
  match ds with
  | [] => Some ([], leaves)
  | d :: ds' =>
      match unflatten_from d leaves with
      | Some (t, rest) =>
          match unflatten_children ds' rest with
          | Some (ts, rest') => Some (t :: ts, rest')
          | None => None
          end
      | None => None
      end
  end.

Definition tree_unflatten (d : treedef) (leaves : list tree) : outcome tree :=
  match unflatten_from d leaves with
  | Some (t, []) => mret t
  | _ => Raises TreeUnflattenError
  end.

(** ** DepthProbe *)

(** The [while True] loop of [implicit_depth], lines 72-85. *)
Fixpoint implicit_depth_loop (fuel : nat) (leaves : list tree) (depth : nat)
  : outcome nat :=
  let next_leaves :=
    flat_map (fun leaf => if leaf_predicate leaf
                          then (flatten_one_implicit_layer leaf).1 else [])
             leaves in
  let any_implicit := existsb leaf_predicate leaves in
  if negb any_implicit then mret depth
  else match fuel with
       | 0 => OutOfFuel
       | S fuel' => implicit_depth_loop fuel' next_leaves (depth + 1)
       end.

Definition implicit_depth (fuel : nat) (t : tree) : outcome nat :=
  implicit_depth_loop fuel (tree_leaves_with_implicit t) 0.

(** ** PathMapper *)

(** The [for idx, leaf in enumerate(leaves)] loop of
    [_map_leaves_with_implicit_path], from index [idx] on; [recurse] is the
    recursive call of line 96. *)
Fixpoint map_leaves_from
    (recurse : list tree -> path -> outcome (list tree))
    (f : path -> tree -> outcome tree) (is_leaf : path -> tree -> bool)
    (path_prefix : path) (idx : nat) (leaves : list tree)
  : outcome (list tree) :=
  match leaves with
  | [] => mret []
  | leaf :: rest =>
      let path := path_prefix ++ [idx] in
      mapped ←
        (if negb (leaf_predicate leaf) || is_leaf path leaf then f path leaf
         else
           let '(subtree, substruct) := flatten_one_implicit_layer leaf in
           mapped_subtree ← recurse subtree path;
           tree_unflatten substruct mapped_subtree);
      mapped_rest ← map_leaves_from recurse f is_leaf path_prefix (S idx) rest;
      mret (mapped :: mapped_rest)
  end.

(** [_map_leaves_with_implicit_path(f, leaves, is_leaf, path_prefix)]; the
    fuel bounds the depth of the recursion. *)
Fixpoint _map_leaves_with_implicit_path (fuel : nat)
    (f : path -> tree -> outcome tree) (leaves : list tree)
    (is_leaf : path -> tree -> bool) (path_prefix : path)
  : outcome (list tree) :=
  match fuel with
  | 0 => OutOfFuel
  | S fuel' =>
      map_leaves_from
        (fun subtree p => _map_leaves_with_implicit_path fuel' f subtree is_leaf p)
        f is_leaf path_prefix 0 leaves
  end.

(** ** PruningTransformBuilder *)

(** Modelled from the spec: the result of the materialize-one-step capability
    of a VirtualNode, [ConcreteLeaf | VirtualNode] (section 6); the method
    [ImplicitArray._materialize] is not part of the sources. *)
Inductive materialized :=
| Concrete (a : aval) (data : nat)
| Virtual (a : aval) (aux : nat) (children : list tree).

Definition materialized_node (m : materialized) : tree :=
  match m with
  | Concrete a data => Array a data
  | Virtual a aux cs => Implicit a aux cs
  end.

Section Materialization.

(** Modelled from the spec: [node._materialize()], a function of the fields
    of the node. *)
Variable _materialize : aval -> nat -> list tree -> materialized.

(** [f(path, node)] of [_get_pruning_transform], lines 111-114. *)
Fixpoint f (fuel : nat) (p : path) (node : tree) : outcome tree :=
  match node with
  | Implicit a aux cs =>
      match fuel with
      | 0 => OutOfFuel
      | S fuel' =>
          node' ← Returns (materialized_node (_materialize a aux cs)) [(p, node)];
          f fuel' p node'
      end
  | _ => mret node
  end.

(** [materialize_subtrees(tree)], lines 116-119, with [is_leaf] of
    lines 108-109. *)
Definition materialize_subtrees (fuel : nat) (materialization_paths : gset path)
    (t : tree) : outcome tree :=
  let is_leaf := fun (p : path) (leaf : tree) =>
                   bool_decide (p ∈ materialization_paths) in
  let '(leaves, struct) := tree_flatten_with_implicit t in
  mapped_leaves ← _map_leaves_with_implicit_path fuel (f fuel) leaves is_leaf [];
  tree_unflatten struct mapped_leaves.

(** [_get_pruning_transform(tree, materialization_paths)] *)
Definition _get_pruning_transform (fuel : nat) (t : tree)
    (materialization_paths : gset path) : tree -> outcome tree :=
  if bool_decide (materialization_paths = ∅) then fun x => Returns x []
  else materialize_subtrees fuel materialization_paths.

(** [get_common_prefix_transforms(trees)] *)
Definition get_common_prefix_transforms (fuel : nat) (trees : list tree)
  : outcome (list (tree -> outcome tree)) :=
  if bool_decide (length trees <= 1) then mret (map (fun _ (x : tree) => Returns x []) trees)
  else
    materialization_paths ← materialization_paths_of fuel trees;
    mret (map (fun t => _get_pruning_transform fuel t materialization_paths) trees).

End Materialization.

(** ** Peripheral helper *)

(** What [jax.vmap] and the functions it wraps see of an array: its shape. *)
Abbreviation array_shape := (list nat).

(** A function on arrays as [jax.vmap] runs it, once, on traced arguments:
    from the shapes of the arguments to the shape of the array it returns,
    or to the exception it raises. *)
Abbreviation traced := (list array_shape -> outcome array_shape).

(** The position an axis given as a Python integer names in an array of
    [num_dims] dimensions, negative integers counting from the end. *)
Definition canonicalize_axis (axis : Z) (num_dims : nat) : option nat :=
  if bool_decide (0 <= axis < Z.of_nat num_dims)%Z then Some (Z.to_nat axis)
  else if bool_decide (- Z.of_nat num_dims <= axis < 0)%Z
       then Some (Z.to_nat (axis + Z.of_nat num_dims))
       else None.

(** The size of the mapped axis of an argument and the shape of its slices. *)
Definition mapped_axis (in_axes : Z) (s : array_shape) : option (nat * array_shape) :=
  a ← canonicalize_axis in_axes (length s);
  d ← s !! a;
  Some (d, delete a s).

(** [jax.vmap(fun, in_axes, out_axes)] with integer [in_axes] and
    [out_axes], called on [args]: every argument is mapped along [in_axes],
    the mapped axes must have one size, [fun] runs on the slices, and the
    mapped axis is put at [out_axes] of its result. *)
Definition jax_vmap (fun_ : traced) (in_axes out_axes : Z) : traced :=
  fun args =>
    match mapM (mapped_axis in_axes) args with
    | None => Raises JaxValueError
    | Some [] => Raises JaxValueError
    | Some ((size, slice) :: others) =>
        if forallb (fun '(d, _) => bool_decide (d = size)) others
        then match fun_ (slice :: map snd others) with
             | Returns r calls =>
                 match canonicalize_axis out_axes (S (length r)) with
                 | Some o => Returns (take o r ++ size :: drop o r) calls
                 | None => Raises JaxValueError
                 end
             | Raises e => Raises e
             | OutOfFuel => OutOfFuel
             end
        else Raises JaxValueError
    end.

(** [vmap_all_but_one(f, axis, out_ndim)(arg0, *rest)], lines 16-29: the
    exception of line 19, or what [fn], built by the loop of lines 23-28,
    does when it is called on the arguments at line 29. *)
Definition vmap_all_but_one (f : traced) (axis : Z) (out_ndim : Z)
    (arg0 : array_shape) (rest : list array_shape) : outcome array_shape :=
  let n_dim := length arg0 in
  if bool_decide (axis >= Z.of_nat n_dim)%Z then Raises (AxisValueError axis n_dim)
  else
    let '(fn, _, _) :=
      fold_left
        (fun (state : traced * Z * Z) i =>
           let '(fn, vmap_dim, out_dim) := state in
           if bool_decide (Z.of_nat i = axis) then (fn, 0%Z, 0%Z)
           else (jax_vmap fn vmap_dim out_dim, vmap_dim, out_dim))
        (rev (seq 0 n_dim)) (f, 1%Z, out_ndim) in
    fn (arg0 :: rest).

(** The call of [flatten_one_implicit_layer] as an outcome: its body has no
    [raise], and line 64 keeps a leaf that is not an ImplicitArray. *)
Definition flatten_one_implicit_layer_call (t : tree)
  : outcome (list tree * treedef) :=
  mret (flatten_one_implicit_layer t).

(** A tree without any ImplicitArray. *)
Fixpoint no_implicit (t : tree) : bool :=
  match t with
  | Array _ _ => true
  | Implicit _ _ _ => false
  | Container _ cs => forallb no_implicit cs
  end.

(** ** States of the loop and sets of paths *)

(** The state after [n] iterations of [while stack], if the loop runs that
    long. *)
Fixpoint iterate_step (n : nat) (st : state) : option state :=
  match n with
  | 0 => Some st
  | S n' =>
      match step st with
      | Some st' => iterate_step n' st'
      | None => None
      end
  end.

(** No path of the set is a prefix of another path of the set. *)
Definition prefix_free (paths : gset path) : Prop :=
  forall p q, p ∈ paths -> q ∈ paths -> p <> q -> ~ p `prefix_of` q.

(** Neither path is a prefix of the other. *)
Definition unrelated (p q : path) : Prop :=
  ~ p `prefix_of` q /\ ~ q `prefix_of` p.

(** The paths of a list are pairwise unrelated. *)
Fixpoint antichain (l : list path) : Prop :=
  match l with
  | [] => True
  | p :: l' => Forall (unrelated p) l' /\ antichain l'
  end.

(** The invariant of the loop: the paths on the stack are pairwise
    unrelated, each is unrelated to every recorded path, and the recorded
    paths are prefix-free. *)
Definition stack_invariant (st : state) : Prop :=
  antichain (map fst st.1)
  /\ (forall p q, p ∈ map fst st.1 -> q ∈ st.2 -> unrelated p q)
  /\ prefix_free st.2.

(** ** Other disciplines for the work set *)

(** The loop with the work set used as a queue: the entry is taken from the
    front, the new entries are appended at the back. *)
Definition step_fifo (st : state) : option state :=
  let '(queue, materialization_paths) := st in
  match queue with
  | [] => None
  | (path_prefix, nodes) :: queue' =>
      match process_entry (path_prefix, nodes) with
      | Skip => Some (queue', materialization_paths)
      | Materialize => Some (queue', {[ path_prefix ]} ∪ materialization_paths)
      | Expand entries => Some (queue' ++ entries, materialization_paths)
      end
  end.

Fixpoint run_queue (fuel : nat) (st : state) : outcome (gset path) :=
  match step_fifo st with
  | None => mret st.2
  | Some st' =>
      match fuel with
      | 0 => OutOfFuel
      | S fuel' => run_queue fuel' st'
      end
  end.

(** The loop taking the entries in any order: an iteration removes any one
    entry of the work set and treats it as the body of the loop does. *)
Inductive step_any : state -> state -> Prop :=
| step_any_skip before e after acc :
    process_entry e = Skip ->
    step_any (before ++ e :: after, acc) (before ++ after, acc)
| step_any_materialize before e after acc :
    process_entry e = Materialize ->
    step_any (before ++ e :: after, acc) (before ++ after, {[ e.1 ]} ∪ acc)
| step_any_expand before e after acc entries :
    process_entry e = Expand entries ->
    step_any (before ++ e :: after, acc) (before ++ after ++ entries, acc).

(** The paths a list of entries contributes to [materialization_paths],
    whatever the order in which the entries and those under them are taken. *)
Inductive contributes : list entry -> gset path -> Prop :=
| contributes_nil : contributes [] ∅
| contributes_skip e l paths :
    process_entry e = Skip ->
    contributes l paths ->
    contributes (e :: l) paths
| contributes_materialize e l paths :
    process_entry e = Materialize ->
    contributes l paths ->
    contributes (e :: l) ({[ e.1 ]} ∪ paths)
| contributes_expand e entries l paths1 paths2 :
    process_entry e = Expand entries ->
    contributes entries paths1 ->
    contributes l paths2 ->
    contributes (e :: l) (paths1 ∪ paths2).

(** ** Trees that differ in one expansion *)

(** Two lists of leaves, as flattened with ImplicitArrays as leaves, are
    identical but for the ImplicitArray at the path: at the end of the path
    both hold an ImplicitArray of the same declared aval whose one-layer
    expansions have different structures; on the way there both hold an
    ImplicitArray with the same expansion structure, whose expanded leaves
    are again identical but for the rest of the path. *)
Inductive differ_only_at : path -> list tree -> list tree -> Prop :=
| differ_here (i : nat) (before after : list tree) (n1 n2 : tree) :
    length before = i ->
    leaf_predicate n1 = true ->
    leaf_predicate n2 = true ->
    get_aval n1 = get_aval n2 ->
    (flatten_one_implicit_layer n1).2 <> (flatten_one_implicit_layer n2).2 ->
    differ_only_at [i] (before ++ n1 :: after) (before ++ n2 :: after)
| differ_below (i j : nat) (p : path) (before after : list tree) (n1 n2 : tree) :
    length before = i ->
    leaf_predicate n1 = true ->
    leaf_predicate n2 = true ->
    (flatten_one_implicit_layer n1).2 = (flatten_one_implicit_layer n2).2 ->
    differ_only_at (j :: p) (flatten_one_implicit_layer n1).1
                            (flatten_one_implicit_layer n2).1 ->
    differ_only_at (i :: j :: p) (before ++ n1 :: after) (before ++ n2 :: after).

(** The number of nodes of a tree. *)
Fixpoint tree_size (t : tree) : nat :=
  match t with
  | Array _ _ => 1
  | Implicit _ _ cs => S (list_sum (map tree_size cs))
  | Container _ cs => S (list_sum (map tree_size cs))
  end.

(** ** Nodes addressed by paths *)

(** The node a path addresses: [(i,)] is the [i]-th of the leaves, a longer
    path goes on in the one-layer expansion of the ImplicitArray found. *)
Fixpoint node_at (leaves : list tree) (p : path) : option tree :=
  match p with
  | [] => None
  | i :: p' =>
      match p' with
      | [] => leaves !! i
      | _ :: _ =>
          match leaves !! i with
          | Some (Implicit a aux cs) =>
              node_at (flatten_one_implicit_layer (Implicit a aux cs)).1 p'
          | _ => None
          end
      end
  end.

(** A leaf of a flattening: an array or an ImplicitArray, not a container. *)
Definition is_leaf_node (x : tree) : bool :=
  match x with Container _ _ => false | _ => true end.

(** A structure without ImplicitArray nodes, as flattening with
    ImplicitArrays as leaves gives. *)
Fixpoint container_def (d : treedef) : bool :=
  match d with
  | LeafDef => true
  | NodeDef (KContainer _) ds => forallb container_def ds
  | NodeDef (KImplicit _ _) _ => false
  end.

(** What [_map_leaves_with_implicit_path] with [f] and [is_leaf] of
    [_get_pruning_transform] makes of the leaf at a path: a leaf that is not
    an ImplicitArray is kept; an ImplicitArray at a recorded path becomes a
    concrete array; any other ImplicitArray keeps its aval, auxiliary data
    and expansion structure, and its expanded leaves are treated likewise
    under the extended path. *)
Inductive pruned (paths : gset path) : path -> tree -> tree -> Prop :=
| pruned_kept p x :
    leaf_predicate x = false ->
    pruned paths p x x
| pruned_materialized p x a data :
    leaf_predicate x = true ->
    p ∈ paths ->
    pruned paths p x (Array a data)
| pruned_rebuilt p a aux cs cs' :
    p ∉ paths ->
    map tree_structure_with_implicit cs' = map tree_structure_with_implicit cs ->
    length (flat_map tree_leaves_with_implicit cs')
    = length (flat_map tree_leaves_with_implicit cs) ->
    (forall i y y',
        flat_map tree_leaves_with_implicit cs !! i = Some y ->
        flat_map tree_leaves_with_implicit cs' !! i = Some y' ->
        pruned paths (p ++ [i]) y y') ->
    pruned paths p (Implicit a aux cs) (Implicit a aux cs').

(** [pruned] leaf by leaf, the [i]-th leaf at the path [p ++ [i]]. *)
Definition pruned_leaves (paths : gset path) (p : path) (ls ls' : list tree) : Prop :=
  length ls' = length ls
  /\ forall i y y', ls !! i = Some y -> ls' !! i = Some y' ->
                    pruned paths (p ++ [i]) y y'.

(** A mapping of leaves, as the recursive call of line 96, that prunes its
    leaves, calls [_materialize] at recorded paths only and returns leaves. *)
Definition maps_as_pruned (paths : gset path)
    (recurse : list tree -> path -> outcome (list tree)) : Prop :=
  forall sub q sub' calls,
    Forall (fun x => is_leaf_node x = true) sub ->
    recurse sub q = Returns sub' calls ->
    pruned_leaves paths q sub sub'
    /\ Forall (fun c : call => c.1 ∈ paths) calls
    /\ Forall (fun x => is_leaf_node x = true) sub'.

(** ** The tree walker of [jax.tree_util] and [combine_leaf_predicate] *)

(** [tree_util.tree_leaves(tree, is_leaf=is_leaf)]: [is_leaf] is asked at
    every node, and a node for which it holds is a leaf with all that is
    below it. *)
Fixpoint tree_util_tree_leaves (is_leaf : tree -> bool) (t : tree) : list tree :=
  if is_leaf t then [t]
  else match t with
       | Array _ _ => [t]
       | Implicit _ _ cs => flat_map (tree_util_tree_leaves is_leaf) cs
       | Container _ cs => flat_map (tree_util_tree_leaves is_leaf) cs
       end.

(** [tree_util.tree_structure(tree, is_leaf=is_leaf)] *)
Fixpoint tree_util_tree_structure (is_leaf : tree -> bool) (t : tree) : treedef :=
  if is_leaf t then LeafDef
  else match t with
       | Array _ _ => LeafDef
       | Implicit a aux cs =>
           NodeDef (KImplicit a aux) (map (tree_util_tree_structure is_leaf) cs)
       | Container k cs =>
           NodeDef (KContainer k) (map (tree_util_tree_structure is_leaf) cs)
       end.

(** [combine_leaf_predicate(base_fn, is_leaf)], lines 32-41: the function it
    returns, applied to the keyword argument [new_is_leaf] ([None] when it
    is left out); [base_fn] is given its [is_leaf] keyword first. *)
Definition combine_leaf_predicate {A} (base_fn : (tree -> bool) -> A)
    (is_leaf : tree -> bool) (new_is_leaf : option (tree -> bool)) : A :=
  match new_is_leaf with
  | None => base_fn is_leaf
  | Some new_is_leaf => base_fn (fun arg => is_leaf arg || new_is_leaf arg)
  end.

Fixpoint tree_eq_dec (x y : tree) {struct x} : {x = y} + {x <> y}.
Proof.
  destruct x as [a d|a aux cs|k cs], y as [a' d'|a' aux' cs'|k' cs'];
    try (right; discriminate).
  - destruct (decide (a = a')) as [->|Ha]; [|right; intros [=]; contradiction].
    destruct (decide (d = d')) as [->|Hd]; [|right; intros [=]; contradiction].
    left; reflexivity.
  - destruct (decide (a = a')) as [->|Ha]; [|right; intros [=]; contradiction].
    destruct (decide (aux = aux')) as [->|Hx]; [|right; intros [=]; contradiction].
    destruct (List.list_eq_dec tree_eq_dec cs cs') as [->|Hc];
      [|right; intros [=]; contradiction].
    left; reflexivity.
  - destruct (decide (k = k')) as [->|Hk]; [|right; intros [=]; contradiction].
    destruct (List.list_eq_dec tree_eq_dec cs cs') as [->|Hc];
      [|right; intros [=]; contradiction].
    left; reflexivity.
Defined.

#[global] Instance tree_eq_decision : EqDecision tree := tree_eq_dec.

(** [is_leaf_below_node(node, x)] of line 53; [x is not node] holds of a node
    below [node] exactly when the two differ. *)
Definition is_leaf_below_node (node x : tree) : bool :=
  leaf_predicate x && bool_decide (x <> node).

(** The leaves of [flatten_one_implicit_layer] as lines 61-66 compute them,
    with the walker of [tree_util]. *)
Definition chained_leaves (t : tree) : list tree :=
  flat_map (fun leaf =>
              if leaf_predicate leaf
              then tree_util_tree_leaves (is_leaf_below_node leaf) leaf
              else [leaf])
           (combine_leaf_predicate tree_util_tree_leaves leaf_predicate None t).

(** ** Nesting of ImplicitArrays *)

(** The greatest number of ImplicitArrays on a branch of the tree. *)
Fixpoint implicit_nesting (t : tree) : nat :=
  match t with
  | Array _ _ => 0
  | Implicit _ _ cs => S (list_max (map implicit_nesting cs))
  | Container _ cs => list_max (map implicit_nesting cs)
  end.

(** [n] ImplicitArrays around a tree, each holding the next as its only
    child. *)
Fixpoint nested (n : nat) (a : aval) (aux : nat) (t : tree) : tree :=
  match n with
  | 0 => t
  | S n' => Implicit a aux [nested n' a aux t]
  end.

(** ** Sizes *)

(** [PyTreeDef.num_leaves]: the number of leaves of a structure. *)
Fixpoint num_leaves (d : treedef) : nat :=
  match d with
  | LeafDef => 1
  | NodeDef _ ds => list_sum (map num_leaves ds)
  end.

(** The size of the first node of an entry, by which the loop of
    [get_common_prefix_transforms] progresses. *)
Definition entry_size (e : entry) : nat :=
  match e.2 with
  | [] => 0
  | node :: _ => tree_size node
  end.

(** The trees agree with the first in what lines 140-149 check: the
    structure with ImplicitArrays as leaves and the avals of the leaves. *)
Definition agree_with_first (trees : list tree) : Prop :=
  match trees with
  | [] => True
  | t0 :: rest =>
      Forall (fun t =>
                tree_structure_with_implicit t = tree_structure_with_implicit t0
                /\ map get_aval (tree_leaves_with_implicit t)
                   = map get_aval (tree_leaves_with_implicit t0))
             rest
  end.

(** ** Entries and the nodes they hold *)

(** The nodes of an entry are the nodes its path addresses, tree by tree. *)
Definition entry_addresses (trees : list tree) (e : entry) : Prop :=
  Forall2 (fun node t => node_at (tree_leaves_with_implicit t) e.1 = Some node)
          e.2 trees.

(** Every entry of the stack holds the nodes its path addresses, and every
    recorded path addresses nodes on which the body of the loop decides to
    materialize. *)
Definition addresses_invariant (trees : list tree) (st : state) : Prop :=
  Forall (entry_addresses trees) st.1
  /\ forall P, P ∈ st.2 ->
       exists nodes, entry_addresses trees (P, nodes)
                     /\ process_entry (P, nodes) = Materialize.

(** ** Entries settled by a set of paths *)

(** [tree_util.tree_structure(tree)], without [is_leaf]: the structure JAX
    sees, every ImplicitArray opened. *)
Abbreviation jax_structure := (tree_util_tree_structure (fun _ => false)).

(** A set of paths settles an entry: the body of the loop skips the entry;
    or records it and its path is in the set; or expands it, its path is not
    in the set and the set settles the entries appended. *)
Inductive settled (paths : gset path) : entry -> Prop :=
| settled_skip e :
    process_entry e = Skip ->
    settled paths e
| settled_materialize e :
    process_entry e = Materialize ->
    e.1 ∈ paths ->
    settled paths e
| settled_expand e entries :
    process_entry e = Expand entries ->
    e.1 ∉ paths ->
    (forall e', e' ∈ entries -> settled paths e') ->
    settled paths e.

(** ** Trees given in the other order *)

(** An entry with its nodes in the reverse order, as when the trees are
    given in the reverse order. *)
Definition swap_entry (e : entry) : entry := (e.1, rev e.2).

(** ** Example values *)

Module Examples.
Definition f32 : aval := Aval [3] 0.
Definition f64 : aval := Aval [3] 1.

(** Two nodes that expand to one leaf each, of different dtype. *)
Definition mismatch_nodes : list tree :=
  [Implicit f32 7 [Array f32 0]; Implicit f32 7 [Array f64 0]].

(** An entry whose nodes are concrete. *)
Definition concrete_entry : entry := ([1], [Array f32 5; Array f32 5]).

(** Two trees of different top-level structure: a tuple and a list. *)
Definition tuple_and_list : list tree :=
  [Container 0 [Array f32 0]; Container 1 [Array f32 0]].

(** A materialization that gives a concrete array at once. *)
Definition materialize_now (a : aval) (aux : nat) (cs : list tree) : materialized :=
  Concrete a aux.

(** A tree without ImplicitArrays. *)
Definition concrete_tree : tree := Container 0 [Array f32 0; Array f64 1].

(** An ImplicitArray expanding to one array. *)
Definition inner : tree := Implicit f32 7 [Array f32 0].

(** Two ImplicitArrays that agree in their expansion but for the nested
    ImplicitArray at path [(0, 0)], which expands to one array in the
    first and to two in the second. *)
Definition outer1 : tree :=
  Implicit f32 7 [Implicit f32 1 [Array f32 0]; Array f32 1].
Definition outer2 : tree :=
  Implicit f32 7 [Implicit f32 1 [Array f32 0; Array f32 0]; Array f32 1].

Definition tree1 : tree := Container 0 [outer1; inner].
Definition tree2 : tree := Container 0 [outer2; inner].

(** [tree1] after the ImplicitArray at [(0, 0)] has been materialized. *)
Definition tree1_pruned : tree :=
  Container 0 [Implicit f32 7 [Array f32 1; Array f32 1]; inner].
End Examples.

(** ** Further example values *)

Module MoreExamples.
(** Two tuples whose second leaves differ in dtype. *)
Definition aval_mismatch_first : tree :=
  Container 0 [Array Examples.f32 0; Array Examples.f32 1].
Definition aval_mismatch_second : tree :=
  Container 0 [Array Examples.f32 0; Array Examples.f64 1].
End MoreExamples.

(** * Properties *)

(** ** Induction on trees and structures *)

Lemma tree_nested_ind (P : tree -> Prop) :
  (forall a d, P (Array a d)) ->
  (forall a aux cs, Forall P cs -> P (Implicit a aux cs)) ->
  (forall k cs, Forall P cs -> P (Container k cs)) ->
  forall t, P t.
Proof.
  intros HA HI HC.
  fix IH 1. intros [a d|a aux cs|k cs].
  - apply HA.
  - apply HI. induction cs as [|c cs IHcs]; constructor; [apply IH | exact IHcs].
  - apply HC. induction cs as [|c cs IHcs]; constructor; [apply IH | exact IHcs].
Qed.

Lemma treedef_nested_ind (P : treedef -> Prop) :
  P LeafDef ->
  (forall nk ds, Forall P ds -> P (NodeDef nk ds)) ->
  forall d, P d.
Proof.
  intros HL HN.
  fix IH 1. intros [|nk ds].
  - apply HL.
  - apply HN. induction ds as [|d ds IHds]; constructor; [apply IH | exact IHds].
Qed.

(** ** Helpers on Python lists *)

Lemma pop_snoc {A} (l : list A) (x : A) : pop (l ++ [x]) = Some (l, x).
Proof.
  induction l as [|y l IH]; simpl; [reflexivity|].
  rewrite IH. reflexivity.
Qed.

Lemma pop_nil_inv {A} (l : list A) : pop l = None -> l = [].
Proof.
  destruct l as [|x l]; [reflexivity|]. simpl.
  destruct (pop l) as [[r y]|]; discriminate.
Qed.

Lemma pop_Some_inv {A} (l r : list A) (x : A) : pop l = Some (r, x) -> l = r ++ [x].
Proof.
  revert r. induction l as [|y l IH]; intros r; simpl; [discriminate|].
  destruct (pop l) as [[r' z]|] eqn:E.
  - intros [= <- <-]. simpl. f_equal. apply IH. reflexivity.
  - intros [= <- <-]. apply pop_nil_inv in E. subst l. reflexivity.
Qed.

Lemma aval_matches_refl (a : aval) : aval_matches a a = true.
Proof.
  unfold aval_matches. rewrite !bool_decide_eq_true_2; reflexivity.
Qed.

Lemma aval_matches_eq (a b : aval) : aval_matches a b = true <-> a = b.
Proof.
  unfold aval_matches. rewrite andb_true_iff, !bool_decide_eq_true.
  destruct a, b; simpl. split; [intros [-> ->]; reflexivity | intros [= -> ->]; done].
Qed.

Lemma remove_dups_all_equal {A} `{EqDecision A} (l : list A) (x : A) :
  Forall (fun y => y = x) l -> length (remove_dups l) <= 1.
Proof.
  induction 1 as [|y l -> Hl IH]; simpl; [lia|].
  destruct (decide_rel elem_of x l) as [Hin|Hnin]; [exact IH|].
  destruct l as [|z l]; simpl; [lia|].
  exfalso. apply Hnin. inversion Hl; subst. left.
Qed.

(** ** Sequencing of calls *)

Lemma bind_Returns_inv {A B} (m : outcome A) (k : A -> outcome B) (b : B)
    (calls : list call) :
  m ≫= k = Returns b calls ->
  exists a c1 c2, m = Returns a c1 /\ k a = Returns b c2 /\ calls = c1 ++ c2.
Proof.
  destruct m as [a c1| |]; simpl; try discriminate.
  unfold mbind, outcome_bind.
  destruct (k a) as [b' c2| |] eqn:E; try discriminate.
  intros [= <- <-]. exists a, c1, c2. done.
Qed.

(** ** One iteration of the loop *)

Arguments process_entry : simpl never.

Lemma step_snoc (stack : list entry) (e : entry) (acc : gset path) :
  step (stack ++ [e], acc) =
  Some match process_entry e with
       | Skip => (stack, acc)
       | Materialize => (stack, {[ e.1 ]} ∪ acc)
       | Expand entries => (stack ++ entries, acc)
       end.
Proof.
  unfold step. rewrite pop_snoc. destruct e as [p nodes].
  destruct (process_entry (p, nodes)); reflexivity.
Qed.

Lemma existsb_elem_of {A} (g : A -> bool) (l : list A) :
  existsb g l = true <-> exists x, x ∈ l /\ g x = true.
Proof.
  rewrite existsb_exists. split; intros (x & Hx & Hg); exists x; split; auto;
    by apply list_elem_of_In.
Qed.

Lemma group_aval_diff_true (first : tree) (rest : list tree) (leaf : tree) :
  leaf ∈ rest ->
  ~ (shape (get_aval leaf) = shape (get_aval first)
     /\ dtype (get_aval leaf) = dtype (get_aval first)) ->
  group_aval_diff (first :: rest) = true.
Proof.
  intros Hin Hne. simpl. apply existsb_elem_of. exists leaf. split; [exact Hin|].
  apply negb_true_iff. apply not_true_is_false. intros Hm.
  apply aval_matches_eq in Hm. apply Hne. rewrite Hm. done.
Qed.

(** C4. Stop entirely on a metadata mismatch: when the popped entry holds an
    ImplicitArray, the structures of the one-layer expansions of its nodes
    are all equal, and some group of leaves holds a leaf whose shape or dtype
    differs from those of the group's first leaf, the iteration adds the
    entry's path to [materialization_paths] (a set, so once) and leaves the
    stack as it is after the pop: no entry is appended under that path. *)
Theorem step_aval_mismatch_stops (stack : list entry) (path_prefix : path)
    (nodes : list tree) (materialization_paths : gset path)
    (group rest : list tree) (first leaf : tree) :
  existsb leaf_predicate nodes = true ->
  (forall n n', n ∈ nodes -> n' ∈ nodes ->
     (flatten_one_implicit_layer n).2 = (flatten_one_implicit_layer n').2) ->
  group ∈ zip_star (map (fun n => (flatten_one_implicit_layer n).1) nodes) ->
  group = first :: rest ->
  leaf ∈ rest ->
  ~ (shape (get_aval leaf) = shape (get_aval first)
     /\ dtype (get_aval leaf) = dtype (get_aval first)) ->
  step (stack ++ [(path_prefix, nodes)], materialization_paths)
  = Some (stack, {[ path_prefix ]} ∪ materialization_paths)
  /\ process_entry (path_prefix, nodes) = Materialize.
Proof.
  intros Hany Hstruct Hgroup -> Hleaf Hdiff.
  assert (Hp : process_entry (path_prefix, nodes) = Materialize).
  { unfold process_entry. rewrite Hany. simpl negb. cbn iota.
    destruct nodes as [|n0 nodes']; [discriminate|].
    rewrite bool_decide_eq_false_2.
    2:{ apply Nat.le_ngt. apply (remove_dups_all_equal _ (flatten_one_implicit_layer n0).2).
        apply Forall_forall. intros s Hs. apply list_elem_of_fmap in Hs as (n & -> & Hn).
        apply Hstruct; [exact Hn | left]. }
    replace (aval_diff _) with true; [reflexivity|].
    symmetry. apply existsb_elem_of. eexists. split; [exact Hgroup|].
    eapply group_aval_diff_true; eauto. }
  split; [|exact Hp].
  rewrite step_snoc, Hp. reflexivity.
Qed.

Lemma step_aval_mismatch_stops_witness :
  step ([Examples.concrete_entry] ++ [([0], Examples.mismatch_nodes)], ∅)
  = Some ([Examples.concrete_entry], {[ [0] ]} ∪ ∅)
  /\ process_entry ([0], Examples.mismatch_nodes) = Materialize.
Proof.
  apply (step_aval_mismatch_stops _ [0] Examples.mismatch_nodes ∅
           [Array Examples.f32 0; Array Examples.f64 0] [Array Examples.f64 0]
           (Array Examples.f32 0) (Array Examples.f64 0)).
  - reflexivity.
  - intros n n' Hn Hn'.
    apply list_elem_of_In in Hn, Hn'. simpl in Hn, Hn'.
    destruct Hn as [<-|[<-|[]]], Hn' as [<-|[<-|[]]]; reflexivity.
  - simpl. left.
  - reflexivity.
  - left.
  - simpl. intros [_ H]. discriminate H.
Defined.

(** ** LayerExpander on a concrete leaf *)

(** C8, the claim as stated fails: on a concrete array the call returns. *)
Lemma flatten_one_implicit_layer_concrete_returns :
  ~ (forall a data, exists e,
       flatten_one_implicit_layer_call (Array a data) = Raises e).
Proof.
  intros H. destruct (H (Aval [3] 0) 0) as [e He]. discriminate He.
Qed.

(** C8, amended. Called on a concrete array, [flatten_one_implicit_layer]
    raises nothing: it returns the one-element list holding that leaf and
    the structure of a single leaf. *)
Theorem flatten_one_implicit_layer_concrete (a : aval) (data : nat) :
  flatten_one_implicit_layer_call (Array a data)
  = Returns ([Array a data], LeafDef) [].
Proof. reflexivity. Qed.

(** ** The axis check of [vmap_all_but_one] *)

Lemma vmap_all_but_one_axis_too_large (f : traced) (axis out_ndim : Z)
    (arg0 : array_shape) (rest : list array_shape) :
  (Z.of_nat (length arg0) <= axis)%Z ->
  vmap_all_but_one f axis out_ndim arg0 rest
  = Raises (AxisValueError axis (length arg0)).
Proof.
  intros H. unfold vmap_all_but_one. rewrite bool_decide_eq_true_2; [reflexivity|lia].
Qed.

(** C9. For a negative axis the check of line 18 does not fire.  With
    [axis = -1] and a first argument of dimension 0, for which every axis
    is out of bounds, the loop of lines 23-28 does not run either: [fn] is
    [f], no exception is raised by the call besides what [f] raises, and
    the call returns what [f] returns on the arguments. *)
Theorem vmap_all_but_one_negative_axis (f : traced) (out_ndim : Z)
    (rest : list array_shape) :
  vmap_all_but_one f (-1) out_ndim [] rest = f ([] :: rest).
Proof. reflexivity. Qed.

(** ** The precondition checks *)

Lemma check_avals_same (i : nat) (leaves : list tree) :
  check_avals i leaves (map get_aval leaves) = Returns tt [].
Proof.
  induction leaves as [|leaf leaves IH]; simpl; [reflexivity|].
  rewrite aval_matches_refl. exact IH.
Qed.

Lemma check_trees_structure_mismatch (rest : list tree) :
  forall (i k : nat) (t t0 : tree),
  rest !! i = Some t ->
  tree_structure_with_implicit t <> tree_structure_with_implicit t0 ->
  Forall (fun t' =>
            tree_structure_with_implicit t' = tree_structure_with_implicit t0
            /\ map get_aval (tree_leaves_with_implicit t')
               = map get_aval (tree_leaves_with_implicit t0))
         (take i rest) ->
  check_trees k (map tree_flatten_with_implicit rest)
    (tree_structure_with_implicit t0)
    (map get_aval (tree_leaves_with_implicit t0))
  = Raises StructureValueError.
Proof.
  induction rest as [|t1 rest IH]; intros i k t t0 Hi Hne Hpre; [discriminate|].
  destruct i as [|i]; simpl in Hi.
  - injection Hi as ->. simpl.
    rewrite bool_decide_eq_true_2; [reflexivity | exact Hne].
  - simpl in Hpre. apply Forall_cons in Hpre as [[Hs Ha] Hpre]. simpl.
    rewrite bool_decide_eq_false_2; [|intros Hc; apply Hc; exact Hs].
    rewrite <- Ha, check_avals_same. simpl. rewrite Ha.
    rewrite (IH i (S k) t t0 Hi Hne Hpre). reflexivity.
Qed.

(** C6, the claim as stated fails: for a tuple and a list holding the same
    leaf the call raises, and the exception raised names no tree index. *)
Lemma structure_mismatch_names_no_index :
  ~ (exists e,
       get_common_prefix_transforms Examples.materialize_now 5 Examples.tuple_and_list
       = Raises e
       /\ named_tree_index e = Some 1).
Proof.
  intros (e & He & Hi). vm_compute in He. injection He as <-. discriminate Hi.
Qed.

(** C6, amended. When some tree after the first differs from tree 0 in its
    structure with ImplicitArrays as leaves, and the trees before it agree
    with tree 0 in structure and in the avals of their leaves,
    [get_common_prefix_transforms] raises the structure [ValueError]; its
    message is constant and names no tree index. *)
Theorem structure_mismatch_raises
    (_materialize : aval -> nat -> list tree -> materialized) (fuel : nat)
    (t0 : tree) (rest : list tree) (i : nat) (t : tree) :
  rest !! i = Some t ->
  tree_structure_with_implicit t <> tree_structure_with_implicit t0 ->
  Forall (fun t' =>
            tree_structure_with_implicit t' = tree_structure_with_implicit t0
            /\ map get_aval (tree_leaves_with_implicit t')
               = map get_aval (tree_leaves_with_implicit t0))
         (take i rest) ->
  get_common_prefix_transforms _materialize fuel (t0 :: rest)
  = Raises StructureValueError
  /\ named_tree_index StructureValueError = None.
Proof.
  intros Hi Hne Hpre. split; [|reflexivity].
  unfold get_common_prefix_transforms.
  rewrite bool_decide_eq_false_2.
  2:{ destruct rest; [discriminate|]. simpl. lia. }
  unfold materialization_paths_of. simpl map. cbv beta iota.
  unfold tree_flatten_with_implicit at 1.
  rewrite (check_trees_structure_mismatch rest i 1 t t0 Hi Hne Hpre).
  reflexivity.
Qed.

Lemma structure_mismatch_raises_witness :
  get_common_prefix_transforms Examples.materialize_now 5 Examples.tuple_and_list
  = Raises StructureValueError
  /\ named_tree_index StructureValueError = None.
Proof.
  apply (structure_mismatch_raises Examples.materialize_now 5
           (Container 0 [Array Examples.f32 0]) [Container 1 [Array Examples.f32 0]]
           0 (Container 1 [Array Examples.f32 0])).
  - reflexivity.
  - discriminate.
  - simpl. constructor.
Defined.

(** ** Transposing the leaves *)

Lemma zip_star_lookup {A} (lists : list (list A)) (i : nat) (g : list A) :
  zip_star lists !! i = Some g <->
  lists <> [] /\ Forall2 (fun x l => l !! i = Some x) g lists.
Proof.
  revert g. induction lists as [|l ls IH]; intros g.
  - simpl. split; [discriminate | intros [H _]; contradiction].
  - destruct ls as [|l2 ls].
    + simpl. rewrite list_lookup_fmap. split.
      * destruct (l !! i) as [x|] eqn:E; simpl; [|discriminate].
        intros [= <-]. split; [discriminate|]. repeat constructor. exact E.
      * intros [_ H]. inversion H as [|x l' g' ls' Hx Hrest]; subst.
        inversion Hrest; subst. rewrite Hx. reflexivity.
    + change (zip_star (l :: l2 :: ls)) with (zip_with cons l (zip_star (l2 :: ls))).
      rewrite lookup_zip_with_Some. split.
      * intros (x & g' & -> & Hx & Hg'). apply IH in Hg' as [_ Hg'].
        split; [discriminate|]. constructor; assumption.
      * intros [_ H]. inversion H as [|x l' g' ls' Hx Hrest]; subst.
        exists x, g'. split; [reflexivity|]. split; [exact Hx|].
        apply IH. split; [discriminate | exact Hrest].
Qed.

Lemma zip_star_elem_of {A} (lists : list (list A)) (g : list A) (x : A) :
  g ∈ zip_star lists -> x ∈ g -> exists l, l ∈ lists /\ x ∈ l.
Proof.
  intros Hg Hx. apply list_elem_of_lookup in Hg as [i Hi].
  apply zip_star_lookup in Hi as [_ HF].
  induction HF as [|y l g' ls Hy HF IH].
  - inversion Hx.
  - apply elem_of_cons in Hx as [->|Hx].
    + exists l. split; [left|]. eapply list_elem_of_lookup_2; eauto.
    + destruct (IH Hx) as (l' & Hl' & Hxl'). exists l'. split; [right|]; assumption.
Qed.

(** ** Trees without ImplicitArrays *)

Lemma no_implicit_leaves (t : tree) :
  no_implicit t = true ->
  Forall (fun x => leaf_predicate x = false) (tree_leaves_with_implicit t).
Proof.
  induction t as [a d|a aux cs IH|k cs IH] using tree_nested_ind; simpl; intros H.
  - repeat constructor.
  - discriminate.
  - induction IH as [|c cs Hc _ IHcs]; simpl; [constructor|].
    simpl in H. apply andb_true_iff in H as [H1 H2].
    apply Forall_app. split; [apply Hc; exact H1 | apply IHcs; exact H2].
Qed.

Lemma existsb_leaf_predicate_false (nodes : list tree) :
  Forall (fun x => leaf_predicate x = false) nodes ->
  existsb leaf_predicate nodes = false.
Proof.
  induction 1 as [|x l Hx _ IH]; simpl; [reflexivity|]. rewrite Hx, IH. reflexivity.
Qed.

Lemma process_entry_concrete (p : path) (nodes : list tree) :
  Forall (fun x => leaf_predicate x = false) nodes ->
  process_entry (p, nodes) = Skip.
Proof.
  intros H. unfold process_entry. rewrite existsb_leaf_predicate_false by exact H.
  reflexivity.
Qed.

Lemma run_stack_nil (fuel : nat) (acc : gset path) :
  run_stack fuel ([], acc) = Returns acc [].
Proof. destruct fuel; reflexivity. Qed.

Lemma run_stack_snoc (fuel : nat) (stack : list entry) (e : entry) (acc : gset path) :
  run_stack (S fuel) (stack ++ [e], acc) =
  run_stack fuel match process_entry e with
                 | Skip => (stack, acc)
                 | Materialize => (stack, {[ e.1 ]} ∪ acc)
                 | Expand entries => (stack ++ entries, acc)
                 end.
Proof.
  cbn [run_stack]. rewrite step_snoc. reflexivity.
Qed.

Lemma run_stack_all_concrete (stack : list entry) :
  forall (fuel : nat) (acc : gset path),
  Forall (fun e : entry => Forall (fun x => leaf_predicate x = false) e.2) stack ->
  length stack <= fuel ->
  run_stack fuel (stack, acc) = Returns acc [].
Proof.
  induction stack as [|e stack IH] using rev_ind; intros fuel acc Hall Hlen.
  - apply run_stack_nil.
  - rewrite length_app in Hlen. simpl in Hlen.
    destruct fuel as [|fuel]; [lia|].
    apply Forall_app in Hall as [Hall He]. rewrite Forall_singleton in He.
    rewrite run_stack_snoc. destruct e as [p nodes].
    rewrite process_entry_concrete by exact He.
    apply IH; [exact Hall | lia].
Qed.

Lemma initial_stack_length (t : tree) (trees : list tree) :
  length (initial_stack (t :: trees)) <= length (tree_leaves_with_implicit t).
Proof.
  unfold initial_stack. rewrite length_imap.
  destruct (decide (length (zip_star (map tree_leaves_with_implicit (t :: trees)))
                    <= length (tree_leaves_with_implicit t))) as [H|H]; [exact H|].
  exfalso. apply H. clear H.
  set (n := length (tree_leaves_with_implicit t)).
  destruct (zip_star (map tree_leaves_with_implicit (t :: trees)) !! n) as [g|] eqn:E.
  - apply zip_star_lookup in E as [_ HF]. simpl in HF.
    inversion HF as [|x l g' ls Hx _]; subst.
    apply lookup_lt_Some in Hx. unfold n in Hx. lia.
  - apply lookup_ge_None in E. lia.
Qed.

Lemma initial_stack_concrete (trees : list tree) :
  Forall (fun t => no_implicit t = true) trees ->
  Forall (fun e : entry => Forall (fun x => leaf_predicate x = false) e.2)
         (initial_stack trees).
Proof.
  intros Hall. apply Forall_forall. intros [p nodes] He.
  unfold initial_stack in He. apply list_elem_of_lookup in He as [i Hi].
  rewrite list_lookup_imap in Hi.
  destruct (zip_star (map tree_leaves_with_implicit trees) !! i) as [g|] eqn:E;
    [|discriminate].
  simpl in Hi. injection Hi as <- <-. simpl.
  apply Forall_forall. intros x Hx.
  destruct (zip_star_elem_of (map tree_leaves_with_implicit trees) g x)
    as (l & Hl & Hxl); [eapply list_elem_of_lookup_2; eauto | exact Hx |].
  apply list_elem_of_fmap in Hl as (t & -> & Ht).
  rewrite Forall_forall in Hall.
  pose proof (no_implicit_leaves t (Hall t Ht)) as Hleaves.
  rewrite Forall_forall in Hleaves. apply Hleaves. exact Hxl.
Qed.

Lemma implicit_depth_no_implicit (fuel : nat) (t : tree) :
  no_implicit t = true -> implicit_depth fuel t = Returns 0 [].
Proof.
  intros H. unfold implicit_depth.
  destruct fuel; simpl;
    rewrite (existsb_leaf_predicate_false _ (no_implicit_leaves t H)); reflexivity.
Qed.

Lemma materialization_paths_same_tree_concrete (fuel : nat) (t : tree) :
  no_implicit t = true ->
  length (tree_leaves_with_implicit t) <= fuel ->
  materialization_paths_of fuel [t; t] = Returns ∅ [].
Proof.
  intros H Hfuel. unfold materialization_paths_of. simpl.
  rewrite bool_decide_eq_false_2 by (intros Hc; apply Hc; reflexivity).
  rewrite check_avals_same. simpl.
  rewrite run_stack_all_concrete; [reflexivity | |].
  - apply initial_stack_concrete. repeat constructor; exact H.
  - etrans; [apply initial_stack_length | exact Hfuel].
Qed.

(** C7. Identity on input without ImplicitArrays: for such a tree
    [implicit_depth] returns 0, and [get_common_prefix_transforms] on the
    tree given twice finds an empty [materialization_paths] and returns two
    identity transforms (the fuel covering one iteration per leaf). *)
Theorem identity_on_no_implicit
    (_materialize : aval -> nat -> list tree -> materialized) (fuel : nat)
    (t : tree) :
  no_implicit t = true ->
  length (tree_leaves_with_implicit t) <= fuel ->
  implicit_depth fuel t = Returns 0 []
  /\ materialization_paths_of fuel [t; t] = Returns ∅ []
  /\ get_common_prefix_transforms _materialize fuel [t; t]
     = Returns [fun x => Returns x []; fun x => Returns x []] [].
Proof.
  intros H Hfuel. split; [apply implicit_depth_no_implicit; exact H|].
  split; [apply materialization_paths_same_tree_concrete; assumption|].
  unfold get_common_prefix_transforms.
  rewrite bool_decide_eq_false_2 by (simpl; lia).
  rewrite materialization_paths_same_tree_concrete by assumption.
  reflexivity.
Qed.

(** ** The no-prefix invariant *)

Lemma prefix_snoc_inv (x p : path) (i : nat) :
  x `prefix_of` p ++ [i] -> x `prefix_of` p \/ x = p ++ [i].
Proof.
  intros [k Hk]. destruct k as [|y k _] using rev_ind.
  - right. rewrite app_nil_r in Hk. done.
  - left. rewrite app_assoc in Hk. apply app_inj_tail in Hk as [-> _].
    by exists k.
Qed.

Lemma unrelated_sym (p q : path) : unrelated p q -> unrelated q p.
Proof. intros [H1 H2]. split; assumption. Qed.

Lemma unrelated_snoc (p q : path) (i : nat) :
  unrelated p q -> unrelated (p ++ [i]) q.
Proof.
  intros [H1 H2]. split.
  - intros H. apply H1. eapply prefix_app_l. exact H.
  - intros H. apply prefix_snoc_inv in H as [H| ->]; [by apply H2|].
    apply H1. by apply prefix_app_r.
Qed.

Lemma unrelated_children (p : path) (i j : nat) :
  i <> j -> unrelated (p ++ [i]) (p ++ [j]).
Proof.
  intros Hij. split; intros H; apply prefix_app_inv in H;
    destruct H as [k Hk]; injection Hk as Hk _; congruence.
Qed.

Lemma antichain_app (l1 l2 : list path) :
  antichain (l1 ++ l2) <->
  antichain l1 /\ antichain l2 /\ (forall p q, p ∈ l1 -> q ∈ l2 -> unrelated p q).
Proof.
  induction l1 as [|x l1 IH]; simpl.
  - split; [|tauto]. intros H. split; [exact I|]. split; [exact H|].
    intros p q Hp. inversion Hp.
  - rewrite IH, Forall_app. split.
    + intros [[Hx1 Hx2] (H1 & H2 & H12)].
      split; [split; assumption|]. split; [assumption|].
      intros p q Hp Hq. apply elem_of_cons in Hp as [->|Hp]; [|by apply H12].
      rewrite Forall_forall in Hx2. by apply Hx2.
    + intros ([Hx1 H1] & H2 & H12).
      split; [split; [exact Hx1|]|].
      * apply Forall_forall. intros q Hq. apply H12; [left | exact Hq].
      * split; [exact H1|]. split; [exact H2|].
        intros p q Hp Hq. apply H12; [by right | exact Hq].
Qed.

Lemma antichain_children (p : path) (n k : nat) :
  antichain (map (fun i => p ++ [i]) (seq k n)).
Proof.
  revert k. induction n as [|n IH]; intros k; simpl; [exact I|].
  split; [|apply IH].
  apply Forall_forall. intros q Hq. apply list_elem_of_fmap in Hq as (j & -> & Hj).
  apply elem_of_seq in Hj. apply unrelated_children. lia.
Qed.

Lemma imap_fst_seq {A} (g : nat -> path) (l : list A) :
  map fst (imap (fun i x => (g i, x)) l) = map g (seq 0 (length l)).
Proof.
  apply list_eq. intros i.
  rewrite !list_lookup_fmap, list_lookup_imap.
  destruct (l !! i) as [x|] eqn:E; simpl.
  - rewrite lookup_seq_lt by (eapply lookup_lt_Some; eauto). reflexivity.
  - apply lookup_ge_None in E. rewrite lookup_seq_ge by lia. reflexivity.
Qed.

Lemma process_entry_expand_paths (e : entry) (entries : list entry) :
  process_entry e = Expand entries ->
  map fst entries = map (fun i => e.1 ++ [i]) (seq 0 (length entries)).
Proof.
  destruct e as [p nodes]. unfold process_entry.
  repeat case_match; try discriminate. intros [= <-].
  rewrite length_imap. apply (imap_fst_seq (fun i => p ++ [i])).
Qed.

Lemma step_inv (st : state) :
  forall st', step st = Some st' ->
  exists stack e, st.1 = stack ++ [e] /\
    st' = match process_entry e with
          | Skip => (stack, st.2)
          | Materialize => (stack, {[ e.1 ]} ∪ st.2)
          | Expand entries => (stack ++ entries, st.2)
          end.
Proof.
  destruct st as [stack0 acc]. intros st' H. unfold step in H.
  destruct (pop stack0) as [[stack e]|] eqn:E; [|discriminate].
  apply pop_Some_inv in E. subst stack0. exists stack, e. split; [reflexivity|].
  destruct e as [p nodes]. simpl.
  destruct (process_entry (p, nodes)); injection H as <-; reflexivity.
Qed.

Lemma stack_invariant_step (st st' : state) :
  stack_invariant st -> step st = Some st' -> stack_invariant st'.
Proof.
  intros (Hanti & Hcross & Hfree) Hstep.
  apply step_inv in Hstep as (stack & e & Hst & ->).
  destruct st as [stack0 acc]. simpl in *. subst stack0.
  rewrite map_app in Hanti, Hcross. simpl in Hanti, Hcross.
  apply antichain_app in Hanti as (Hs & _ & Hse).
  assert (He : forall p, p ∈ map fst stack -> unrelated p e.1).
  { intros p Hp. apply Hse; [exact Hp | left]. }
  assert (Hsacc : forall p q, p ∈ map fst stack -> q ∈ acc -> unrelated p q).
  { intros p q Hp Hq. apply Hcross; [|exact Hq]. apply elem_of_app. by left. }
  assert (Heacc : forall q, q ∈ acc -> unrelated e.1 q).
  { intros q Hq. apply Hcross; [|exact Hq]. apply elem_of_app. right. left. }
  destruct (process_entry e) as [| |entries] eqn:Hp; unfold stack_invariant; simpl.
  - split; [exact Hs|]. split; [exact Hsacc | exact Hfree].
  - split; [exact Hs|]. split.
    + intros p q Hp' Hq. apply elem_of_union in Hq as [Hq|Hq].
      * apply elem_of_singleton in Hq as ->. by apply He.
      * by apply Hsacc.
    + intros p q Hp' Hq Hne Hpre.
      apply elem_of_union in Hp' as [Hp'|Hp'], Hq as [Hq|Hq];
        try (apply elem_of_singleton in Hp'; subst p);
        try (apply elem_of_singleton in Hq; subst q).
      * by apply Hne.
      * destruct (Heacc q Hq) as [H1 _]. by apply H1.
      * destruct (Heacc p Hp') as [_ H2]. by apply H2.
      * by apply (Hfree p q).
  - apply process_entry_expand_paths in Hp.
    rewrite map_app, Hp. split; [|split; [|exact Hfree]].
    + apply antichain_app. split; [exact Hs|]. split; [apply antichain_children|].
      intros p q Hp' Hq. apply list_elem_of_fmap in Hq as (j & -> & _).
      apply unrelated_sym, unrelated_snoc, unrelated_sym. by apply He.
    + intros p q Hp' Hq. apply elem_of_app in Hp' as [Hp'|Hp']; [by apply Hsacc|].
      apply list_elem_of_fmap in Hp' as (j & -> & _).
      apply unrelated_snoc. by apply Heacc.
Qed.

Lemma stack_invariant_initial (trees : list tree) :
  stack_invariant (initial_stack trees, ∅).
Proof.
  unfold stack_invariant, initial_stack. simpl.
  rewrite (imap_fst_seq (fun i => [i])). split; [|split].
  - apply (antichain_children []).
  - intros p q _ Hq. by apply elem_of_empty in Hq.
  - intros p q Hp. by apply elem_of_empty in Hp.
Qed.

Lemma stack_invariant_iterate (n : nat) :
  forall st st', stack_invariant st -> iterate_step n st = Some st' ->
                 stack_invariant st'.
Proof.
  induction n as [|n IH]; intros st st' Hinv H; simpl in H.
  - by injection H as <-.
  - destruct (step st) as [st1|] eqn:E; [|discriminate].
    eapply IH; [|exact H]. eapply stack_invariant_step; eauto.
Qed.

Lemma run_stack_iterate (fuel : nat) :
  forall st paths calls, run_stack fuel st = Returns paths calls ->
  calls = [] /\ exists n st', iterate_step n st = Some st' /\ st'.1 = [] /\ st'.2 = paths.
Proof.
  induction fuel as [|fuel IH]; intros st paths calls H; simpl in H.
  - destruct (step st) as [st1|] eqn:E; [discriminate|].
    injection H as <- <-. split; [reflexivity|]. exists 0, st. split; [reflexivity|].
    split; [|reflexivity]. destruct st as [stack acc]. unfold step in E. simpl.
    destruct (pop stack) as [[r [p nodes]]|] eqn:Ep.
    + destruct (process_entry (p, nodes)); discriminate.
    + by apply pop_nil_inv.
  - destruct (step st) as [st1|] eqn:E.
    + apply IH in H as (-> & n & st' & Hn & Hs). split; [reflexivity|].
      exists (S n), st'. split; [|exact Hs]. simpl. rewrite E. exact Hn.
    + injection H as <- <-. split; [reflexivity|]. exists 0, st.
      split; [reflexivity|]. split; [|reflexivity].
      destruct st as [stack acc]. unfold step in E. simpl.
      destruct (pop stack) as [[r [p nodes]]|] eqn:Ep.
      * destruct (process_entry (p, nodes)); discriminate.
      * by apply pop_nil_inv.
Qed.

Lemma check_avals_calls (i : nat) (leaves : list tree) (expected : list aval)
    (calls : list call) :
  check_avals i leaves expected = Returns tt calls -> calls = [].
Proof.
  revert expected. induction leaves as [|leaf leaves IH]; intros [|e expected] H;
    simpl in H; try (by injection H as <-).
  destruct (aval_matches _ _); [by eapply IH | discriminate].
Qed.

Lemma check_trees_calls (rest : list (list tree * treedef)) :
  forall (i : nat) (structure0 : treedef) (avals : list aval) (calls : list call),
  check_trees i rest structure0 avals = Returns tt calls -> calls = [].
Proof.
  induction rest as [|[leaves structure] rest IH]; intros i s0 avals calls H;
    simpl in H; [by injection H as <-|].
  destruct (bool_decide _); [discriminate|].
  destruct (check_avals i leaves avals) as [[] c| |] eqn:E; try discriminate.
  apply check_avals_calls in E as ->. simpl in H.
  destruct (check_trees _ _ _ _) as [[] c'| |] eqn:E'; try discriminate.
  apply IH in E' as ->. by injection H as <-.
Qed.

Lemma materialization_paths_of_inv (fuel : nat) (trees : list tree)
    (paths : gset path) (calls : list call) :
  materialization_paths_of fuel trees = Returns paths calls ->
  calls = []
  /\ (trees = [] /\ paths = ∅
      \/ run_stack fuel (initial_stack trees, ∅) = Returns paths []).
Proof.
  unfold materialization_paths_of. destruct trees as [|t0 rest]; cbn [map].
  - intros [= <- <-]. split; [reflexivity | by left].
  - cbn [tree_flatten_with_implicit]. intros H.
    apply bind_Returns_inv in H as ([] & c1 & c2 & H1 & H2 & ->).
    apply check_trees_calls in H1 as ->.
    apply run_stack_iterate in H2 as H2'. destruct H2' as [-> _].
    split; [reflexivity | by right].
Qed.

(** C2. The no-prefix invariant: after any number of iterations of the loop
    started by [get_common_prefix_transforms], and in the set it ends with
    when the call completes, no path of [materialization_paths] is a prefix
    of another one. *)
Theorem no_prefix_invariant (trees : list tree) (n fuel : nat) (st : state)
    (paths : gset path) (calls : list call) :
  iterate_step n (initial_stack trees, ∅) = Some st ->
  materialization_paths_of fuel trees = Returns paths calls ->
  prefix_free st.2 /\ prefix_free paths.
Proof.
  intros Hn Hret. split.
  - eapply stack_invariant_iterate in Hn; [|apply stack_invariant_initial].
    apply Hn.
  - apply materialization_paths_of_inv in Hret as [_ [[_ ->]|Hrun]].
    + intros p q Hp. by apply elem_of_empty in Hp.
    + apply run_stack_iterate in Hrun as (_ & k & st' & Hk & _ & <-).
      eapply stack_invariant_iterate in Hk; [|apply stack_invariant_initial].
      apply Hk.
Qed.

(** ** Independence of the order of the work set *)

Lemma contributes_unique (l : list entry) (paths1 : gset path) :
  contributes l paths1 -> forall paths2, contributes l paths2 -> paths1 = paths2.
Proof.
  induction 1 as [|e l p1 He _ IH|e l p1 He _ IH|e entries l p1 p1' He _ IH1 _ IH2];
    intros paths2 H2; inversion H2; subst; try congruence.
  - by apply IH.
  - f_equal. by apply IH.
  - match goal with
    | H : process_entry e = Expand ?en |- _ =>
        rewrite He in H; injection H as <-
    end.
    f_equal; [by apply IH1 | by apply IH2].
Qed.

Lemma contributes_app (l1 l2 : list entry) (paths : gset path) :
  contributes (l1 ++ l2) paths <->
  exists paths1 paths2,
    contributes l1 paths1 /\ contributes l2 paths2 /\ paths = paths1 ∪ paths2.
Proof.
  revert paths. induction l1 as [|e l1 IH]; intros paths; simpl.
  - split.
    + intros H. exists ∅, paths. split; [constructor|]. split; [exact H|].
      by rewrite (left_id_L ∅ (∪)).
    + intros (p1 & p2 & H1 & H2 & ->). inversion H1; subst.
      by rewrite (left_id_L ∅ (∪)).
  - split.
    + intros H.
      inversion H as [|e' l' q He Hl|e' l' q He Hl|e' en l' q1 q2 He Hen Hl]; subst.
      * apply (proj1 (IH _)) in Hl as (p1 & p2 & H1 & H2 & ->).
        exists p1, p2. split; [by apply contributes_skip|]. done.
      * apply (proj1 (IH _)) in Hl as (p1 & p2 & H1 & H2 & ->).
        exists ({[ e.1 ]} ∪ p1), p2. split; [by apply contributes_materialize|].
        split; [exact H2|]. by rewrite (assoc_L (∪)).
      * apply (proj1 (IH _)) in Hl as (p1 & p2 & H1 & H2 & ->).
        exists (q1 ∪ p1), p2. split; [eapply contributes_expand; eauto|].
        split; [exact H2|]. by rewrite (assoc_L (∪)).
    + intros (p1 & p2 & H1 & H2 & ->). inversion H1; subst.
      * apply contributes_skip; [assumption|]. apply IH. eauto.
      * rewrite <- (assoc_L (∪)). apply contributes_materialize; [assumption|].
        apply IH. eauto.
      * rewrite <- (assoc_L (∪)). eapply contributes_expand; eauto.
        apply IH. eauto.
Qed.

(** Equations between unions of sets of paths. *)
Ltac union_ac :=
  apply set_eq; intros ?; rewrite ?elem_of_union, ?elem_of_empty; tauto.

Lemma step_any_contributes (st st' : state) :
  step_any st st' ->
  forall paths', contributes st'.1 paths' ->
  exists paths, contributes st.1 paths /\ st.2 ∪ paths = st'.2 ∪ paths'.
Proof.
  intros Hstep paths' Hc.
  destruct Hstep as [before e after acc He|before e after acc He
                    |before e after acc entries He]; simpl in *.
  - apply contributes_app in Hc as (p1 & p2 & H1 & H2 & ->).
    exists (p1 ∪ p2). split; [|reflexivity].
    apply contributes_app. exists p1, p2. split; [exact H1|].
    split; [by apply contributes_skip | reflexivity].
  - apply contributes_app in Hc as (p1 & p2 & H1 & H2 & ->).
    exists (p1 ∪ ({[ e.1 ]} ∪ p2)). split; [|union_ac].
    apply contributes_app. exists p1, ({[ e.1 ]} ∪ p2). split; [exact H1|].
    split; [by apply contributes_materialize | reflexivity].
  - apply contributes_app in Hc as (p1 & p23 & H1 & H23 & ->).
    apply contributes_app in H23 as (p2 & p3 & H2 & H3 & ->).
    exists (p1 ∪ (p3 ∪ p2)). split; [|union_ac].
    apply contributes_app. exists p1, (p3 ∪ p2). split; [exact H1|].
    split; [by eapply contributes_expand | reflexivity].
Qed.

Lemma run_any_contributes (st : state) (final : gset path) :
  rtc step_any st ([], final) ->
  exists paths, contributes st.1 paths /\ final = st.2 ∪ paths.
Proof.
  intros H. remember ([], final) as st_end eqn:Hend.
  induction H as [st|st st1 st2 Hstep _ IH].
  - subst st. exists ∅. split; [constructor | simpl; union_ac].
  - destruct (IH Hend) as (paths1 & Hc1 & ->).
    destruct (step_any_contributes _ _ Hstep _ Hc1) as (paths & Hc & Heq).
    exists paths. split; [exact Hc | by rewrite Heq].
Qed.

Lemma run_any_unique (st : state) (final1 final2 : gset path) :
  rtc step_any st ([], final1) -> rtc step_any st ([], final2) -> final1 = final2.
Proof.
  intros H1 H2.
  apply run_any_contributes in H1 as (p1 & Hc1 & ->).
  apply run_any_contributes in H2 as (p2 & Hc2 & ->).
  by rewrite (contributes_unique _ _ Hc1 _ Hc2).
Qed.

Lemma step_step_any (st st' : state) : step st = Some st' -> step_any st st'.
Proof.
  intros H. apply step_inv in H as (stack & e & Hst & ->).
  destruct st as [stack0 acc]. simpl in *. subst stack0.
  destruct (process_entry e) as [| |entries] eqn:He.
  - rewrite <- (app_nil_r stack) at 2. by apply step_any_skip.
  - rewrite <- (app_nil_r stack) at 2. by apply step_any_materialize.
  - change (stack ++ entries) with (stack ++ [] ++ entries). by apply step_any_expand.
Qed.

Lemma step_fifo_step_any (st st' : state) : step_fifo st = Some st' -> step_any st st'.
Proof.
  destruct st as [[|[p nodes] queue] acc]; simpl; [discriminate|].
  destruct (process_entry (p, nodes)) as [| |entries] eqn:He; intros [= <-].
  - by apply (step_any_skip []).
  - by apply (step_any_materialize [] (p, nodes)).
  - by apply (step_any_expand [] (p, nodes)).
Qed.

Lemma iterate_step_run_any (n : nat) :
  forall st st', iterate_step n st = Some st' -> rtc step_any st st'.
Proof.
  induction n as [|n IH]; intros st st' H; simpl in H.
  - injection H as <-. apply rtc_refl.
  - destruct (step st) as [st1|] eqn:E; [|discriminate].
    eapply rtc_l; [apply step_step_any; exact E | by apply IH].
Qed.

Lemma run_stack_run_any (fuel : nat) (st : state) (paths : gset path)
    (calls : list call) :
  run_stack fuel st = Returns paths calls -> rtc step_any st ([], paths).
Proof.
  intros H. apply run_stack_iterate in H as (_ & n & [stack acc] & Hn & Hs & Hp).
  simpl in Hs, Hp. subst. by eapply iterate_step_run_any.
Qed.

Lemma run_queue_run_any (fuel : nat) :
  forall st paths calls,
  run_queue fuel st = Returns paths calls -> rtc step_any st ([], paths).
Proof.
  induction fuel as [|fuel IH]; intros st paths calls H; simpl in H.
  - destruct (step_fifo st) as [st1|] eqn:E; [discriminate|].
    injection H as <- _. destruct st as [[|[p nodes] q] acc]; simpl in *.
    + apply rtc_refl.
    + destruct (process_entry (p, nodes)); discriminate.
  - destruct (step_fifo st) as [st1|] eqn:E.
    + eapply rtc_l; [apply step_fifo_step_any; exact E | by eapply IH].
    + injection H as <- _. destruct st as [[|[p nodes] q] acc]; simpl in *.
      * apply rtc_refl.
      * destruct (process_entry (p, nodes)); discriminate.
Qed.

(** C3. Independence of the order of the work set: when the loop of
    [get_common_prefix_transforms] (a stack) completes on the initial work
    set, the loop run as a queue, and any run that takes the entries in any
    order, end with the same [materialization_paths]. *)
Theorem work_set_order_independent (trees : list tree) (fuel fuel' : nat)
    (paths_stack paths_queue paths_any : gset path) (calls calls' : list call) :
  run_stack fuel (initial_stack trees, ∅) = Returns paths_stack calls ->
  run_queue fuel' (initial_stack trees, ∅) = Returns paths_queue calls' ->
  rtc step_any (initial_stack trees, ∅) ([], paths_any) ->
  paths_queue = paths_stack /\ paths_any = paths_stack.
Proof.
  intros Hs Hq Ha.
  apply run_stack_run_any in Hs. apply run_queue_run_any in Hq.
  split; eapply run_any_unique; eauto.
Qed.

(** ** Completion of the loop *)

(** A list of entries that contributes a set of paths is worked off by the
    stack loop in a number of iterations that depends on the entries only. *)
Lemma run_stack_contributes (l : list entry) (paths : gset path) :
  contributes l paths ->
  exists n, forall stack acc fuel,
    run_stack (n + fuel) (stack ++ l, acc) = run_stack fuel (stack, paths ∪ acc).
Proof.
  induction 1 as [|e l p1 He _ [n IH]|e l p1 He _ [n IH]
                 |e entries l p1 p2 He _ [n1 IH1] _ [n2 IH2]].
  - exists 0. intros stack acc fuel. rewrite app_nil_r. simpl.
    by rewrite (left_id_L ∅ (∪)).
  - exists (n + 1). intros stack acc fuel.
    rewrite (cons_middle e), app_assoc, <- Nat.add_assoc, IH.
    change (1 + fuel) with (S fuel). rewrite run_stack_snoc, He. reflexivity.
  - exists (n + 1). intros stack acc fuel.
    rewrite (cons_middle e), app_assoc, <- Nat.add_assoc, IH.
    change (1 + fuel) with (S fuel). rewrite run_stack_snoc, He.
    f_equal. f_equal. union_ac.
  - exists (n2 + (1 + n1)). intros stack acc fuel.
    rewrite (cons_middle e), app_assoc, <- Nat.add_assoc, IH2.
    rewrite <- Nat.add_assoc. change (1 + (n1 + fuel)) with (S (n1 + fuel)).
    rewrite run_stack_snoc, He, IH1. f_equal. f_equal. union_ac.
Qed.

Lemma run_stack_of_contributes (l : list entry) (paths : gset path) :
  contributes l paths ->
  exists n, forall fuel, n <= fuel -> run_stack fuel (l, ∅) = Returns paths [].
Proof.
  intros H. destruct (run_stack_contributes l paths H) as [n Hn].
  exists n. intros fuel Hfuel.
  replace fuel with (n + (fuel - n)) by lia.
  rewrite (Hn [] ∅ (fuel - n)). rewrite run_stack_nil.
  by rewrite (right_id_L ∅ (∪)).
Qed.

(** ** Entries with two nodes *)

Lemma zip_star_pair {A} (l1 l2 : list A) :
  zip_star [l1; l2] = zip_with (fun x y => [x; y]) l1 l2.
Proof.
  simpl. revert l2. induction l1 as [|x l1 IH]; intros [|y l2]; simpl;
    try reflexivity. by rewrite IH.
Qed.

Lemma aval_diff_pairs (l1 l2 : list tree) :
  map get_aval l1 = map get_aval l2 ->
  aval_diff (zip_with (fun x y => [x; y]) l1 l2) = false.
Proof.
  unfold aval_diff.
  revert l2. induction l1 as [|x l1 IH]; intros [|y l2]; try reflexivity.
  cbn [map]. intros [= Hxy Hrest].
  cbn [zip_with existsb group_aval_diff orb].
  rewrite (IH l2 Hrest), <- Hxy, aval_matches_refl. reflexivity.
Qed.

Lemma process_entry_pair_expand (p : path) (n1 n2 : tree) :
  existsb leaf_predicate [n1; n2] = true ->
  (flatten_one_implicit_layer n1).2 = (flatten_one_implicit_layer n2).2 ->
  map get_aval (flatten_one_implicit_layer n1).1
  = map get_aval (flatten_one_implicit_layer n2).1 ->
  process_entry (p, [n1; n2])
  = Expand (imap (fun i g => (p ++ [i], g))
                 (zip_with (fun x y => [x; y])
                           (flatten_one_implicit_layer n1).1
                           (flatten_one_implicit_layer n2).1)).
Proof.
  intros Hany Hs Ha. unfold process_entry. rewrite Hany. cbn [negb].
  cbn [map]. rewrite zip_star_pair.
  rewrite bool_decide_eq_false_2.
  2:{ apply Nat.le_ngt.
      apply (remove_dups_all_equal _ (flatten_one_implicit_layer n2).2).
      repeat constructor. exact Hs. }
  rewrite (aval_diff_pairs _ _ Ha). reflexivity.
Qed.

Lemma process_entry_pair_materialize (p : path) (n1 n2 : tree) :
  existsb leaf_predicate [n1; n2] = true ->
  (flatten_one_implicit_layer n1).2 <> (flatten_one_implicit_layer n2).2 ->
  process_entry (p, [n1; n2]) = Materialize.
Proof.
  intros Hany Hs. unfold process_entry. rewrite Hany. cbn [negb map].
  rewrite bool_decide_eq_true_2; [reflexivity|].
  cbn [remove_dups]. destruct (decide_rel elem_of _ _) as [H|H].
  - apply list_elem_of_singleton in H. contradiction.
  - simpl. lia.
Qed.

Lemma contributes_singletons (l : list entry) :
  Forall (fun e => contributes [e] ∅) l -> contributes l ∅.
Proof.
  induction 1 as [|e l He _ IH]; [constructor|].
  change (e :: l) with ([e] ++ l). apply contributes_app.
  exists ∅, ∅. split; [exact He|]. split; [exact IH|]. union_ac.
Qed.

Lemma tree_size_leaf (c y : tree) :
  y ∈ tree_leaves_with_implicit c -> tree_size y <= tree_size c.
Proof.
  induction c as [a d|a aux cs IH|k cs IH] using tree_nested_ind; simpl.
  - intros H. apply list_elem_of_singleton in H. subst. simpl. lia.
  - intros H. apply list_elem_of_singleton in H. subst. simpl. lia.
  - intros H. induction IH as [|c cs Hc _ IHcs]; simpl in *; [inversion H|].
    apply elem_of_app in H as [H|H].
    + specialize (Hc H). lia.
    + specialize (IHcs H). lia.
Qed.

Lemma tree_size_children_leaf (cs : list tree) (y : tree) :
  y ∈ flat_map tree_leaves_with_implicit cs ->
  tree_size y <= list_sum (map tree_size cs).
Proof.
  induction cs as [|c cs IH]; simpl; intros H; [inversion H|].
  apply elem_of_app in H as [H|H].
  - apply tree_size_leaf in H. lia.
  - specialize (IH H). lia.
Qed.

Lemma same_entries_lookup (g : nat -> path) (l : list tree) (e : entry) :
  e ∈ imap (fun i grp => (g i, grp)) (zip_with (fun x y => [x; y]) l l) ->
  exists x, x ∈ l /\ e.2 = [x; x].
Proof.
  intros H. apply list_elem_of_lookup in H as [i Hi].
  rewrite list_lookup_imap in Hi.
  destruct (zip_with (fun x y => [x; y]) l l !! i) as [grp|] eqn:E; [|discriminate].
  injection Hi as <-. apply lookup_zip_with_Some in E as (x & y & -> & Hx & Hy).
  rewrite Hx in Hy. injection Hy as <-. exists x. split; [|reflexivity].
  eapply list_elem_of_lookup_2; eauto.
Qed.

(** Two equal nodes never lead to a recorded path. *)
Lemma contributes_same (n : nat) :
  forall (x : tree) (p : path), tree_size x <= n -> contributes [(p, [x; x])] ∅.
Proof.
  induction n as [|n IH]; intros x p Hsize.
  - destruct x; simpl in Hsize; lia.
  - destruct x as [a d|a aux cs|k cs].
    + apply contributes_skip; [reflexivity | constructor].
    + rewrite <- (left_id_L ∅ (∪) ∅). eapply contributes_expand; [| |constructor].
      * apply process_entry_pair_expand; reflexivity.
      * apply contributes_singletons. apply Forall_forall. intros [q nodes] He.
        apply same_entries_lookup in He as (y & Hy & Hn). simpl in Hn. subst nodes.
        apply IH. simpl in Hy, Hsize. apply tree_size_children_leaf in Hy. lia.
    + apply contributes_skip; [reflexivity | constructor].
Qed.

Lemma contributes_same_entries (g : nat -> path) (l : list tree) :
  contributes (imap (fun i grp => (g i, grp)) (zip_with (fun x y => [x; y]) l l)) ∅.
Proof.
  apply contributes_singletons. apply Forall_forall. intros [q nodes] He.
  apply same_entries_lookup in He as (y & Hy & Hn). simpl in Hn. subst nodes.
  by apply (contributes_same (tree_size y)).
Qed.

(** ** Minimality *)

Lemma differ_only_at_avals (q : path) (l1 l2 : list tree) :
  differ_only_at q l1 l2 -> map get_aval l1 = map get_aval l2.
Proof.
  intros H. destruct H as [i before after n1 n2 _ _ _ Ha _
                          |i j p before after n1 n2 _ H1 H2 Hs _];
    rewrite !map_app; cbn [map]; f_equal; f_equal.
  - exact Ha.
  - destruct n1, n2; try discriminate. simpl in Hs. by injection Hs as -> _.
Qed.

Lemma differ_entries (p : path) (before after : list tree) (n1 n2 : tree) :
  imap (fun i g => (p ++ [i], g))
       (zip_with (fun x y => [x; y]) (before ++ n1 :: after) (before ++ n2 :: after))
  = imap (fun i g => (p ++ [i], g)) (zip_with (fun x y => [x; y]) before before)
    ++ (p ++ [length before], [n1; n2])
    :: imap (fun i g => (p ++ [length before + S i], g))
            (zip_with (fun x y => [x; y]) after after).
Proof.
  rewrite zip_with_app by reflexivity. cbn [zip_with].
  rewrite imap_app, imap_cons, length_zip_with, Nat.min_id, Nat.add_0_r.
  reflexivity.
Qed.

Lemma contributes_differ (q : path) (l1 l2 : list tree) :
  differ_only_at q l1 l2 ->
  forall p, contributes (imap (fun i g => (p ++ [i], g))
                              (zip_with (fun x y => [x; y]) l1 l2))
                        {[ p ++ q ]}.
Proof.
  induction 1 as [i before after n1 n2 Hi H1 H2 Ha Hs
                 |i j q before after n1 n2 Hi H1 H2 Hs Hd IH]; intros p.
  - subst i. rewrite differ_entries. apply contributes_app.
    exists ∅, ({[ p ++ [length before] ]} ∪ ∅). split; [apply contributes_same_entries|].
    split; [|union_ac].
    apply (contributes_materialize (p ++ [length before], [n1; n2])).
    + apply process_entry_pair_materialize; [|exact Hs]. simpl. by rewrite H1.
    + apply (contributes_same_entries (fun k => p ++ [length before + S k])).
  - subst i. rewrite differ_entries. apply contributes_app.
    exists ∅, ({[ p ++ length before :: j :: q ]} ∪ ∅). split; [apply contributes_same_entries|].
    split; [|union_ac].
    eapply contributes_expand.
    + apply process_entry_pair_expand; [simpl; by rewrite H1 | exact Hs|].
      eapply differ_only_at_avals. exact Hd.
    + specialize (IH (p ++ [length before])). rewrite <- app_assoc in IH. exact IH.
    + apply (contributes_same_entries (fun k => p ++ [length before + S k])).
Qed.

Lemma initial_stack_pair (t1 t2 : tree) :
  initial_stack [t1; t2]
  = imap (fun i g => ([] ++ [i], g))
         (zip_with (fun x y => [x; y]) (tree_leaves_with_implicit t1)
                                       (tree_leaves_with_implicit t2)).
Proof. unfold initial_stack. cbn [map]. by rewrite zip_star_pair. Qed.

(** C1. Minimality: for two trees of the same structure with ImplicitArrays
    as leaves that are identical but for the ImplicitArray at path [P], whose
    one-layer expansion has a different structure in the two trees, the
    precondition checks pass and, given enough fuel, the loop ends with
    [materialization_paths] equal to the singleton of [P]. *)
Theorem minimality (t1 t2 : tree) (P : path) :
  tree_structure_with_implicit t1 = tree_structure_with_implicit t2 ->
  differ_only_at P (tree_leaves_with_implicit t1) (tree_leaves_with_implicit t2) ->
  exists n, forall fuel, n <= fuel ->
    materialization_paths_of fuel [t1; t2] = Returns {[ P ]} [].
Proof.
  intros Hs Hd.
  destruct (run_stack_of_contributes (initial_stack [t1; t2]) {[ P ]}) as [n Hn].
  { rewrite initial_stack_pair. apply (contributes_differ P _ _ Hd []). }
  exists n. intros fuel Hfuel. unfold materialization_paths_of.
  cbn [map tree_flatten_with_implicit check_trees].
  rewrite bool_decide_eq_false_2 by (intros Hc; apply Hc; by symmetry).
  rewrite (differ_only_at_avals _ _ _ Hd), check_avals_same.
  rewrite (Hn fuel Hfuel). reflexivity.
Qed.

(** ** Flattening and rebuilding *)

Lemma unflatten_from_node (nk : node_kind) (ds : list treedef) (leaves : list tree) :
  unflatten_from (NodeDef nk ds) leaves
  = match unflatten_children ds leaves with
    | Some (cs, rest) =>
        Some (match nk with
              | KContainer k => Container k cs
              | KImplicit a aux => Implicit a aux cs
              end, rest)
    | None => None
    end.
Proof.
  cbn [unflatten_from].
  match goal with
  | |- match ?g ds leaves with _ => _ end = _ =>
      assert (Hg : forall ds' ls, g ds' ls = unflatten_children ds' ls)
  end.
  { induction ds' as [|d ds' IH]; intros ls; [reflexivity|].
    cbn [unflatten_children]. destruct (unflatten_from d ls) as [[t rest]|]; [|reflexivity].
    rewrite IH. reflexivity. }
  rewrite Hg. reflexivity.
Qed.

(** Rebuilding a tree from its own structure and leaves gives it back. *)
Lemma unflatten_flatten (t : tree) :
  forall rest,
  unflatten_from (tree_structure_with_implicit t) (tree_leaves_with_implicit t ++ rest)
  = Some (t, rest).
Proof.
  induction t as [a d|a aux cs IH|k cs IH] using tree_nested_ind; intros rest;
    try reflexivity.
  cbn [tree_structure_with_implicit tree_leaves_with_implicit].
  rewrite unflatten_from_node.
  assert (Hcs : forall rest',
    unflatten_children (map tree_structure_with_implicit cs)
                       (flat_map tree_leaves_with_implicit cs ++ rest')
    = Some (cs, rest')).
  { induction IH as [|c cs Hc _ IHcs]; intros rest'; [reflexivity|].
    cbn [map flat_map unflatten_children]. rewrite <- app_assoc, Hc, IHcs. reflexivity. }
  rewrite Hcs. reflexivity.
Qed.

Lemma unflatten_children_flatten (cs : list tree) (rest : list tree) :
  unflatten_children (map tree_structure_with_implicit cs)
                     (flat_map tree_leaves_with_implicit cs ++ rest)
  = Some (cs, rest).
Proof.
  revert rest. induction cs as [|c cs IH]; intros rest; [reflexivity|].
  cbn [map flat_map unflatten_children].
  rewrite <- app_assoc, unflatten_flatten, IH. reflexivity.
Qed.


Lemma leaf_node_flatten (x : tree) :
  is_leaf_node x = true ->
  tree_structure_with_implicit x = LeafDef /\ tree_leaves_with_implicit x = [x].
Proof. destruct x; simpl; intros H; try discriminate; done. Qed.

Lemma leaves_are_leaf_nodes (t : tree) :
  Forall (fun x => is_leaf_node x = true) (tree_leaves_with_implicit t).
Proof.
  induction t as [a d|a aux cs IH|k cs IH] using tree_nested_ind; simpl.
  - repeat constructor.
  - repeat constructor.
  - induction IH as [|c cs Hc _ IHcs]; simpl; [constructor|].
    apply Forall_app. split; assumption.
Qed.

Lemma children_leaves_are_leaf_nodes (cs : list tree) :
  Forall (fun x => is_leaf_node x = true) (flat_map tree_leaves_with_implicit cs).
Proof.
  induction cs as [|c cs IH]; simpl; [constructor|].
  apply Forall_app. split; [apply leaves_are_leaf_nodes | exact IH].
Qed.

Lemma structure_is_container_def (t : tree) :
  container_def (tree_structure_with_implicit t) = true.
Proof.
  induction t as [a d|a aux cs IH|k cs IH] using tree_nested_ind; simpl;
    try reflexivity.
  induction IH as [|c cs Hc _ IHcs]; simpl; [reflexivity|].
  rewrite Hc. exact IHcs.
Qed.

(** What [tree_unflatten] builds from leaves of a flattening has the given
    structure and the leaves it was given. *)
Lemma unflatten_from_inv (d : treedef) :
  forall leaves t rest,
  container_def d = true ->
  Forall (fun x => is_leaf_node x = true) leaves ->
  unflatten_from d leaves = Some (t, rest) ->
  tree_structure_with_implicit t = d
  /\ leaves = tree_leaves_with_implicit t ++ rest.
Proof.
  induction d as [|nk ds IH] using treedef_nested_ind; intros leaves t rest Hd Hl H.
  - destruct leaves as [|x leaves]; [discriminate|]. injection H as <- <-.
    apply Forall_cons in Hl as [Hx _].
    destruct (leaf_node_flatten x Hx) as [-> ->]. done.
  - rewrite unflatten_from_node in H.
    destruct nk as [k|a aux]; [|discriminate].
    cbn [container_def] in Hd.
    assert (Hcs : forall leaves cs rest,
      Forall (fun x => is_leaf_node x = true) leaves ->
      unflatten_children ds leaves = Some (cs, rest) ->
      map tree_structure_with_implicit cs = ds
      /\ leaves = flat_map tree_leaves_with_implicit cs ++ rest).
    { clear H Hl leaves t rest.
      induction IH as [|d ds Hd1 _ IHds]; intros leaves cs rest Hl H.
      - injection H as <- <-. done.
      - cbn [forallb] in Hd. apply andb_true_iff in Hd as [Hd0 Hds].
        cbn [unflatten_children] in H.
        destruct (unflatten_from d leaves) as [[t1 rest1]|] eqn:E1; [|discriminate].
        destruct (unflatten_children ds rest1) as [[ts rest2]|] eqn:E2; [|discriminate].
        injection H as <- <-.
        destruct (Hd1 _ _ _ Hd0 Hl E1) as [Hs1 ->].
        apply Forall_app in Hl as [_ Hl1].
        destruct (IHds Hds _ _ _ Hl1 E2) as [Hs2 ->].
        cbn [map flat_map]. rewrite Hs1, Hs2, app_assoc. done. }
    destruct (unflatten_children ds leaves) as [[cs rest']|] eqn:E; [|discriminate].
    injection H as <- <-. destruct (Hcs _ _ _ Hl E) as [Hs ->].
    cbn [tree_structure_with_implicit tree_leaves_with_implicit]. by rewrite Hs.
Qed.

Lemma unflatten_children_inv (cs0 : list tree) (leaves cs rest : list tree) :
  Forall (fun x => is_leaf_node x = true) leaves ->
  unflatten_children (map tree_structure_with_implicit cs0) leaves = Some (cs, rest) ->
  map tree_structure_with_implicit cs = map tree_structure_with_implicit cs0
  /\ leaves = flat_map tree_leaves_with_implicit cs ++ rest.
Proof.
  revert leaves cs rest. induction cs0 as [|c cs0 IH]; intros leaves cs rest Hl H.
  - injection H as <- <-. done.
  - cbn [map unflatten_children] in H.
    destruct (unflatten_from _ leaves) as [[t1 rest1]|] eqn:E1; [|discriminate].
    destruct (unflatten_children _ rest1) as [[ts rest2]|] eqn:E2; [|discriminate].
    injection H as <- <-.
    destruct (unflatten_from_inv _ _ _ _ (structure_is_container_def c) Hl E1)
      as [Hs1 ->].
    apply Forall_app in Hl as [_ Hl1].
    destruct (IH _ _ _ Hl1 E2) as [Hs2 ->].
    cbn [map flat_map]. rewrite Hs1, Hs2, app_assoc. done.
Qed.

(** Rebuilding the one-layer expansion of an ImplicitArray from new leaves. *)
Lemma tree_unflatten_one_layer (a : aval) (aux : nat) (cs leaves : list tree)
    (t : tree) (calls : list call) :
  Forall (fun x => is_leaf_node x = true) leaves ->
  tree_unflatten (flatten_one_implicit_layer (Implicit a aux cs)).2 leaves
  = Returns t calls ->
  calls = [] /\ exists cs',
    t = Implicit a aux cs'
    /\ map tree_structure_with_implicit cs' = map tree_structure_with_implicit cs
    /\ flat_map tree_leaves_with_implicit cs' = leaves.
Proof.
  intros Hl H. unfold tree_unflatten in H.
  cbn [flatten_one_implicit_layer snd one_layer_structure] in H.
  rewrite unflatten_from_node in H.
  destruct (unflatten_children _ leaves) as [[cs' rest]|] eqn:E; [|discriminate].
  destruct rest as [|r rest]; [|discriminate].
  injection H as <- <-. split; [reflexivity|].
  destruct (unflatten_children_inv _ _ _ _ Hl E) as [Hs ->].
  exists cs'. rewrite app_nil_r. done.
Qed.

(** ** The pruning transform *)

Section Pruning.

Variable _materialize : aval -> nat -> list tree -> materialized.
Variable paths : gset path.

Lemma f_inv (fuel : nat) :
  forall (p : path) (x y : tree) (calls : list call),
  f _materialize fuel p x = Returns y calls ->
  (leaf_predicate x = false -> y = x /\ calls = [])
  /\ (leaf_predicate x = true -> exists a data, y = Array a data)
  /\ Forall (fun c : call => c.1 = p) calls.
Proof.
  induction fuel as [|fuel IH]; intros p x y calls H.
  - destruct x; try discriminate; injection H as <- <-;
      (split; [done|]; split; [discriminate | constructor]).
  - destruct x as [a d|a aux cs|k cs];
      try (injection H as <- <-;
           (split; [done|]; split; [discriminate | constructor])).
    cbn [f] in H. apply bind_Returns_inv in H as (x' & c1 & c2 & H1 & H2 & ->).
    injection H1 as <- <-.
    destruct (IH _ _ _ _ H2) as (Hk & Hm & Hc).
    split; [discriminate|]. split.
    + intros _. destruct (_materialize a aux cs) as [a' d'|a' aux' cs']; simpl in *.
      * destruct (Hk eq_refl) as [-> _]. eauto.
      * apply Hm. reflexivity.
    + constructor; [reflexivity | exact Hc].
Qed.

Lemma map_leaves_from_inv (recurse : list tree -> path -> outcome (list tree))
    (fuel : nat) (p : path) :
  maps_as_pruned paths recurse ->
  forall (ls : list tree) (idx : nat) (ls' : list tree) (calls : list call),
  Forall (fun x => is_leaf_node x = true) ls ->
  map_leaves_from recurse (f _materialize fuel)
    (fun q _ => bool_decide (q ∈ paths)) p idx ls = Returns ls' calls ->
  length ls' = length ls
  /\ (forall i y y', ls !! i = Some y -> ls' !! i = Some y' ->
                     pruned paths (p ++ [idx + i]) y y')
  /\ Forall (fun c : call => c.1 ∈ paths) calls
  /\ Forall (fun x => is_leaf_node x = true) ls'.
Proof.
  intros Hrec. induction ls as [|leaf ls IH]; intros idx ls' calls Hl H.
  - injection H as <- <-. split; [reflexivity|]. split; [|split; constructor].
    intros i y y' Hy. discriminate.
  - cbn [map_leaves_from] in H.
    apply bind_Returns_inv in H as (mapped & c1 & c23 & Hm & H & ->).
    apply bind_Returns_inv in H as (rest' & c2 & c3 & Hr & H & ->).
    injection H as <- <-.
    apply Forall_cons in Hl as [Hleaf Hl].
    destruct (IH _ _ _ Hl Hr) as (Hlen & Hpr & Hc2 & Hl').
    assert (Hhead : pruned paths (p ++ [idx]) leaf mapped
                    /\ Forall (fun c : call => c.1 ∈ paths) c1
                    /\ is_leaf_node mapped = true).
    { destruct (leaf_predicate leaf) eqn:Eleaf; cbn [negb orb] in Hm.
      - destruct (bool_decide (p ++ [idx] ∈ paths)) eqn:Ein.
        + apply bool_decide_eq_true in Ein.
          destruct (f_inv _ _ _ _ _ Hm) as (_ & Hmat & Hc).
          destruct (Hmat Eleaf) as (a & d & ->).
          split; [by apply pruned_materialized|]. split; [|reflexivity].
          eapply Forall_impl; [exact Hc|]. intros c ->. exact Ein.
        + apply bool_decide_eq_false in Ein.
          destruct leaf as [a d|a aux cs|k cs]; try discriminate.
          cbn [flatten_one_implicit_layer] in Hm.
          apply bind_Returns_inv in Hm as (sub' & c1' & c2' & Hsub & Hun & ->).
          destruct (Hrec _ _ _ _ (children_leaves_are_leaf_nodes cs) Hsub)
            as ([Hlen' Hpr'] & Hc1' & Hsub').
          destruct (tree_unflatten_one_layer a aux cs sub' mapped c2' Hsub' Hun)
            as (-> & cs' & -> & Hs & Hleaves).
          rewrite app_nil_r. split; [|split; [exact Hc1' | reflexivity]].
          apply pruned_rebuilt; [exact Ein | exact Hs | by rewrite Hleaves|].
          rewrite Hleaves. exact Hpr'.
      - destruct (f_inv _ _ _ _ _ Hm) as (Hk & _ & _).
        destruct (Hk Eleaf) as [-> ->].
        split; [by apply pruned_kept|]. split; [constructor | exact Hleaf]. }
    destruct Hhead as (Hh1 & Hh2 & Hh3).
    split; [simpl; by rewrite Hlen|]. split; [|split].
    + intros [|i] y y' Hy Hy'; simpl in Hy, Hy'.
      * injection Hy as <-. injection Hy' as <-. by rewrite Nat.add_0_r.
      * replace (idx + S i) with (S idx + i) by lia. by eapply Hpr.
    + rewrite app_nil_r. apply Forall_app. split; assumption.
    + constructor; assumption.
Qed.

Lemma _map_leaves_with_implicit_path_inv (fuel fuel' : nat) :
  maps_as_pruned paths
    (fun ls p => _map_leaves_with_implicit_path fuel (f _materialize fuel') ls
                   (fun q _ => bool_decide (q ∈ paths)) p).
Proof.
  induction fuel as [|fuel IH]; intros ls p ls' calls Hl H; [discriminate|].
  cbn [_map_leaves_with_implicit_path] in H.
  destruct (map_leaves_from_inv _ fuel' p IH ls 0 ls' calls Hl H)
    as (Hlen & Hpr & Hc & Hl').
  split; [|split; assumption]. split; [exact Hlen|]. exact Hpr.
Qed.

End Pruning.

Lemma materialize_subtrees_inv
    (_materialize : aval -> nat -> list tree -> materialized) (fuel : nat)
    (paths : gset path) (t t' : tree) (calls : list call) :
  materialize_subtrees _materialize fuel paths t = Returns t' calls ->
  pruned_leaves paths [] (tree_leaves_with_implicit t) (tree_leaves_with_implicit t')
  /\ tree_structure_with_implicit t' = tree_structure_with_implicit t
  /\ Forall (fun c : call => c.1 ∈ paths) calls.
Proof.
  unfold materialize_subtrees. cbn [tree_flatten_with_implicit]. intros H.
  apply bind_Returns_inv in H as (mapped & c1 & c2 & Hm & Hun & ->).
  destruct (_map_leaves_with_implicit_path_inv _materialize paths fuel fuel
              _ _ _ _ (leaves_are_leaf_nodes t) Hm) as (Hpr & Hc & Hl).
  unfold tree_unflatten in Hun.
  destruct (unflatten_from _ mapped) as [[t'' rest]|] eqn:E; [|discriminate].
  destruct rest as [|r rest]; [|discriminate]. injection Hun as <- <-.
  destruct (unflatten_from_inv _ _ _ _ (structure_is_container_def t) Hl E)
    as [Hs Hleaves].
  rewrite app_nil_r in Hleaves. subst mapped. rewrite app_nil_r. done.
Qed.


Lemma pruned_leaves_lookup (paths : gset path) (p : path) (ls ls' : list tree)
    (i : nat) (y : tree) :
  pruned_leaves paths p ls ls' -> ls !! i = Some y ->
  exists y', ls' !! i = Some y' /\ pruned paths (p ++ [i]) y y'.
Proof.
  intros [Hlen Hpr] Hy.
  destruct (ls' !! i) as [y'|] eqn:E.
  - exists y'. split; [reflexivity|]. by eapply Hpr.
  - apply lookup_ge_None in E. apply lookup_lt_Some in Hy. lia.
Qed.




(** C10. Reconciliation itself never materializes: a completed call of
    [get_common_prefix_transforms] has made no call of [_materialize]; and
    when one of the returned transforms is applied, every call of
    [_materialize] it makes is at a path recorded in
    [materialization_paths]. *)
Theorem reconciliation_never_materializes
    (_materialize : aval -> nat -> list tree -> materialized) (fuel : nat)
    (trees : list tree) (transforms : list (tree -> outcome tree))
    (calls calls0 calls' : list call) (paths : gset path) (i : nat)
    (tr : tree -> outcome tree) (x x' : tree) :
  get_common_prefix_transforms _materialize fuel trees = Returns transforms calls ->
  materialization_paths_of fuel trees = Returns paths calls0 ->
  transforms !! i = Some tr ->
  tr x = Returns x' calls' ->
  calls = [] /\ Forall (fun c : call => c.1 ∈ paths) calls'.
Proof.
  intros Hget Hpaths Hi Htr. unfold get_common_prefix_transforms in Hget.
  destruct (bool_decide (length trees <= 1)).
  - injection Hget as <- <-. split; [reflexivity|].
    rewrite list_lookup_fmap in Hi.
    destruct (trees !! i); [|discriminate]. injection Hi as <-.
    injection Htr as _ <-. constructor.
  - apply bind_Returns_inv in Hget as (paths1 & c1 & c2 & H1 & H2 & ->).
    rewrite Hpaths in H1. injection H1 as <- <-.
    apply materialization_paths_of_inv in Hpaths as [-> _].
    injection H2 as <- <-. split; [reflexivity|].
    rewrite list_lookup_fmap in Hi.
    destruct (trees !! i) as [t|]; [|discriminate]. injection Hi as <-.
    unfold _get_pruning_transform in Htr.
    destruct (bool_decide (paths = ∅)).
    + injection Htr as _ <-. constructor.
    + by apply materialize_subtrees_inv in Htr as (_ & _ & Hc).
Qed.

(** ** The properties on the example trees *)


Lemma example_differ :
  differ_only_at [0; 0] (tree_leaves_with_implicit Examples.tree1)
                        (tree_leaves_with_implicit Examples.tree2).
Proof.
  apply (differ_below 0 0 [] [] [Examples.inner] Examples.outer1 Examples.outer2);
    try reflexivity.
  apply (differ_here 0 [] [Array Examples.f32 1]
           (Implicit Examples.f32 1 [Array Examples.f32 0])
           (Implicit Examples.f32 1 [Array Examples.f32 0; Array Examples.f32 0]));
    try reflexivity.
  discriminate.
Qed.

Lemma example_run_stack :
  run_stack 10 (initial_stack [Examples.tree1; Examples.tree2], ∅)
  = Returns {[ [0; 0] ]} [].
Proof. vm_compute. reflexivity. Qed.

Lemma example_run_queue :
  run_queue 10 (initial_stack [Examples.tree1; Examples.tree2], ∅)
  = Returns {[ [0; 0] ]} [].
Proof. vm_compute. reflexivity. Qed.

Lemma example_materialization_paths :
  materialization_paths_of 10 [Examples.tree1; Examples.tree2]
  = Returns {[ [0; 0] ]} [].
Proof. vm_compute. reflexivity. Qed.

Lemma example_iterate :
  iterate_step 5 (initial_stack [Examples.tree1; Examples.tree2], ∅)
  = Some ([], {[ [0; 0] ]}).
Proof. vm_compute. reflexivity. Qed.

Lemma example_transform :
  _get_pruning_transform Examples.materialize_now 10 Examples.tree1 {[ [0; 0] ]}
    Examples.tree1
  = Returns Examples.tree1_pruned
      [([0; 0], Implicit Examples.f32 1 [Array Examples.f32 0])].
Proof. vm_compute. reflexivity. Qed.

Lemma example_transforms :
  get_common_prefix_transforms Examples.materialize_now 10
    [Examples.tree1; Examples.tree2]
  = Returns (map (fun t => _get_pruning_transform Examples.materialize_now 10 t
                             {[ [0; 0] ]})
                 [Examples.tree1; Examples.tree2]) [].
Proof. vm_compute. reflexivity. Qed.

Lemma minimality_witness :
  exists n, forall fuel, n <= fuel ->
    materialization_paths_of fuel [Examples.tree1; Examples.tree2]
    = Returns {[ [0; 0] ]} [].
Proof.
  apply (minimality Examples.tree1 Examples.tree2 [0; 0]).
  - reflexivity.
  - exact example_differ.
Defined.

Lemma no_prefix_invariant_witness :
  prefix_free {[ [0; 0] ]} /\ prefix_free {[ [0; 0] ]}.
Proof.
  exact (no_prefix_invariant [Examples.tree1; Examples.tree2] 5 10
           ([], {[ [0; 0] ]}) {[ [0; 0] ]} []
           example_iterate example_materialization_paths).
Defined.

Lemma work_set_order_independent_witness :
  ({[ [0; 0] ]} : gset path) = {[ [0; 0] ]} /\ ({[ [0; 0] ]} : gset path) = {[ [0; 0] ]}.
Proof.
  apply (work_set_order_independent [Examples.tree1; Examples.tree2] 10 10
           {[ [0; 0] ]} {[ [0; 0] ]} {[ [0; 0] ]} [] []).
  - exact example_run_stack.
  - exact example_run_queue.
  - exact (run_queue_run_any 10 _ _ _ example_run_queue).
Defined.


Lemma identity_on_no_implicit_witness :
  implicit_depth 5 Examples.concrete_tree = Returns 0 []
  /\ materialization_paths_of 5 [Examples.concrete_tree; Examples.concrete_tree]
     = Returns ∅ []
  /\ get_common_prefix_transforms Examples.materialize_now 5
       [Examples.concrete_tree; Examples.concrete_tree]
     = Returns [fun x => Returns x []; fun x => Returns x []] [].
Proof.
  apply (identity_on_no_implicit Examples.materialize_now 5 Examples.concrete_tree).
  - reflexivity.
  - simpl. lia.
Defined.

Lemma reconciliation_never_materializes_witness :
  ([] : list call) = []
  /\ Forall (fun c : call => c.1 ∈ ({[ [0; 0] ]} : gset path))
            [([0; 0], Implicit Examples.f32 1 [Array Examples.f32 0])].
Proof.
  apply (reconciliation_never_materializes Examples.materialize_now 10
           [Examples.tree1; Examples.tree2]
           (map (fun t => _get_pruning_transform Examples.materialize_now 10 t
                            {[ [0; 0] ]})
                [Examples.tree1; Examples.tree2])
           [] [] _ {[ [0; 0] ]} 0
           (_get_pruning_transform Examples.materialize_now 10 Examples.tree1
              {[ [0; 0] ]})
           Examples.tree1 Examples.tree1_pruned).
  - exact example_transforms.
  - exact example_materialization_paths.
  - reflexivity.
  - exact example_transform.
Defined.

(** * Further properties of the module *)

(** ** [vmap_all_but_one] *)

(** The body of the [for i in reversed(range(n_dim))] loop of lines 23-28. *)
Lemma vmap_loop_snoc (axis : Z) (n : nat) (state : traced * Z * Z) :
  fold_left
    (fun (state : traced * Z * Z) i =>
       let '(fn, vmap_dim, out_dim) := state in
       if bool_decide (Z.of_nat i = axis) then (fn, 0%Z, 0%Z)
       else (jax_vmap fn vmap_dim out_dim, vmap_dim, out_dim))
    (rev (seq 0 (S n))) state
  = fold_left
      (fun (state : traced * Z * Z) i =>
         let '(fn, vmap_dim, out_dim) := state in
         if bool_decide (Z.of_nat i = axis) then (fn, 0%Z, 0%Z)
         else (jax_vmap fn vmap_dim out_dim, vmap_dim, out_dim))
      (rev (seq 0 n))
      (let '(fn, vmap_dim, out_dim) := state in
       if bool_decide (Z.of_nat n = axis) then (fn, 0%Z, 0%Z)
       else (jax_vmap fn vmap_dim out_dim, vmap_dim, out_dim)).
Proof. rewrite seq_S, rev_app_distr. reflexivity. Qed.

Lemma vmap_loop_no_axis (axis : Z) (n : nat) :
  forall (g : traced) (vd od : Z),
  (forall i, i < n -> Z.of_nat i <> axis) ->
  fold_left
    (fun (state : traced * Z * Z) i =>
       let '(fn, vmap_dim, out_dim) := state in
       if bool_decide (Z.of_nat i = axis) then (fn, 0%Z, 0%Z)
       else (jax_vmap fn vmap_dim out_dim, vmap_dim, out_dim))
    (rev (seq 0 n)) (g, vd, od)
  = (Nat.iter n (fun h => jax_vmap h vd od) g, vd, od).
Proof.
  induction n as [|n IH]; intros g vd od Hne; [reflexivity|].
  rewrite vmap_loop_snoc. cbv beta iota.
  rewrite bool_decide_eq_false_2 by (apply Hne; lia).
  rewrite IH by (intros i Hi; apply Hne; lia).
  by rewrite Nat.iter_succ_r.
Qed.

Lemma vmap_loop_axis (a n : nat) :
  forall (g : traced) (vd od : Z),
  a < n ->
  fold_left
    (fun (state : traced * Z * Z) i =>
       let '(fn, vmap_dim, out_dim) := state in
       if bool_decide (Z.of_nat i = Z.of_nat a) then (fn, 0%Z, 0%Z)
       else (jax_vmap fn vmap_dim out_dim, vmap_dim, out_dim))
    (rev (seq 0 n)) (g, vd, od)
  = (Nat.iter a (fun h => jax_vmap h 0 0)
       (Nat.iter (n - 1 - a) (fun h => jax_vmap h vd od) g), 0%Z, 0%Z).
Proof.
  induction n as [|n IH]; intros g vd od Ha; [lia|].
  rewrite vmap_loop_snoc. cbv beta iota.
  destruct (decide (n = a)) as [->|Hna].
  - rewrite bool_decide_eq_true_2 by reflexivity.
    rewrite vmap_loop_no_axis by (intros i Hi; lia).
    replace (S a - 1 - a) with 0 by lia. reflexivity.
  - rewrite bool_decide_eq_false_2 by lia.
    rewrite IH by lia.
    replace (S n - 1 - a) with (S (n - 1 - a)) by lia.
    by rewrite Nat.iter_succ_r.
Qed.

(** [jax.vmap] called on arguments of one shape. *)
Lemma jax_vmap_replicate (g : traced) (a : nat) (o : Z) (m : nat)
    (s : array_shape) (d : nat) :
  s !! a = Some d ->
  jax_vmap g (Z.of_nat a) o (replicate (S m) s)
  = match g (replicate (S m) (delete a s)) with
    | Returns r calls =>
        match canonicalize_axis o (S (length r)) with
        | Some p => Returns (take p r ++ d :: drop p r) calls
        | None => Raises JaxValueError
        end
    | Raises e => Raises e
    | OutOfFuel => OutOfFuel
    end.
Proof.
  intros Hd.
  assert (Hax : mapped_axis (Z.of_nat a) s = Some (d, delete a s)).
  { unfold mapped_axis, canonicalize_axis.
    rewrite bool_decide_eq_true_2 by (apply lookup_lt_Some in Hd; lia).
    cbn. rewrite Nat2Z.id, Hd. reflexivity. }
  assert (Hm : forall k, mapM (mapped_axis (Z.of_nat a)) (replicate k s)
                         = Some (replicate k (d, delete a s))).
  { induction k as [|k IH]; [reflexivity|]. cbn. rewrite Hax. cbn.
    fold (mapM (mapped_axis (Z.of_nat a)) (replicate k s)). by rewrite IH. }
  unfold jax_vmap. rewrite Hm. cbn [replicate].
  assert (Hall : forallb (fun '(d', _) => bool_decide (d' = d))
                         (replicate m (d, delete a s)) = true).
  { induction m as [|m' IHm]; [reflexivity|]. cbn [replicate forallb].
    by rewrite bool_decide_eq_true_2, IHm. }
  rewrite Hall.
  change (map snd (replicate m (d, delete a s)))
    with (snd <$> replicate m (d, delete a s)).
  rewrite fmap_replicate. reflexivity.
Qed.

Lemma canonicalize_axis_in_range (o : Z) (n : nat) :
  (0 <= o < Z.of_nat n)%Z -> canonicalize_axis o n = Some (Z.to_nat o).
Proof. intros H. unfold canonicalize_axis. by rewrite bool_decide_eq_true_2. Qed.

(** The wrappers of the axes before [axis]. *)
Lemma iter_vmap_front (g : traced) (m : nat) (pre s' : array_shape) :
  Nat.iter (length pre) (fun h => jax_vmap h 0 0) g (replicate (S m) (pre ++ s'))
  = match g (replicate (S m) s') with
    | Returns r calls => Returns (pre ++ r) calls
    | Raises e => Raises e
    | OutOfFuel => OutOfFuel
    end.
Proof.
  induction pre as [|d pre IH].
  - cbn. destruct (g _); reflexivity.
  - cbn [length Nat.iter nat_rect app].
    change (jax_vmap ?h 0 0) with (jax_vmap h (Z.of_nat 0) 0).
    rewrite (jax_vmap_replicate _ 0 0 m (d :: pre ++ s') d eq_refl).
    cbn [delete list_delete].
    change (nat_rect _ ?x (fun _ => ?f) ?n) with (Nat.iter n f x).
    rewrite IH. destruct (g _) as [r calls| |]; reflexivity.
Qed.

(** The wrappers of the axes after [axis]. *)
Lemma iter_vmap_back (g : traced) (m : nat) (out : Z) (d : nat)
    (r : array_shape) (calls : list call) (tail : array_shape) :
  g (replicate (S m) [d]) = Returns r calls ->
  (0 <= out <= Z.of_nat (length r))%Z ->
  Nat.iter (length tail) (fun h => jax_vmap h 1 out) g
    (replicate (S m) (d :: tail))
  = Returns (take (Z.to_nat out) r ++ tail ++ drop (Z.to_nat out) r) calls.
Proof.
  intros Hg Hout. induction tail as [|t1 tail IH].
  - cbn [length Nat.iter nat_rect app]. by rewrite take_drop.
  - cbn [length Nat.iter nat_rect].
    change (jax_vmap ?h 1 out) with (jax_vmap h (Z.of_nat 1) out).
    rewrite (jax_vmap_replicate _ 1 out m (d :: t1 :: tail) t1 eq_refl).
    cbn [delete list_delete].
    change (nat_rect _ ?x (fun _ => ?f) ?n) with (Nat.iter n f x).
    rewrite IH.
    rewrite canonicalize_axis_in_range.
    2:{ rewrite !length_app, length_take, length_drop. lia. }
    f_equal.
    rewrite take_app_le by (rewrite length_take; lia).
    rewrite take_take, Nat.min_id.
    rewrite drop_app_le by (rewrite length_take; lia).
    rewrite drop_ge by (rewrite length_take; lia).
    reflexivity.
Qed.

Lemma vmap_in_range (f : traced) (axis out_ndim : Z) (s : array_shape)
    (m d : nat) (r : array_shape) (calls : list call) :
  (0 <= axis)%Z ->
  s !! Z.to_nat axis = Some d ->
  f (replicate (S m) [d]) = Returns r calls ->
  (0 <= out_ndim <= Z.of_nat (length r))%Z ->
  vmap_all_but_one f axis out_ndim s (replicate m s)
  = Returns (take (Z.to_nat axis) s
             ++ take (Z.to_nat out_ndim) r
             ++ drop (S (Z.to_nat axis)) s
             ++ drop (Z.to_nat out_ndim) r) calls.
Proof.
  intros Hax Hd Hf Hout. pose proof (lookup_lt_Some _ _ _ Hd) as Hlt.
  unfold vmap_all_but_one. rewrite bool_decide_eq_false_2 by lia.
  destruct (Z_of_nat_complete axis) as [a ->]; [lia|]. rewrite Nat2Z.id in *.
  rewrite vmap_loop_axis by lia.
  change (s :: replicate m s) with (replicate (S m) s).
  assert (Hpre : length (take a s) = a) by (rewrite length_take; lia).
  assert (Htail : length (drop (S a) s) = length s - 1 - a)
    by (rewrite length_drop; lia).
  pose proof (iter_vmap_back f m out_ndim d r calls (drop (S a) s) Hf Hout)
    as Hback.
  rewrite Htail in Hback.
  pose proof (iter_vmap_front
                (Nat.iter (length s - 1 - a) (fun h => jax_vmap h 1 out_ndim) f)
                m (take a s) (d :: drop (S a) s)) as Hfront.
  rewrite Hpre, (take_drop_middle s a d Hd), Hback in Hfront.
  exact Hfront.
Qed.

(** X1. For an axis within the dimensions of the arguments, all of one
    shape, [vmap_all_but_one] applies [f] to the one-dimensional slices
    along [axis]: [f] runs on arguments of shape [(d,)], [d] the size of
    that axis, and when its result has a place for [out_ndim] the call
    returns an array with the axes before [axis] in front, then the first
    [out_ndim] axes of the result of [f], the axes after [axis], and the
    remaining axes of the result of [f]. *)
Theorem vmap_all_but_one_in_range (f : traced) (axis out_ndim : Z)
    (s : array_shape) (m d : nat) (r : array_shape) (calls : list call) :
  (0 <= axis)%Z ->
  s !! Z.to_nat axis = Some d ->
  f (replicate (S m) [d]) = Returns r calls ->
  (0 <= out_ndim <= Z.of_nat (length r))%Z ->
  vmap_all_but_one f axis out_ndim s (replicate m s)
  = Returns (take (Z.to_nat axis) s
             ++ take (Z.to_nat out_ndim) r
             ++ drop (S (Z.to_nat axis)) s
             ++ drop (Z.to_nat out_ndim) r) calls.
Proof. apply vmap_in_range. Qed.

Lemma vmap_all_but_one_in_range_witness :
  vmap_all_but_one (fun args => Returns [7] []) 1 1 [2; 3; 4] [[2; 3; 4]]
  = Returns [2; 7; 4] [].
Proof.
  apply (vmap_all_but_one_in_range (fun args => Returns [7] []) 1 1 [2; 3; 4]
           1 3 [7] []).
  - lia.
  - reflexivity.
  - reflexivity.
  - simpl. lia.
Defined.

(** Wrappers with [in_axes = 1] only, as many as the first argument has
    dimensions: the innermost one is asked for axis 1 of a slice of one
    dimension, if no wrapper around it has failed before. *)
Lemma iter_vmap_rank (g : traced) (o : Z) (k : nat) :
  forall (arg0 : array_shape) (rest : list array_shape),
  length arg0 = S k ->
  Nat.iter (S k) (fun h => jax_vmap h 1 o) g (arg0 :: rest) = Raises JaxValueError.
Proof.
  induction k as [|k IH]; intros arg0 rest Hlen.
  - destruct arg0 as [|d [|d' arg0]]; try discriminate. reflexivity.
  - destruct arg0 as [|d [|d' arg0]]; try discriminate.
    change (Nat.iter (S (S k)) ?F g) with (F (Nat.iter (S k) F g)).
    cbv beta. unfold jax_vmap at 1. cbn [mapM].
    assert (Hax : mapped_axis 1 (d :: d' :: arg0) = Some (d', d :: arg0)).
    { unfold mapped_axis, canonicalize_axis.
      rewrite bool_decide_eq_true_2 by (cbn [length]; lia). reflexivity. }
    rewrite Hax. cbn [mbind option_bind mret option_ret].
    destruct (mapM (mapped_axis 1) rest) as [others|]; [|reflexivity].
    cbn [mbind option_bind mret option_ret].
    destruct (forallb _ others); [|reflexivity].
    rewrite IH; [reflexivity|]. cbn [length] in *. lia.
Qed.

Lemma vmap_negative (f : traced) (axis out_ndim : Z) (arg0 : array_shape)
    (rest : list array_shape) :
  (axis < 0)%Z -> arg0 <> [] ->
  vmap_all_but_one f axis out_ndim arg0 rest = Raises JaxValueError.
Proof.
  intros Hax Hne. unfold vmap_all_but_one.
  rewrite bool_decide_eq_false_2 by lia.
  rewrite vmap_loop_no_axis by (intros i Hi; lia).
  destruct arg0 as [|d arg0]; [contradiction|].
  by apply iter_vmap_rank.
Qed.

(** X2. For a negative axis and a first argument of at least one dimension
    the call never reaches [f]: no axis is left out, [f] is wrapped with
    [in_axes = 1] once for every axis, and whatever [f] and the other
    arguments are, [jax.vmap] raises its [ValueError] at line 29, not the
    one of line 19. *)
Theorem vmap_all_but_one_negative (f : traced) (axis out_ndim : Z)
    (arg0 : array_shape) (rest : list array_shape) :
  (axis < 0)%Z -> arg0 <> [] ->
  vmap_all_but_one f axis out_ndim arg0 rest = Raises JaxValueError.
Proof. apply vmap_negative. Qed.

Lemma vmap_all_but_one_negative_witness :
  vmap_all_but_one (fun args => Returns [] []) (-3) 0 [2; 3] []
  = Raises JaxValueError.
Proof.
  apply (vmap_all_but_one_negative (fun args => Returns [] []) (-3) 0 [2; 3] []).
  - lia.
  - discriminate.
Defined.

(** X3. For one argument of at least one dimension and [out_ndim >= 0], the
    call raises whatever [f] is exactly when the axis is not one of the
    axes [0 .. n_dim - 1] of the argument. *)
Theorem vmap_all_but_one_raises_iff (axis out_ndim : Z) (s : array_shape) :
  s <> [] -> (0 <= out_ndim)%Z ->
  (forall f, exists e, vmap_all_but_one f axis out_ndim s [] = Raises e)
  <-> (axis < 0 \/ Z.of_nat (length s) <= axis)%Z.
Proof.
  intros Hne Hout. split.
  - intros Hall.
    destruct (decide (axis < 0 \/ Z.of_nat (length s) <= axis)%Z) as [H|H];
      [exact H|]. exfalso.
    destruct (lookup_lt_is_Some_2 s (Z.to_nat axis)) as [d Hd]; [lia|].
    destruct (Hall (fun _ => Returns (replicate (Z.to_nat out_ndim) 0) []))
      as [e He].
    rewrite (vmap_in_range _ axis out_ndim s 0 d
               (replicate (Z.to_nat out_ndim) 0) []) in He;
      [discriminate | lia | exact Hd | reflexivity|].
    rewrite length_replicate. lia.
  - intros [Hneg|Hge] f.
    + exists JaxValueError. by apply vmap_negative.
    + eexists. by apply vmap_all_but_one_axis_too_large.
Qed.

Lemma vmap_all_but_one_raises_iff_witness :
  (forall f, exists e, vmap_all_but_one f (-1) 0 [2; 3] [] = Raises e)
  <-> (-1 < 0 \/ Z.of_nat (length [2; 3]) <= -1)%Z.
Proof.
  apply (vmap_all_but_one_raises_iff (-1) 0 [2; 3]).
  - discriminate.
  - lia.
Defined.
(** ** The tree walker *)

Lemma tree_util_leaves_with_implicit (t : tree) :
  tree_util_tree_leaves leaf_predicate t = tree_leaves_with_implicit t.
Proof.
  induction t as [a d|a aux cs IH|k cs IH] using tree_nested_ind; try reflexivity.
  cbn [tree_util_tree_leaves tree_leaves_with_implicit leaf_predicate].
  induction IH as [|c cs Hc _ IHcs]; [reflexivity|].
  cbn [flat_map]. by rewrite Hc, IHcs.
Qed.

Lemma tree_util_structure_with_implicit (t : tree) :
  tree_util_tree_structure leaf_predicate t = tree_structure_with_implicit t.
Proof.
  induction t as [a d|a aux cs IH|k cs IH] using tree_nested_ind; try reflexivity.
  cbn [tree_util_tree_structure tree_structure_with_implicit leaf_predicate].
  f_equal. induction IH as [|c cs Hc _ IHcs]; [reflexivity|].
  cbn [map]. by rewrite Hc, IHcs.
Qed.

(** X4. The functions built at lines 46-49 by [combine_leaf_predicate] from
    the walker of [tree_util], called without [new_is_leaf], stop at every
    ImplicitArray and open every container: they give the leaves and the
    structure with ImplicitArrays as leaves. *)
Theorem combine_leaf_predicate_with_implicit (t : tree) :
  combine_leaf_predicate tree_util_tree_leaves leaf_predicate None t
  = tree_leaves_with_implicit t
  /\ combine_leaf_predicate tree_util_tree_structure leaf_predicate None t
     = tree_structure_with_implicit t.
Proof.
  split; [apply tree_util_leaves_with_implicit
         | apply tree_util_structure_with_implicit].
Qed.

(** X5. A [new_is_leaf] given to [tree_leaves_with_implicit] can only stop
    the walk earlier: whatever it is, no ImplicitArray is opened, and
    flattening each leaf returned with ImplicitArrays as leaves gives the
    leaves of the call without [new_is_leaf]. *)
Theorem combine_leaf_predicate_coarsens (new_is_leaf : tree -> bool) (t : tree) :
  flat_map tree_leaves_with_implicit
    (combine_leaf_predicate tree_util_tree_leaves leaf_predicate (Some new_is_leaf) t)
  = tree_leaves_with_implicit t.
Proof.
  unfold combine_leaf_predicate.
  induction t as [a d|a aux cs IH|k cs IH] using tree_nested_ind.
  - cbn. destruct (new_is_leaf _); reflexivity.
  - cbn. reflexivity.
  - cbn [tree_util_tree_leaves leaf_predicate orb].
    destruct (new_is_leaf (Container k cs)).
    + cbn [flat_map]. by rewrite app_nil_r.
    + cbn [tree_leaves_with_implicit].
      induction IH as [|c cs Hc _ IHcs]; [reflexivity|].
      cbn [flat_map]. rewrite flat_map_app, Hc, IHcs. reflexivity.
Qed.

Lemma list_sum_elem_le (l : list nat) (x : nat) : x ∈ l -> x <= list_sum l.
Proof.
  induction l as [|y l IH]; intros H; [inversion H|].
  apply elem_of_cons in H as [->|H]; simpl; [lia|]. specialize (IH H). lia.
Qed.

Lemma tree_util_leaves_below (node : tree) (c : tree) :
  tree_size c < tree_size node ->
  tree_util_tree_leaves (is_leaf_below_node node) c = tree_leaves_with_implicit c.
Proof.
  induction c as [a d|a aux cs IH|k cs IH] using tree_nested_ind; intros Hsize.
  - reflexivity.
  - cbn [tree_util_tree_leaves]. unfold is_leaf_below_node at 1.
    cbn [leaf_predicate andb].
    rewrite bool_decide_eq_true_2; [reflexivity|].
    intros <-. lia.
  - cbn [tree_util_tree_leaves tree_leaves_with_implicit].
    unfold is_leaf_below_node at 1. cbn [leaf_predicate andb].
    assert (Hcs : forall c, c ∈ cs -> tree_size c < tree_size node).
    { intros c Hc. cbn [tree_size] in Hsize.
      assert (tree_size c <= list_sum (map tree_size cs)); [|lia].
      apply list_sum_elem_le. apply list_elem_of_fmap. eauto. }
    clear Hsize. induction IH as [|c cs Hc _ IHcs]; [reflexivity|].
    cbn [flat_map]. rewrite Hc by (apply Hcs; left).
    rewrite IHcs; [reflexivity|]. intros c' Hc'. apply Hcs. by right.
Qed.

(** X6. The leaves of [flatten_one_implicit_layer] as the source computes
    them, walking each ImplicitArray leaf with [is_leaf_below_node], are its
    expansion by one layer: the ImplicitArray itself is opened, since it is
    the node excluded by [x is not node], and every ImplicitArray below it
    is kept as a leaf. *)
Theorem chained_leaves_one_layer (t : tree) :
  chained_leaves t = (flatten_one_implicit_layer t).1.
Proof.
  unfold chained_leaves, combine_leaf_predicate.
  rewrite tree_util_leaves_with_implicit. cbn [flatten_one_implicit_layer fst].
  induction t as [a d|a aux cs IH|k cs IH] using tree_nested_ind.
  - reflexivity.
  - cbn [tree_leaves_with_implicit flat_map leaf_predicate one_layer_leaves].
    rewrite app_nil_r. cbn [tree_util_tree_leaves].
    unfold is_leaf_below_node at 1. cbn [leaf_predicate andb].
    rewrite bool_decide_eq_false_2 by (intros H; by apply H).
    assert (Hcs : forall c, c ∈ cs -> tree_size c < tree_size (Implicit a aux cs)).
    { intros c Hc. cbn [tree_size].
      assert (tree_size c <= list_sum (map tree_size cs)); [|lia].
      apply list_sum_elem_le. apply list_elem_of_fmap. eauto. }
    clear IH. generalize dependent (Implicit a aux cs). intros node Hcs.
    induction cs as [|c cs IHcs]; [reflexivity|].
    cbn [flat_map]. rewrite (tree_util_leaves_below node c) by (apply Hcs; left).
    f_equal. apply IHcs. intros c' Hc'. apply Hcs. by right.
  - cbn [tree_leaves_with_implicit one_layer_leaves].
    induction IH as [|c cs Hc _ IHcs]; [reflexivity|].
    cbn [flat_map]. rewrite flat_map_app, Hc, IHcs. reflexivity.
Qed.

(** ** Round trips of flattening *)

Lemma unflatten_one_layer (t : tree) :
  forall rest,
  unflatten_from (one_layer_structure t) (one_layer_leaves t ++ rest) = Some (t, rest).
Proof.
  induction t as [a d|a aux cs IH|k cs IH] using tree_nested_ind; intros rest.
  - reflexivity.
  - cbn [one_layer_structure one_layer_leaves].
    rewrite unflatten_from_node, unflatten_children_flatten. reflexivity.
  - cbn [one_layer_structure one_layer_leaves]. rewrite unflatten_from_node.
    assert (Hcs : forall rest',
      unflatten_children (map one_layer_structure cs)
                         (flat_map one_layer_leaves cs ++ rest')
      = Some (cs, rest')).
    { induction IH as [|c cs Hc _ IHcs]; intros rest'; [reflexivity|].
      cbn [map flat_map unflatten_children].
      rewrite <- app_assoc, Hc, IHcs. reflexivity. }
    rewrite Hcs. reflexivity.
Qed.

Lemma flatten_one_implicit_layer_round_trip_aux (t : tree) :
  tree_unflatten (flatten_one_implicit_layer t).2 (flatten_one_implicit_layer t).1
  = Returns t [].
Proof.
  unfold tree_unflatten, flatten_one_implicit_layer. cbn [fst snd].
  rewrite <- (app_nil_r (one_layer_leaves t)), unflatten_one_layer.
  reflexivity.
Qed.

Lemma tree_flatten_with_implicit_round_trip_aux (t : tree) :
  tree_unflatten (tree_structure_with_implicit t) (tree_leaves_with_implicit t)
  = Returns t [].
Proof.
  unfold tree_unflatten.
  rewrite <- (app_nil_r (tree_leaves_with_implicit t)), unflatten_flatten.
  reflexivity.
Qed.

(** X7. Round trip of the flattening with ImplicitArrays as leaves:
    [tree_unflatten] applied to the structure and the leaves that
    [tree_flatten_with_implicit] returns gives the tree back. *)
Theorem tree_flatten_with_implicit_round_trip (t : tree) :
  tree_unflatten (tree_flatten_with_implicit t).2 (tree_flatten_with_implicit t).1
  = Returns t [].
Proof.
  unfold tree_unflatten, tree_flatten_with_implicit. cbn [fst snd].
  rewrite <- (app_nil_r (tree_leaves_with_implicit t)), unflatten_flatten.
  reflexivity.
Qed.

(** X8. Round trip of the expansion by one layer: [tree_unflatten] applied
    to the structure and the leaves that [flatten_one_implicit_layer]
    returns gives the tree back, for an ImplicitArray and for any tree. *)
Theorem flatten_one_implicit_layer_round_trip (t : tree) :
  tree_unflatten (flatten_one_implicit_layer t).2 (flatten_one_implicit_layer t).1
  = Returns t [].
Proof.
  unfold tree_unflatten, flatten_one_implicit_layer. cbn [fst snd].
  rewrite <- (app_nil_r (one_layer_leaves t)), unflatten_one_layer.
  reflexivity.
Qed.

Lemma one_layer_no_implicit (t : tree) :
  no_implicit t = true ->
  one_layer_leaves t = tree_leaves_with_implicit t
  /\ one_layer_structure t = tree_structure_with_implicit t.
Proof.
  induction t as [a d|a aux cs IH|k cs IH] using tree_nested_ind; intros H.
  - done.
  - discriminate.
  - cbn [no_implicit] in H.
    cbn [one_layer_leaves one_layer_structure tree_leaves_with_implicit
         tree_structure_with_implicit].
    assert (Hcs : flat_map one_layer_leaves cs = flat_map tree_leaves_with_implicit cs
                  /\ map one_layer_structure cs = map tree_structure_with_implicit cs).
    { induction IH as [|c cs Hc _ IHcs]; [done|].
      cbn [forallb] in H. apply andb_true_iff in H as [H1 H2].
      destruct (Hc H1) as [Hl Hs]. destruct (IHcs H2) as [Hls Hss].
      cbn [flat_map map]. by rewrite Hl, Hs, Hls, Hss. }
    destruct Hcs as [-> ->]. done.
Qed.

(** X9. On a tree without ImplicitArrays there is no layer to expand:
    [flatten_one_implicit_layer] returns what [tree_flatten_with_implicit]
    returns. *)
Theorem flatten_one_implicit_layer_no_implicit (t : tree) :
  no_implicit t = true ->
  flatten_one_implicit_layer t = tree_flatten_with_implicit t.
Proof.
  intros H. unfold flatten_one_implicit_layer, tree_flatten_with_implicit.
  destruct (one_layer_no_implicit t H) as [-> ->]. reflexivity.
Qed.

Lemma flatten_one_implicit_layer_no_implicit_witness :
  flatten_one_implicit_layer Examples.concrete_tree
  = tree_flatten_with_implicit Examples.concrete_tree.
Proof.
  apply (flatten_one_implicit_layer_no_implicit Examples.concrete_tree).
  reflexivity.
Defined.

(** ** The depth computed by [implicit_depth] *)

Lemma nesting_leaves (t : tree) :
  list_max (map implicit_nesting (tree_leaves_with_implicit t)) = implicit_nesting t.
Proof.
  induction t as [a d|a aux cs IH|k cs IH] using tree_nested_ind.
  - reflexivity.
  - cbn [tree_leaves_with_implicit map list_max fold_right]. lia.
  - cbn [tree_leaves_with_implicit implicit_nesting].
    induction IH as [|c cs Hc _ IHcs]; [reflexivity|].
    cbn [flat_map map]. rewrite map_app, list_max_app, Hc, IHcs. reflexivity.
Qed.

Lemma nesting_children_leaves (cs : list tree) :
  list_max (map implicit_nesting (flat_map tree_leaves_with_implicit cs))
  = list_max (map implicit_nesting cs).
Proof.
  induction cs as [|c cs IH]; [reflexivity|].
  cbn [flat_map map]. rewrite map_app, list_max_app, nesting_leaves, IH.
  reflexivity.
Qed.

Lemma next_leaves_concrete (leaves : list tree) :
  existsb leaf_predicate leaves = false ->
  flat_map (fun leaf => if leaf_predicate leaf
                        then (flatten_one_implicit_layer leaf).1 else [])
           leaves = [].
Proof.
  induction leaves as [|x l IH]; [reflexivity|]. cbn [existsb flat_map].
  intros H. apply orb_false_iff in H as [-> H]. by rewrite IH.
Qed.

Lemma nesting_round (leaves : list tree) :
  Forall (fun x => is_leaf_node x = true) leaves ->
  list_max (map implicit_nesting leaves)
  = if existsb leaf_predicate leaves
    then S (list_max (map implicit_nesting
           (flat_map (fun leaf => if leaf_predicate leaf
                                  then (flatten_one_implicit_layer leaf).1 else [])
                     leaves)))
    else 0.
Proof.
  induction 1 as [|x l Hx _ IH]; [reflexivity|].
  destruct x as [a d|a aux cs|k cs]; [| |discriminate].
  - cbn [existsb flat_map leaf_predicate orb map implicit_nesting app].
    change (list_max (0 :: ?l)) with (Nat.max 0 (list_max l)). exact IH.
  - cbn [existsb flat_map leaf_predicate orb map implicit_nesting].
    change ((flatten_one_implicit_layer (Implicit a aux cs)).1)
      with (flat_map tree_leaves_with_implicit cs).
    change (list_max (?x :: ?l)) with (Nat.max x (list_max l)).
    rewrite map_app, list_max_app, nesting_children_leaves, IH.
    destruct (existsb leaf_predicate l) eqn:E.
    + lia.
    + rewrite (next_leaves_concrete l E). cbn. lia.
Qed.

Lemma one_round_leaf_nodes (leaves : list tree) :
  Forall (fun x => is_leaf_node x = true)
         (flat_map (fun leaf => if leaf_predicate leaf
                                then (flatten_one_implicit_layer leaf).1 else [])
                   leaves).
Proof.
  induction leaves as [|x l IH]; [constructor|]. cbn [flat_map].
  apply Forall_app. split; [|exact IH].
  destruct x as [a d|a aux cs|k cs]; cbn; try constructor.
  apply children_leaves_are_leaf_nodes.
Qed.

Lemma implicit_depth_loop_nesting (fuel : nat) :
  forall (leaves : list tree) (depth : nat),
  Forall (fun x => is_leaf_node x = true) leaves ->
  list_max (map implicit_nesting leaves) <= fuel ->
  implicit_depth_loop fuel leaves depth
  = Returns (depth + list_max (map implicit_nesting leaves)) [].
Proof.
  induction fuel as [|fuel IH]; intros leaves depth Hl Hfuel;
    rewrite (nesting_round leaves Hl) in Hfuel |- *;
    cbn [implicit_depth_loop];
    destruct (existsb leaf_predicate leaves); cbn [negb];
    try (by rewrite Nat.add_0_r); [lia|].
  rewrite IH; [f_equal; lia | apply one_round_leaf_nodes | lia].
Qed.

(** X10. [implicit_depth] terminates on every tree and returns the greatest
    number of ImplicitArrays nested on a branch of it; the [while] loop
    makes that many rounds. *)
Theorem implicit_depth_is_nesting (fuel : nat) (t : tree) :
  implicit_nesting t <= fuel ->
  implicit_depth fuel t = Returns (implicit_nesting t) [].
Proof.
  intros Hfuel. unfold implicit_depth.
  rewrite implicit_depth_loop_nesting;
    [by rewrite nesting_leaves | apply leaves_are_leaf_nodes
    | by rewrite nesting_leaves].
Qed.

Lemma implicit_depth_is_nesting_witness :
  implicit_depth 5 Examples.tree1 = Returns 2 [].
Proof.
  apply (implicit_depth_is_nesting 5 Examples.tree1). simpl. lia.
Defined.

Lemma nesting_nested (d : nat) (a : aval) (aux : nat) (t : tree) :
  implicit_nesting (nested d a aux t) = d + implicit_nesting t.
Proof.
  induction d as [|d IH]; [reflexivity|].
  cbn [nested implicit_nesting map list_max fold_right]. rewrite IH. lia.
Qed.

(** X11. Depth additivity: [d] ImplicitArrays nested around a tree add [d]
    to its depth; around a concrete array [implicit_depth] returns [d]. *)
Theorem implicit_depth_nested (fuel d : nat) (a : aval) (aux : nat) (t : tree) :
  d + implicit_nesting t <= fuel ->
  implicit_depth fuel (nested d a aux t) = Returns (d + implicit_nesting t) []
  /\ forall a' data, implicit_depth (d + fuel) (nested d a aux (Array a' data))
                     = Returns d [].
Proof.
  intros Hfuel. unfold implicit_depth. split.
  - rewrite implicit_depth_loop_nesting;
      rewrite ?nesting_leaves, ?nesting_nested;
      [reflexivity | apply leaves_are_leaf_nodes | exact Hfuel].
  - intros a' data.
    rewrite implicit_depth_loop_nesting;
      rewrite ?nesting_leaves, ?nesting_nested; cbn [implicit_nesting];
      [f_equal; lia | apply leaves_are_leaf_nodes | lia].
Qed.

Lemma implicit_depth_nested_witness :
  implicit_depth 4 (nested 3 Examples.f32 7 Examples.inner) = Returns (3 + 1) []
  /\ forall a' data, implicit_depth (3 + 4) (nested 3 Examples.f32 7 (Array a' data))
                     = Returns 3 [].
Proof.
  apply (implicit_depth_nested 4 3 Examples.f32 7 Examples.inner). simpl. lia.
Defined.

(** ** The precondition checks of [get_common_prefix_transforms] *)

Lemma num_leaves_structure (t : tree) :
  length (tree_leaves_with_implicit t) = num_leaves (tree_structure_with_implicit t).
Proof.
  induction t as [a d|a aux cs IH|k cs IH] using tree_nested_ind; try reflexivity.
  cbn [tree_leaves_with_implicit tree_structure_with_implicit num_leaves].
  induction IH as [|c cs Hc _ IHcs]; [reflexivity|].
  cbn [flat_map map]. rewrite length_app, Hc, IHcs. reflexivity.
Qed.

Lemma check_avals_raises (i : nat) (leaves : list tree) :
  forall (expected : list aval) (k : nat) (leaf : tree) (e : aval),
  leaves !! k = Some leaf ->
  expected !! k = Some e ->
  get_aval leaf <> e ->
  take k (map get_aval leaves) = take k expected ->
  check_avals i leaves expected = Raises (AvalValueError e i (get_aval leaf)).
Proof.
  induction leaves as [|x leaves IH]; intros expected k leaf e Hl He Hne Hpre;
    [discriminate|].
  destruct expected as [|e0 expected]; [discriminate|].
  destruct k as [|k]; cbn [check_avals].
  - injection Hl as ->. injection He as ->.
    destruct (aval_matches (get_aval leaf) e) eqn:Em; [|reflexivity].
    apply aval_matches_eq in Em. contradiction.
  - cbn in Hl, He, Hpre. injection Hpre as Hx Hpre.
    rewrite Hx, aval_matches_refl. by eapply IH.
Qed.

Lemma check_avals_returns (i : nat) (leaves : list tree) :
  forall (expected : list aval) (calls : list call),
  check_avals i leaves expected = Returns tt calls ->
  forall k leaf e, leaves !! k = Some leaf -> expected !! k = Some e ->
                   get_aval leaf = e.
Proof.
  induction leaves as [|x leaves IH]; intros expected calls H k leaf e Hl He;
    [discriminate|].
  destruct expected as [|e0 expected]; [discriminate|].
  cbn [check_avals] in H.
  destruct (aval_matches (get_aval x) e0) eqn:Em; [|discriminate].
  apply aval_matches_eq in Em. destruct k as [|k].
  - injection Hl as <-. injection He as <-. exact Em.
  - by eapply IH.
Qed.

Lemma check_trees_aval_mismatch (rest : list tree) :
  forall (i i0 k : nat) (t t0 leaf leaf0 : tree),
  rest !! i = Some t ->
  Forall (fun t' =>
            tree_structure_with_implicit t' = tree_structure_with_implicit t0
            /\ map get_aval (tree_leaves_with_implicit t')
               = map get_aval (tree_leaves_with_implicit t0))
         (take i rest) ->
  tree_structure_with_implicit t = tree_structure_with_implicit t0 ->
  tree_leaves_with_implicit t !! k = Some leaf ->
  tree_leaves_with_implicit t0 !! k = Some leaf0 ->
  get_aval leaf <> get_aval leaf0 ->
  take k (map get_aval (tree_leaves_with_implicit t))
  = take k (map get_aval (tree_leaves_with_implicit t0)) ->
  check_trees i0 (map tree_flatten_with_implicit rest)
    (tree_structure_with_implicit t0)
    (map get_aval (tree_leaves_with_implicit t0))
  = Raises (AvalValueError (get_aval leaf0) (i0 + i) (get_aval leaf)).
Proof.
  induction rest as [|t1 rest IH];
    intros i i0 k t t0 leaf leaf0 Hi Hpre Hs Hl Hl0 Hne Htake; [discriminate|].
  destruct i as [|i]; cbn in Hi.
  - injection Hi as ->. cbn [map tree_flatten_with_implicit check_trees].
    rewrite bool_decide_eq_false_2 by (intros Hc; by apply Hc).
    rewrite (check_avals_raises i0 _ _ k leaf (get_aval leaf0)); try done.
    + by rewrite Nat.add_0_r.
    + by rewrite list_lookup_fmap, Hl0.
  - cbn in Hpre. apply Forall_cons in Hpre as [[Hs1 Ha1] Hpre].
    cbn [map tree_flatten_with_implicit check_trees].
    rewrite bool_decide_eq_false_2 by (intros Hc; by apply Hc).
    rewrite <- Ha1, check_avals_same, Ha1. cbn.
    rewrite (IH i (S i0) k t t0 leaf leaf0); try done.
    f_equal. f_equal. lia.
Qed.

(** X12. The aval fault: when the trees before tree [i] agree with tree 0
    in structure and leaf avals, tree [i] has the structure of tree 0, and
    [k] is the first leaf position at which its aval differs from tree 0's,
    [get_common_prefix_transforms] raises the aval [ValueError], which
    carries the expected aval, the index [i] of the tree and the aval
    found. *)
Theorem aval_mismatch_raises
    (_materialize : aval -> nat -> list tree -> materialized) (fuel : nat)
    (t0 : tree) (rest : list tree) (i k : nat) (t leaf leaf0 : tree) :
  rest !! i = Some t ->
  Forall (fun t' =>
            tree_structure_with_implicit t' = tree_structure_with_implicit t0
            /\ map get_aval (tree_leaves_with_implicit t')
               = map get_aval (tree_leaves_with_implicit t0))
         (take i rest) ->
  tree_structure_with_implicit t = tree_structure_with_implicit t0 ->
  tree_leaves_with_implicit t !! k = Some leaf ->
  tree_leaves_with_implicit t0 !! k = Some leaf0 ->
  get_aval leaf <> get_aval leaf0 ->
  take k (map get_aval (tree_leaves_with_implicit t))
  = take k (map get_aval (tree_leaves_with_implicit t0)) ->
  get_common_prefix_transforms _materialize fuel (t0 :: rest)
  = Raises (AvalValueError (get_aval leaf0) (S i) (get_aval leaf)).
Proof.
  intros Hi Hpre Hs Hl Hl0 Hne Htake. unfold get_common_prefix_transforms.
  rewrite bool_decide_eq_false_2.
  2:{ destruct rest; [discriminate|]. simpl. lia. }
  unfold materialization_paths_of. cbn [map]. cbv beta iota.
  unfold tree_flatten_with_implicit at 1.
  rewrite (check_trees_aval_mismatch rest i 1 k t t0 leaf leaf0); try done.
Qed.

Lemma aval_mismatch_raises_witness :
  get_common_prefix_transforms Examples.materialize_now 5
    [MoreExamples.aval_mismatch_first; MoreExamples.aval_mismatch_second]
  = Raises (AvalValueError Examples.f32 1 Examples.f64).
Proof.
  apply (aval_mismatch_raises Examples.materialize_now 5
           MoreExamples.aval_mismatch_first [MoreExamples.aval_mismatch_second]
           0 1 MoreExamples.aval_mismatch_second
           (Array Examples.f64 1) (Array Examples.f32 1)).
  - reflexivity.
  - constructor.
  - reflexivity.
  - reflexivity.
  - reflexivity.
  - discriminate.
  - reflexivity.
Defined.

Lemma check_trees_returns (rest : list tree) :
  forall (i : nat) (t0 : tree) (calls : list call),
  check_trees i (map tree_flatten_with_implicit rest)
    (tree_structure_with_implicit t0)
    (map get_aval (tree_leaves_with_implicit t0)) = Returns tt calls ->
  agree_with_first (t0 :: rest).
Proof.
  unfold agree_with_first.
  induction rest as [|t rest IH]; intros i t0 calls H; [constructor|].
  cbn [map tree_flatten_with_implicit check_trees] in H.
  destruct (bool_decide _) eqn:Es; [discriminate|].
  apply bool_decide_eq_false in Es. apply dec_stable in Es.
  apply bind_Returns_inv in H as ([] & c1 & c2 & Ha & Hrest & ->).
  constructor; [|by eapply IH]. split; [exact Es|].
  pose proof (check_avals_returns _ _ _ _ Ha) as Hk.
  apply list_eq_same_length with (length (tree_leaves_with_implicit t0)).
  - by rewrite length_map.
  - by rewrite length_map, !num_leaves_structure, Es.
  - intros k x y _ Hx Hy. rewrite list_lookup_fmap in Hx, Hy.
    destruct (tree_leaves_with_implicit t !! k) as [leaf|] eqn:El; [|discriminate].
    injection Hx as <-. apply (Hk k leaf y El). by rewrite list_lookup_fmap.
Qed.

Lemma check_trees_agree (rest : list tree) :
  forall (i : nat) (t0 : tree),
  agree_with_first (t0 :: rest) ->
  check_trees i (map tree_flatten_with_implicit rest)
    (tree_structure_with_implicit t0)
    (map get_aval (tree_leaves_with_implicit t0)) = Returns tt [].
Proof.
  unfold agree_with_first.
  induction rest as [|t rest IH]; intros i t0 H; [reflexivity|].
  apply Forall_cons in H as [[Hs Ha] H].
  cbn [map tree_flatten_with_implicit check_trees].
  rewrite bool_decide_eq_false_2 by (intros Hc; by apply Hc).
  rewrite <- Ha, check_avals_same, Ha. cbn. by rewrite IH.
Qed.

(** X13. No best effort: when [get_common_prefix_transforms] returns for
    two trees or more, every tree has the structure of the first one, with
    ImplicitArrays as leaves, and the same aval at every leaf position. *)
Theorem returns_only_if_trees_agree
    (_materialize : aval -> nat -> list tree -> materialized) (fuel : nat)
    (trees : list tree) (transforms : list (tree -> outcome tree))
    (calls : list call) :
  1 < length trees ->
  get_common_prefix_transforms _materialize fuel trees = Returns transforms calls ->
  agree_with_first trees.
Proof.
  intros Hlen H. unfold get_common_prefix_transforms in H.
  rewrite bool_decide_eq_false_2 in H by lia.
  apply bind_Returns_inv in H as (paths & c1 & c2 & Hp & _ & _).
  unfold materialization_paths_of in Hp.
  destruct trees as [|t0 rest]; [simpl in Hlen; lia|].
  cbn [map] in Hp. unfold tree_flatten_with_implicit at 1 in Hp.
  apply bind_Returns_inv in Hp as ([] & c3 & c4 & Hc & _ & _).
  by eapply check_trees_returns.
Qed.

Lemma returns_only_if_trees_agree_witness :
  agree_with_first [Examples.tree1; Examples.tree2].
Proof.
  apply (returns_only_if_trees_agree Examples.materialize_now 10
           [Examples.tree1; Examples.tree2]
           (map (fun t => _get_pruning_transform Examples.materialize_now 10 t
                            {[ [0; 0] ]})
                [Examples.tree1; Examples.tree2]) []).
  - simpl. lia.
  - exact example_transforms.
Defined.

(** ** Completion of the loop on every input *)

Lemma remove_dups_le_1_all_equal {A} `{EqDecision A} (l : list A) :
  length (remove_dups l) <= 1 -> forall x y, x ∈ l -> y ∈ l -> x = y.
Proof.
  intros Hlen x y Hx Hy.
  apply elem_of_remove_dups in Hx, Hy.
  destruct (remove_dups l) as [|a [|b r]]; simpl in Hlen; try lia.
  - inversion Hx.
  - apply list_elem_of_singleton in Hx, Hy. congruence.
Qed.

Lemma process_entry_expand_inv (p : path) (nodes : list tree) (entries : list entry) :
  process_entry (p, nodes) = Expand entries ->
  entries = imap (fun i g => (p ++ [i], g))
                 (zip_star (map (fun n => (flatten_one_implicit_layer n).1) nodes))
  /\ Forall (fun n => leaf_predicate n = true) nodes
  /\ (forall n n', n ∈ nodes -> n' ∈ nodes ->
        (flatten_one_implicit_layer n).2 = (flatten_one_implicit_layer n').2)
  /\ aval_diff (zip_star (map (fun n => (flatten_one_implicit_layer n).1) nodes))
     = false
  /\ nodes <> [].
Proof.
  unfold process_entry. intros H.
  destruct (existsb leaf_predicate nodes) eqn:Eany; cbn [negb] in H; [|discriminate].
  destruct (bool_decide _) eqn:Edup; [discriminate|].
  destruct (aval_diff _) eqn:Ediff; [discriminate|].
  injection H as <-.
  apply bool_decide_eq_false in Edup. apply Nat.nlt_ge in Edup.
  assert (Hsame : forall n n', n ∈ nodes -> n' ∈ nodes ->
            (flatten_one_implicit_layer n).2 = (flatten_one_implicit_layer n').2).
  { intros n n' Hn Hn'. apply (remove_dups_le_1_all_equal _ Edup).
    - apply list_elem_of_fmap. by exists n.
    - apply list_elem_of_fmap. by exists n'. }
  split; [reflexivity|]. split; [|split; [exact Hsame|split; [reflexivity|]]].
  - apply existsb_elem_of in Eany as (x & Hx & Hpx).
    apply Forall_forall. intros n Hn. specialize (Hsame n x Hn Hx).
    destruct x as [a d|a aux cs|k cs]; try discriminate.
    destruct n as [a' d'|a' aux' cs'|k' cs']; try discriminate. reflexivity.
  - intros ->. discriminate.
Qed.

Lemma one_layer_leaf_smaller (n y : tree) :
  leaf_predicate n = true ->
  y ∈ (flatten_one_implicit_layer n).1 ->
  tree_size y < tree_size n.
Proof.
  destruct n as [a d|a aux cs|k cs]; try discriminate. intros _ Hy.
  cbn in Hy. apply tree_size_children_leaf in Hy. cbn [tree_size]. lia.
Qed.

Lemma expand_entries_smaller (p : path) (nodes : list tree) (entries : list entry)
    (e : entry) :
  process_entry (p, nodes) = Expand entries ->
  e ∈ entries ->
  entry_size e < entry_size (p, nodes).
Proof.
  intros H He. apply process_entry_expand_inv in H as (-> & Himp & _ & _ & Hne).
  apply list_elem_of_lookup in He as [i Hi]. rewrite list_lookup_imap in Hi.
  destruct (zip_star _ !! i) as [g|] eqn:E; [|discriminate].
  injection Hi as <-. apply zip_star_lookup in E as [_ HF].
  destruct nodes as [|n0 nodes]; [contradiction|].
  cbn [map] in HF. inversion HF as [|y l g' ls Hy _]; subst.
  unfold entry_size. cbn [snd].
  apply Forall_cons in Himp as [Hn0 _].
  apply one_layer_leaf_smaller; [exact Hn0|].
  eapply list_elem_of_lookup_2. exact Hy.
Qed.

Lemma contributes_of_each (l : list entry) :
  (forall e, e ∈ l -> exists paths, contributes [e] paths) ->
  exists paths, contributes l paths.
Proof.
  induction l as [|e l IH]; intros H; [exists ∅; constructor|].
  destruct (H e) as [p1 H1]; [left|].
  destruct IH as [p2 H2]; [intros e' He'; apply H; by right|].
  exists (p1 ∪ p2). change (e :: l) with ([e] ++ l).
  apply contributes_app. eauto.
Qed.

Lemma contributes_entry_total (n : nat) :
  forall e : entry, entry_size e <= n -> exists paths, contributes [e] paths.
Proof.
  induction n as [|n IH]; intros [p nodes] Hsize;
    destruct (process_entry (p, nodes)) as [| |entries] eqn:Ep.
  - exists ∅. apply contributes_skip; [exact Ep | constructor].
  - exists ({[ p ]} ∪ ∅).
    apply (contributes_materialize (p, nodes)); [exact Ep | constructor].
  - exfalso. apply process_entry_expand_inv in Ep as (_ & Himp & _ & _ & Hne).
    destruct nodes as [|n0 nodes]; [contradiction|].
    unfold entry_size in Hsize. cbn in Hsize. destruct n0; cbn in Hsize; lia.
  - exists ∅. apply contributes_skip; [exact Ep | constructor].
  - exists ({[ p ]} ∪ ∅).
    apply (contributes_materialize (p, nodes)); [exact Ep | constructor].
  - destruct (contributes_of_each entries) as [p1 H1].
    { intros e He. apply IH.
      pose proof (expand_entries_smaller _ _ _ _ Ep He). lia. }
    exists (p1 ∪ ∅). eapply contributes_expand; [exact Ep | exact H1 | constructor].
Qed.

Lemma contributes_total (l : list entry) : exists paths, contributes l paths.
Proof.
  apply contributes_of_each. intros e _.
  by apply (contributes_entry_total (entry_size e)).
Qed.

Lemma run_stack_total (l : list entry) :
  exists n paths, forall fuel, n <= fuel -> run_stack fuel (l, ∅) = Returns paths [].
Proof.
  destruct (contributes_total l) as [paths H].
  destruct (run_stack_of_contributes l paths H) as [n Hn]. eauto.
Qed.

(** X14. The loop of [get_common_prefix_transforms] ends on every input:
    there is a number of iterations from which on the call either raises
    one of the faults of the precondition checks or returns, one transform
    for each tree. *)
Theorem get_common_prefix_transforms_completes
    (_materialize : aval -> nat -> list tree -> materialized) (trees : list tree) :
  exists n, forall fuel, n <= fuel ->
    (exists e, get_common_prefix_transforms _materialize fuel trees = Raises e)
    \/ (exists transforms,
          get_common_prefix_transforms _materialize fuel trees
          = Returns transforms []
          /\ length transforms = length trees).
Proof.
  destruct (run_stack_total (initial_stack trees)) as (n & paths & Hn).
  exists n. intros fuel Hfuel. unfold get_common_prefix_transforms.
  destruct (bool_decide (length trees <= 1)).
  - right. eexists. split; [reflexivity|]. by rewrite length_map.
  - unfold materialization_paths_of. destruct trees as [|t0 rest].
    + right. eexists. split; reflexivity.
    + cbn [map].
      change (tree_flatten_with_implicit t0)
        with (tree_leaves_with_implicit t0, tree_structure_with_implicit t0).
      cbv beta iota.
      destruct (check_trees 1 _ _ _) as [[] c| |] eqn:Ec.
      * apply check_trees_calls in Ec as Hc. subst c.
        rewrite (Hn fuel Hfuel). right. eexists. split; [reflexivity|].
        cbn [length]. by rewrite length_map.
      * left. eexists. reflexivity.
      * exfalso. clear -Ec. revert Ec. generalize 1.
        generalize (tree_structure_with_implicit t0).
        generalize (map get_aval (tree_leaves_with_implicit t0)).
        induction rest as [|t rest IH]; intros avals s i; [discriminate|].
        cbn [map tree_flatten_with_implicit check_trees].
        destruct (bool_decide _); [discriminate|].
        destruct (check_avals i (tree_leaves_with_implicit t) avals)
          as [[] c| |] eqn:Ea.
        -- apply check_avals_calls in Ea as ->. cbn.
           destruct (check_trees _ _ _ _) as [[] c'| |] eqn:Ec'; try discriminate.
           intros _. by eapply IH.
        -- discriminate.
        -- exfalso. clear -Ea. revert avals Ea.
           induction (tree_leaves_with_implicit t) as [|x l IHl];
             intros [|a avals]; cbn; try discriminate.
           destruct (aval_matches _ _); [apply IHl | discriminate].
Qed.

(** X15. The precondition checks are the only way to fail: when two trees
    or more agree with the first in structure, with ImplicitArrays as
    leaves, and in the avals of their leaves, [get_common_prefix_transforms]
    returns, given enough iterations, the pruning transform of each tree for
    the set of paths the loop ends with. *)
Theorem returns_if_trees_agree
    (_materialize : aval -> nat -> list tree -> materialized) (trees : list tree) :
  1 < length trees ->
  agree_with_first trees ->
  exists n paths, forall fuel, n <= fuel ->
    materialization_paths_of fuel trees = Returns paths []
    /\ get_common_prefix_transforms _materialize fuel trees
       = Returns (map (fun t => _get_pruning_transform _materialize fuel t paths)
                      trees) [].
Proof.
  intros Hlen Hagree.
  destruct (run_stack_total (initial_stack trees)) as (n & paths & Hn).
  exists n, paths. intros fuel Hfuel.
  assert (Hp : materialization_paths_of fuel trees = Returns paths []).
  { unfold materialization_paths_of. destruct trees as [|t0 rest]; [simpl in Hlen; lia|].
    cbn [map].
    change (tree_flatten_with_implicit t0)
      with (tree_leaves_with_implicit t0, tree_structure_with_implicit t0).
    cbv beta iota. rewrite (check_trees_agree rest 1 t0 Hagree).
    rewrite (Hn fuel Hfuel). reflexivity. }
  split; [exact Hp|]. unfold get_common_prefix_transforms.
  rewrite bool_decide_eq_false_2 by lia. rewrite Hp. reflexivity.
Qed.

Lemma returns_if_trees_agree_witness :
  exists n paths, forall fuel, n <= fuel ->
    materialization_paths_of fuel [Examples.tree1; Examples.tree2] = Returns paths []
    /\ get_common_prefix_transforms Examples.materialize_now fuel
         [Examples.tree1; Examples.tree2]
       = Returns (map (fun t => _get_pruning_transform Examples.materialize_now
                                  fuel t paths)
                      [Examples.tree1; Examples.tree2]) [].
Proof.
  apply (returns_if_trees_agree Examples.materialize_now
           [Examples.tree1; Examples.tree2]).
  - simpl. lia.
  - simpl. repeat constructor.
Defined.

(** X16. A tree reconciled with itself needs no materialization, whatever
    ImplicitArrays it holds: given enough iterations the loop ends with an
    empty [materialization_paths], and both transforms returned are the
    identity. *)
Theorem same_tree_needs_no_materialization
    (_materialize : aval -> nat -> list tree -> materialized) (t : tree) :
  exists n, forall fuel, n <= fuel ->
    materialization_paths_of fuel [t; t] = Returns ∅ []
    /\ get_common_prefix_transforms _materialize fuel [t; t]
       = Returns [fun x => Returns x []; fun x => Returns x []] [].
Proof.
  destruct (run_stack_of_contributes (initial_stack [t; t]) ∅) as [n Hn].
  { rewrite initial_stack_pair. apply (contributes_same_entries (fun i => [] ++ [i])). }
  exists n. intros fuel Hfuel.
  assert (Hp : materialization_paths_of fuel [t; t] = Returns ∅ []).
  { unfold materialization_paths_of.
    cbn [map tree_flatten_with_implicit check_trees].
    rewrite bool_decide_eq_false_2 by (intros Hc; by apply Hc).
    rewrite check_avals_same, (Hn fuel Hfuel). reflexivity. }
  split; [exact Hp|]. unfold get_common_prefix_transforms.
  rewrite bool_decide_eq_false_2 by (simpl; lia). rewrite Hp. reflexivity.
Qed.

(** ** [_map_leaves_with_implicit_path] as a mapping *)

Lemma map_leaves_from_stop_everywhere
    (recurse : list tree -> path -> outcome (list tree))
    (g : path -> tree -> tree) (p : path) (leaves : list tree) :
  forall idx,
  map_leaves_from recurse (fun q x => Returns (g q x) []) (fun _ _ => true)
    p idx leaves
  = Returns (imap (fun i x => g (p ++ [idx + i]) x) leaves) [].
Proof.
  induction leaves as [|x l IH]; intros idx; [reflexivity|].
  cbn [map_leaves_from]. rewrite orb_true_r. rewrite IH. cbn.
  rewrite Nat.add_0_r. f_equal. f_equal.
  apply imap_ext. intros i y _. cbn. f_equal. f_equal. f_equal. lia.
Qed.

(** X17. With an [is_leaf] that always holds, no ImplicitArray is expanded:
    [_map_leaves_with_implicit_path] applies [f] once to every leaf, the
    leaf at index [idx] with the path [path_prefix + (idx,)], and keeps
    their order. *)
Theorem map_leaves_stop_everywhere (fuel : nat) (g : path -> tree -> tree)
    (leaves : list tree) (path_prefix : path) :
  _map_leaves_with_implicit_path (S fuel) (fun q x => Returns (g q x) []) leaves
    (fun _ _ => true) path_prefix
  = Returns (imap (fun idx leaf => g (path_prefix ++ [idx]) leaf) leaves) [].
Proof.
  cbn [_map_leaves_with_implicit_path].
  rewrite map_leaves_from_stop_everywhere. reflexivity.
Qed.

Lemma bind_ret_l {A B} (a : A) (k : A -> outcome B) : Returns a [] ≫= k = k a.
Proof. unfold mbind, outcome_bind. destruct (k a); reflexivity. Qed.

Lemma map_leaves_from_identity
    (recurse : list tree -> path -> outcome (list tree)) (p : path)
    (leaves : list tree) :
  (forall a aux cs q, Implicit a aux cs ∈ leaves ->
     recurse (flat_map tree_leaves_with_implicit cs) q
     = Returns (flat_map tree_leaves_with_implicit cs) []) ->
  forall idx,
  map_leaves_from recurse (fun _ x => Returns x []) (fun _ _ => false) p idx leaves
  = Returns leaves [].
Proof.
  induction leaves as [|x l IH]; intros Hrec idx; [reflexivity|].
  cbn [map_leaves_from].
  rewrite IH by (intros a aux cs q Hin; apply (Hrec a aux); by right).
  destruct x as [a d|a aux cs|k cs]; cbn [leaf_predicate negb orb]; try reflexivity.
  cbn [flatten_one_implicit_layer].
  rewrite (Hrec a aux cs) by left.
  pose proof (flatten_one_implicit_layer_round_trip_aux (Implicit a aux cs)) as Hrt.
  cbn [flatten_one_implicit_layer fst snd one_layer_leaves] in Hrt.
  rewrite bind_ret_l, Hrt, !bind_ret_l. reflexivity.
Qed.

Lemma nesting_elem_le (leaves : list tree) (x : tree) :
  x ∈ leaves -> implicit_nesting x <= list_max (map implicit_nesting leaves).
Proof.
  intros Hx.
  assert (H : Forall (fun k => k <= list_max (map implicit_nesting leaves))
                     (map implicit_nesting leaves)).
  { apply list_max_le. lia. }
  rewrite Forall_forall in H. apply H. apply list_elem_of_fmap. eauto.
Qed.

Lemma map_leaves_identity_aux (fuel : nat) :
  forall (leaves : list tree) (p : path),
  list_max (map implicit_nesting leaves) < fuel ->
  _map_leaves_with_implicit_path fuel (fun _ x => Returns x []) leaves
    (fun _ _ => false) p
  = Returns leaves [].
Proof.
  induction fuel as [|fuel IH]; intros leaves p Hfuel; [lia|].
  cbn [_map_leaves_with_implicit_path].
  apply map_leaves_from_identity. intros a aux cs q Hin.
  apply IH. rewrite nesting_children_leaves.
  apply nesting_elem_le in Hin. cbn [implicit_nesting] in Hin. lia.
Qed.

(** X18. Mapping the identity with an [is_leaf] that never holds expands
    every ImplicitArray, layer by layer, and rebuilds each one from its own
    leaves: [_map_leaves_with_implicit_path] returns the leaves it was
    given, once the depth of the recursion covers their nesting. *)
Theorem map_leaves_identity (fuel : nat) (leaves : list tree) (path_prefix : path) :
  list_max (map implicit_nesting leaves) < fuel ->
  _map_leaves_with_implicit_path fuel (fun _ x => Returns x []) leaves
    (fun _ _ => false) path_prefix
  = Returns leaves [].
Proof. apply map_leaves_identity_aux. Qed.

Lemma map_leaves_identity_witness :
  _map_leaves_with_implicit_path 3 (fun _ x => Returns x [])
    [Examples.outer1; Examples.inner] (fun _ _ => false) []
  = Returns [Examples.outer1; Examples.inner] [].
Proof.
  apply (map_leaves_identity 3 [Examples.outer1; Examples.inner] []).
  simpl. lia.
Defined.

(** ** What the recorded paths address *)

Lemma node_at_snoc (p : path) :
  forall (leaves : list tree) (n : tree) (i : nat),
  node_at leaves p = Some n ->
  leaf_predicate n = true ->
  node_at leaves (p ++ [i]) = (flatten_one_implicit_layer n).1 !! i.
Proof.
  induction p as [|j p IH]; intros leaves n i Hn Himp; [discriminate|].
  destruct p as [|k p].
  - cbn [node_at app] in Hn |- *. rewrite Hn.
    destruct n as [a d|a aux cs|k cs]; try discriminate. reflexivity.
  - change ((j :: k :: p) ++ [i]) with (j :: ((k :: p) ++ [i])).
    cbn [node_at] in Hn. 
    assert (Hcons : forall q, q <> [] ->
              node_at leaves (j :: q)
              = match leaves !! j with
                | Some (Implicit a aux cs) =>
                    node_at (flatten_one_implicit_layer (Implicit a aux cs)).1 q
                | _ => None
                end).
    { intros [|? ?] Hq; [contradiction | reflexivity]. }
    rewrite Hcons by (destruct p; discriminate).
    destruct (leaves !! j) as [[a d|a aux cs|k' cs]|]; try discriminate.
    by apply IH.
Qed.

Lemma process_entry_materialize_inv (p : path) (nodes : list tree) :
  process_entry (p, nodes) = Materialize ->
  existsb leaf_predicate nodes = true
  /\ ((exists n n', n ∈ nodes /\ n' ∈ nodes
         /\ (flatten_one_implicit_layer n).2 <> (flatten_one_implicit_layer n').2)
      \/ aval_diff (zip_star (map (fun n => (flatten_one_implicit_layer n).1) nodes))
         = true).
Proof.
  unfold process_entry. intros H.
  destruct (existsb leaf_predicate nodes) eqn:Eany; cbn [negb] in H; [|discriminate].
  split; [reflexivity|].
  destruct (bool_decide _) eqn:Edup.
  - left. apply bool_decide_eq_true in Edup.
    destruct nodes as [|n0 nodes]; [simpl in Edup; lia|].
    destruct (decide (Forall (fun n => (flatten_one_implicit_layer n).2
                                      = (flatten_one_implicit_layer n0).2)
                             (n0 :: nodes))) as [Hall|Hnot].
    + exfalso. apply Nat.lt_nge in Edup. apply Edup.
      apply (remove_dups_all_equal _ (flatten_one_implicit_layer n0).2).
      apply Forall_fmap. exact Hall.
    + apply not_Forall_Exists in Hnot; [|intros x; apply _].
      apply Exists_exists in Hnot as (n & Hn & Hne).
      exists n, n0. split; [exact Hn|]. split; [left | exact Hne].
  - right. destruct (aval_diff _); [reflexivity | discriminate].
Qed.

Lemma entry_addresses_child (trees : list tree) (p : path) (nodes g : list tree)
    (i : nat) :
  entry_addresses trees (p, nodes) ->
  Forall (fun n => leaf_predicate n = true) nodes ->
  Forall2 (fun x l => l !! i = Some x) g
          (map (fun n => (flatten_one_implicit_layer n).1) nodes) ->
  entry_addresses trees (p ++ [i], g).
Proof.
  unfold entry_addresses. cbn [fst snd]. intros Haddr Himp Hg.
  apply Forall2_fmap_r in Hg.
  revert g Hg Himp. induction Haddr as [|n t nodes trees Hn _ IH]; intros g Hg Himp.
  - inversion Hg; subst. constructor.
  - inversion Hg as [|x n' g' nodes' Hx Hg']; subst.
    apply Forall_cons in Himp as [Hi Himp]. constructor; [|by apply IH].
    rewrite (node_at_snoc p _ n i Hn Hi). exact Hx.
Qed.

Lemma addresses_invariant_step (trees : list tree) (st st' : state) :
  addresses_invariant trees st -> step st = Some st' ->
  addresses_invariant trees st'.
Proof.
  intros [Hstack Hacc] Hstep.
  apply step_inv in Hstep as (stack & [p nodes] & Hst & ->).
  destruct st as [stack0 acc]. cbn [fst snd] in *. subst stack0.
  apply Forall_app in Hstack as [Hstack He]. rewrite Forall_singleton in He.
  destruct (process_entry (p, nodes)) as [| |entries] eqn:Ep;
    unfold addresses_invariant; cbn [fst snd].
  - split; assumption.
  - split; [exact Hstack|]. intros P HP.
    apply elem_of_union in HP as [HP|HP]; [|by apply Hacc].
    apply elem_of_singleton in HP as ->. exists nodes. split; assumption.
  - split; [|exact Hacc]. apply Forall_app. split; [exact Hstack|].
    apply process_entry_expand_inv in Ep as (-> & Himp & _ & _ & _).
    apply Forall_forall. intros [q g] Hin.
    apply list_elem_of_lookup in Hin as [i Hi]. rewrite list_lookup_imap in Hi.
    destruct (zip_star _ !! i) as [g'|] eqn:E; [|discriminate].
    injection Hi as <- <-. apply zip_star_lookup in E as [_ HF].
    by eapply entry_addresses_child.
Qed.

Lemma addresses_invariant_initial (trees : list tree) :
  addresses_invariant trees (initial_stack trees, ∅).
Proof.
  split; cbn [fst snd]; [|intros P HP; by apply elem_of_empty in HP].
  apply Forall_forall. intros [q g] Hin. unfold initial_stack in Hin.
  apply list_elem_of_lookup in Hin as [i Hi]. rewrite list_lookup_imap in Hi.
  destruct (zip_star _ !! i) as [g'|] eqn:E; [|discriminate].
  injection Hi as <- <-. apply zip_star_lookup in E as [_ HF].
  apply Forall2_fmap_r in HF. unfold entry_addresses. cbn [fst snd].
  eapply Forall2_impl; [exact HF|]. intros x t Hx. exact Hx.
Qed.

Lemma addresses_invariant_iterate (trees : list tree) (n : nat) :
  forall st st', addresses_invariant trees st -> iterate_step n st = Some st' ->
                 addresses_invariant trees st'.
Proof.
  induction n as [|n IH]; intros st st' Hinv H; simpl in H.
  - by injection H as <-.
  - destruct (step st) as [st1|] eqn:E; [|discriminate].
    eapply IH; [|exact H]. eapply addresses_invariant_step; eauto.
Qed.

(** X19. Every path recorded in [materialization_paths] addresses a node in
    each of the trees, and is recorded for a reason: one of these nodes is
    an ImplicitArray, and either two of them expand to different structures
    or some group of their expanded leaves disagrees in shape or dtype. *)
Theorem recorded_paths_address_divergence (fuel : nat) (trees : list tree)
    (paths : gset path) (calls : list call) (P : path) :
  materialization_paths_of fuel trees = Returns paths calls ->
  P ∈ paths ->
  exists nodes,
    Forall2 (fun node t => node_at (tree_leaves_with_implicit t) P = Some node)
            nodes trees
    /\ existsb leaf_predicate nodes = true
    /\ ((exists n n', n ∈ nodes /\ n' ∈ nodes
           /\ (flatten_one_implicit_layer n).2 <> (flatten_one_implicit_layer n').2)
        \/ aval_diff (zip_star (map (fun n => (flatten_one_implicit_layer n).1) nodes))
           = true).
Proof.
  intros Hret HP.
  apply materialization_paths_of_inv in Hret as [_ [[_ ->]|Hrun]].
  - by apply elem_of_empty in HP.
  - apply run_stack_iterate in Hrun as (_ & k & st' & Hk & _ & <-).
    eapply addresses_invariant_iterate in Hk; [|apply addresses_invariant_initial].
    destruct Hk as [_ Hacc]. destruct (Hacc P HP) as (nodes & Haddr & Hm).
    exists nodes. split; [exact Haddr|].
    by apply process_entry_materialize_inv in Hm.
Qed.

Lemma recorded_paths_address_divergence_witness :
  exists nodes,
    Forall2 (fun node t => node_at (tree_leaves_with_implicit t) [0; 0] = Some node)
            nodes [Examples.tree1; Examples.tree2]
    /\ existsb leaf_predicate nodes = true
    /\ ((exists n n', n ∈ nodes /\ n' ∈ nodes
           /\ (flatten_one_implicit_layer n).2 <> (flatten_one_implicit_layer n').2)
        \/ aval_diff (zip_star (map (fun n => (flatten_one_implicit_layer n).1) nodes))
           = true).
Proof.
  apply (recorded_paths_address_divergence 10 [Examples.tree1; Examples.tree2]
           {[ [0; 0] ]} [] [0; 0]).
  - exact example_materialization_paths.
  - apply elem_of_singleton. reflexivity.
Defined.

(** ** Completion of the pruning transform *)

Lemma unflatten_from_succeeds (d : treedef) :
  forall leaves,
  num_leaves d <= length leaves ->
  exists t, unflatten_from d leaves = Some (t, drop (num_leaves d) leaves).
Proof.
  induction d as [|nk ds IH] using treedef_nested_ind; intros leaves Hlen.
  - destruct leaves as [|x leaves]; [simpl in Hlen; lia|]. by exists x.
  - rewrite unflatten_from_node. cbn [num_leaves] in *.
    assert (Hcs : forall leaves, list_sum (map num_leaves ds) <= length leaves ->
      exists cs, unflatten_children ds leaves
                 = Some (cs, drop (list_sum (map num_leaves ds)) leaves)).
    { clear Hlen leaves. induction IH as [|d ds Hd _ IHds]; intros leaves Hlen.
      - by exists [].
      - change (list_sum (map num_leaves (d :: ds)))
          with (num_leaves d + list_sum (map num_leaves ds)) in *.
        cbn [unflatten_children].
        destruct (Hd leaves) as [t Ht]; [lia|]. rewrite Ht.
        destruct (IHds (drop (num_leaves d) leaves)) as [cs Hcs].
        { rewrite length_drop. lia. }
        rewrite Hcs. exists (t :: cs). rewrite drop_drop. reflexivity. }
    destruct (Hcs leaves Hlen) as [cs ->]. eexists. reflexivity.
Qed.

Lemma tree_unflatten_succeeds (d : treedef) (leaves : list tree) :
  length leaves = num_leaves d ->
  exists t, tree_unflatten d leaves = Returns t [].
Proof.
  intros Hlen. unfold tree_unflatten.
  destruct (unflatten_from_succeeds d leaves) as [t Ht]; [lia|].
  rewrite Ht, <- Hlen, drop_all. by exists t.
Qed.

Lemma num_leaves_children (cs : list tree) :
  length (flat_map tree_leaves_with_implicit cs)
  = list_sum (map num_leaves (map tree_structure_with_implicit cs)).
Proof.
  induction cs as [|c cs IH]; [reflexivity|].
  cbn [flat_map map]. rewrite length_app, num_leaves_structure, IH. reflexivity.
Qed.

Lemma bind_Returns {A B} (m : outcome A) (k : A -> outcome B) (a : A) (b : B)
    (c1 c2 : list call) :
  m = Returns a c1 -> k a = Returns b c2 -> m ≫= k = Returns b (c1 ++ c2).
Proof. intros -> H. unfold mbind, outcome_bind. by rewrite H. Qed.

Section Completion.

Variable _materialize : aval -> nat -> list tree -> materialized.
Variable paths : gset path.
Variable fuel_f : nat.
Hypothesis f_returns :
  forall p x, exists y c, f _materialize fuel_f p x = Returns y c.

Lemma map_leaves_from_returns (recurse : list tree -> path -> outcome (list tree))
    (p : path) (leaves : list tree) :
  maps_as_pruned paths recurse ->
  (forall a aux cs q, Implicit a aux cs ∈ leaves ->
     exists sub' c, recurse (flat_map tree_leaves_with_implicit cs) q = Returns sub' c) ->
  forall idx, exists leaves' c,
    map_leaves_from recurse (f _materialize fuel_f)
      (fun q _ => bool_decide (q ∈ paths)) p idx leaves = Returns leaves' c.
Proof using f_returns.
  intros Hspec. induction leaves as [|x l IH]; intros Hrec idx.
  - exists [], []. reflexivity.
  - destruct (IH (fun a aux cs q Hin =>
                    Hrec a aux cs q (proj2 (elem_of_cons _ _ _) (or_intror Hin)))
                 (S idx)) as (l' & c' & Hl').
    assert (Hhead : exists y c,
      (if negb (leaf_predicate x) || bool_decide (p ++ [idx] ∈ paths)
       then f _materialize fuel_f (p ++ [idx]) x
       else let '(subtree, substruct) := flatten_one_implicit_layer x in
            mapped_subtree ← recurse subtree (p ++ [idx]);
            tree_unflatten substruct mapped_subtree) = Returns y c).
    { destruct (negb (leaf_predicate x) || bool_decide (p ++ [idx] ∈ paths)) eqn:E;
        [apply f_returns|].
      destruct x as [a d|a aux cs|k cs]; try discriminate.
      cbn [flatten_one_implicit_layer one_layer_leaves one_layer_structure].
      destruct (Hrec a aux cs (p ++ [idx])) as (sub' & c & Hsub); [left|].
      destruct (Hspec _ _ _ _ (children_leaves_are_leaf_nodes cs) Hsub)
        as ([Hlen _] & _ & _).
      destruct (tree_unflatten_succeeds
                  (NodeDef (KImplicit a aux) (map tree_structure_with_implicit cs))
                  sub') as [t Ht].
      { rewrite Hlen. apply num_leaves_children. }
      exists t, (c ++ []). by eapply bind_Returns. }
    destruct Hhead as (y & c & Hy).
    exists (y :: l'), (c ++ (c' ++ [])). cbn [map_leaves_from].
    eapply bind_Returns; [exact Hy|]. eapply bind_Returns; [exact Hl' | reflexivity].
Qed.

Lemma map_leaves_returns (fuel : nat) :
  forall (leaves : list tree) (p : path),
  list_max (map implicit_nesting leaves) < fuel ->
  exists leaves' c,
    _map_leaves_with_implicit_path fuel (f _materialize fuel_f) leaves
      (fun q _ => bool_decide (q ∈ paths)) p = Returns leaves' c.
Proof using f_returns.
  induction fuel as [|fuel IH]; intros leaves p Hfuel; [lia|].
  cbn [_map_leaves_with_implicit_path].
  apply map_leaves_from_returns.
  - apply _map_leaves_with_implicit_path_inv.
  - intros a aux cs q Hin. apply IH. rewrite nesting_children_leaves.
    apply nesting_elem_le in Hin. cbn [implicit_nesting] in Hin. lia.
Qed.

End Completion.

(** X20. The pruning transform completes: when the loop of [f], lines
    112-113, reaches a concrete value within the fuel for every node, the
    transform built by [_get_pruning_transform] returns a tree for every
    tree whose nesting of ImplicitArrays the depth of the recursion
    covers. *)
Theorem pruning_transform_completes
    (_materialize : aval -> nat -> list tree -> materialized) (fuel : nat)
    (paths : gset path) (t0 t : tree) :
  (forall p x, exists y c, f _materialize fuel p x = Returns y c) ->
  implicit_nesting t < fuel ->
  exists t' calls,
    _get_pruning_transform _materialize fuel t0 paths t = Returns t' calls.
Proof.
  intros Hf Hfuel. unfold _get_pruning_transform.
  destruct (bool_decide (paths = ∅)); [by exists t, []|].
  unfold materialize_subtrees. cbn [tree_flatten_with_implicit].
  destruct (map_leaves_returns _materialize paths fuel Hf fuel
              (tree_leaves_with_implicit t) []) as (mapped & c & Hm).
  { by rewrite nesting_leaves. }
  destruct (_map_leaves_with_implicit_path_inv _materialize paths fuel fuel
              _ _ _ _ (leaves_are_leaf_nodes t) Hm) as ([Hlen _] & _ & _).
  destruct (tree_unflatten_succeeds (tree_structure_with_implicit t) mapped)
    as [t' Ht'].
  { rewrite Hlen. apply num_leaves_structure. }
  exists t', (c ++ []). by eapply bind_Returns.
Qed.

Lemma pruning_transform_completes_witness :
  exists t' calls,
    _get_pruning_transform Examples.materialize_now 3 Examples.tree1 {[ [0; 0] ]}
      Examples.tree1 = Returns t' calls.
Proof.
  apply (pruning_transform_completes Examples.materialize_now 3 {[ [0; 0] ]}
           Examples.tree1 Examples.tree1).
  - intros p [a d|a aux cs|k cs]; eexists; eexists; reflexivity.
  - simpl. lia.
Defined.

(** ** The common structure after the transforms *)

Lemma expand_entry_path (e : entry) (entries : list entry) (c : entry) :
  process_entry e = Expand entries -> c ∈ entries -> exists i, c.1 = e.1 ++ [i].
Proof.
  intros He Hc. apply process_entry_expand_paths in He.
  assert (Hin : c.1 ∈ map fst entries) by (apply list_elem_of_fmap; eauto).
  rewrite He in Hin. apply list_elem_of_fmap in Hin as (i & Hi & _). eauto.
Qed.

Lemma contributes_paths_extend (l : list entry) (paths : gset path) :
  contributes l paths ->
  forall q, q ∈ paths -> exists e, e ∈ l /\ e.1 `prefix_of` q.
Proof.
  induction 1 as [|e l p1 He _ IH|e l p1 He _ IH|e entries l p1 p2 He _ IH1 _ IH2];
    intros q Hq.
  - by apply elem_of_empty in Hq.
  - destruct (IH q Hq) as (e' & He' & Hpre). exists e'. split; [by right | exact Hpre].
  - apply elem_of_union in Hq as [Hq|Hq].
    + apply elem_of_singleton in Hq as ->. exists e. split; [left | reflexivity].
    + destruct (IH q Hq) as (e' & He' & Hpre). exists e'. split; [by right | exact Hpre].
  - apply elem_of_union in Hq as [Hq|Hq].
    + destruct (IH1 q Hq) as (c & Hc & Hpre).
      destruct (expand_entry_path _ _ _ He Hc) as [i Hi].
      exists e. split; [left|]. rewrite Hi in Hpre. by eapply prefix_app_l.
    + destruct (IH2 q Hq) as (e' & He' & Hpre). exists e'. split; [by right | exact Hpre].
Qed.

Lemma contributes_expand_proper (e : entry) (entries : list entry)
    (paths : gset path) :
  process_entry e = Expand entries -> contributes entries paths -> e.1 ∉ paths.
Proof.
  intros He Hc Hin.
  destruct (contributes_paths_extend _ _ Hc _ Hin) as (c & Hcin & Hpre).
  destruct (expand_entry_path _ _ _ He Hcin) as [i Hi]. rewrite Hi in Hpre.
  by apply prefix_snoc_not in Hpre.
Qed.

Lemma settled_ext (paths : gset path) (e : entry) :
  settled paths e ->
  forall paths', (forall q, e.1 `prefix_of` q -> (q ∈ paths <-> q ∈ paths')) ->
  settled paths' e.
Proof.
  induction 1 as [e He|e He Hin|e entries He Hnin _ IH]; intros paths' Hext.
  - by apply settled_skip.
  - apply settled_materialize; [exact He|]. by apply Hext.
  - eapply settled_expand; [exact He | |].
    + intros Hin. apply Hnin. by apply Hext.
    + intros c Hc. apply IH; [exact Hc|]. intros q Hq. apply Hext.
      destruct (expand_entry_path _ _ _ He Hc) as [i Hi]. rewrite Hi in Hq.
      by eapply prefix_app_l.
Qed.

Lemma prefixes_related (p1 p2 q : path) :
  p1 `prefix_of` q -> p2 `prefix_of` q -> p1 `prefix_of` p2 \/ p2 `prefix_of` p1.
Proof. intros H1 H2. eapply prefix_weak_total; eauto. Qed.

Lemma settled_of_contributes (l : list entry) (paths : gset path) :
  contributes l paths ->
  antichain (map fst l) ->
  forall e, e ∈ l -> settled paths e.
Proof.
  induction 1 as [|e l p1 He Hc IH|e l p1 He Hc IH|e entries l p1 p2 He Hc1 IH1 Hc2 IH2];
    intros Hanti e0 He0.
  - inversion He0.
  - cbn [map antichain] in Hanti. destruct Hanti as [_ Hanti].
    apply elem_of_cons in He0 as [->|He0]; [by apply settled_skip | by apply IH].
  - cbn [map antichain] in Hanti. destruct Hanti as [Hun Hanti].
    apply elem_of_cons in He0 as [->|He0].
    + apply settled_materialize; [exact He|].
      apply elem_of_union. left. by apply elem_of_singleton.
    + apply (settled_ext p1); [by apply IH|]. intros q Hq. split.
      * intros Hin. apply elem_of_union. by right.
      * intros Hin. apply elem_of_union in Hin as [Hin|Hin]; [|exact Hin].
        apply elem_of_singleton in Hin as ->. exfalso.
        rewrite Forall_forall in Hun.
        destruct (Hun e0.1) as [_ Hno]; [apply list_elem_of_fmap; eauto|].
        by apply Hno.
  - cbn [map antichain] in Hanti. destruct Hanti as [Hun Hanti].
    rewrite Forall_forall in Hun.
    assert (Hchildren : antichain (map fst entries)).
    { rewrite (process_entry_expand_paths _ _ He). apply antichain_children. }
    assert (Hp2 : forall q, e.1 `prefix_of` q -> q ∉ p2).
    { intros q Hq Hin.
      destruct (contributes_paths_extend _ _ Hc2 _ Hin) as (e' & He' & Hpre).
      destruct (Hun e'.1) as [H1 H2]; [apply list_elem_of_fmap; eauto|].
      destruct (prefixes_related _ _ _ Hq Hpre); contradiction. }
    apply elem_of_cons in He0 as [->|He0].
    + eapply settled_expand; [exact He | |].
      * intros Hin. apply elem_of_union in Hin as [Hin|Hin].
        -- by apply (contributes_expand_proper _ _ _ He Hc1).
        -- by apply (Hp2 e.1).
      * intros c Hcin. apply (settled_ext p1); [by apply IH1|].
        intros q Hq. split; [intros Hin; apply elem_of_union; by left|].
        intros Hin. apply elem_of_union in Hin as [Hin|Hin]; [exact Hin|].
        exfalso. apply (Hp2 q); [|exact Hin].
        destruct (expand_entry_path _ _ _ He Hcin) as [i Hi]. rewrite Hi in Hq.
        by eapply prefix_app_l.
    + apply (settled_ext p2); [by apply IH2|].
      intros q Hq. split; [intros Hin; apply elem_of_union; by right|].
      intros Hin. apply elem_of_union in Hin as [Hin|Hin]; [|exact Hin].
      exfalso.
      destruct (contributes_paths_extend _ _ Hc1 _ Hin) as (c & Hcin & Hpre).
      destruct (expand_entry_path _ _ _ He Hcin) as [i Hi]. rewrite Hi in Hpre.
      apply prefix_app_l in Hpre.
      destruct (Hun e0.1) as [H1 H2]; [apply list_elem_of_fmap; eauto|].
      destruct (prefixes_related _ _ _ Hq Hpre); contradiction.
Qed.

Lemma jax_structure_determined (t1 : tree) :
  forall t2,
  tree_structure_with_implicit t1 = tree_structure_with_implicit t2 ->
  map jax_structure (tree_leaves_with_implicit t1)
  = map jax_structure (tree_leaves_with_implicit t2) ->
  jax_structure t1 = jax_structure t2.
Proof.
  induction t1 as [a d|a aux cs|k cs1 IH] using tree_nested_ind; intros t2 Hs Hl.
  - destruct t2; try discriminate; cbn in Hl |- *; congruence.
  - destruct t2; try discriminate; cbn in Hl |- *; congruence.
  - destruct t2 as [| |k2 cs2]; try discriminate.
    cbn [tree_structure_with_implicit] in Hs. injection Hs as -> Hs.
    cbn [tree_leaves_with_implicit] in Hl. cbn [tree_util_tree_structure]. f_equal.
    revert cs2 Hs Hl. induction IH as [|c1 cs1 Hc1 _ IHcs]; intros [|c2 cs2] Hs Hl;
      try discriminate; [reflexivity|].
    cbn [map] in Hs. injection Hs as Hs1 Hs.
    cbn [flat_map] in Hl. rewrite !map_app in Hl.
    apply app_inj_1 in Hl as [Hl1 Hl].
    2:{ by rewrite !length_map, !num_leaves_structure, Hs1. }
    cbn [map]. f_equal; [by apply Hc1 | by apply IHcs].
Qed.

Lemma jax_structure_children_determined (cs1 : list tree) :
  forall cs2,
  map tree_structure_with_implicit cs1 = map tree_structure_with_implicit cs2 ->
  map jax_structure (flat_map tree_leaves_with_implicit cs1)
  = map jax_structure (flat_map tree_leaves_with_implicit cs2) ->
  map jax_structure cs1 = map jax_structure cs2.
Proof.
  induction cs1 as [|c1 cs1 IH]; intros [|c2 cs2] Hs Hl; try discriminate;
    [reflexivity|].
  cbn [map] in Hs. injection Hs as Hs1 Hs.
  cbn [flat_map] in Hl. rewrite !map_app in Hl.
  apply app_inj_1 in Hl as [Hl1 Hl].
  2:{ by rewrite !length_map, !num_leaves_structure, Hs1. }
  cbn [map]. f_equal; [by apply jax_structure_determined | by apply IH].
Qed.

Lemma zip_star_lookup_exists {A} (lists : list (list A)) (i : nat) :
  lists <> [] ->
  Forall (fun l => i < length l) lists ->
  exists g, zip_star lists !! i = Some g
            /\ Forall2 (fun x l => l !! i = Some x) g lists.
Proof.
  intros Hne Hall.
  assert (Hg : exists g, Forall2 (fun x l => l !! i = Some x) g lists).
  { clear Hne. induction Hall as [|l lists Hl _ [g Hg]]; [by exists []|].
    destruct (lookup_lt_is_Some_2 l i Hl) as [x Hx]. exists (x :: g).
    by constructor. }
  destruct Hg as [g Hg]. exists g. split; [|exact Hg].
  apply zip_star_lookup. by split.
Qed.

Lemma Forall2_elem_of_r {A B} (R : A -> B -> Prop) (l : list A) (k : list B) (y : B) :
  Forall2 R l k -> y ∈ k -> exists x, x ∈ l /\ R x y.
Proof.
  induction 1 as [|x y' l k Hxy _ IH]; intros Hy; [inversion Hy|].
  apply elem_of_cons in Hy as [->|Hy].
  - exists x. split; [left | exact Hxy].
  - destruct (IH Hy) as (x' & Hx' & HR). exists x'. split; [by right | exact HR].
Qed.

(** Without recorded paths every node is pruned to itself. *)
Lemma pruned_empty (n : nat) :
  forall (x : tree) (p : path), tree_size x <= n -> pruned ∅ p x x.
Proof.
  induction n as [|n IH]; intros x p Hsize; [destruct x; simpl in Hsize; lia|].
  destruct x as [a d|a aux cs|k cs]; try (by apply pruned_kept).
  apply pruned_rebuilt; [apply not_elem_of_empty | reflexivity | reflexivity|].
  intros i y y' Hy Hy'. rewrite Hy in Hy'. injection Hy' as <-.
  apply IH. apply list_elem_of_lookup_2 in Hy.
  apply tree_size_children_leaf in Hy. cbn [tree_size] in Hsize. lia.
Qed.

Lemma process_entry_skip_inv (p : path) (nodes : list tree) :
  process_entry (p, nodes) = Skip -> existsb leaf_predicate nodes = false.
Proof.
  unfold process_entry. destruct (existsb leaf_predicate nodes); [|done].
  cbn [negb]. repeat case_match; discriminate.
Qed.

Lemma pruned_concrete_structure (paths : gset path) (p : path) (x x' : tree) :
  is_leaf_node x = true -> leaf_predicate x = false ->
  pruned paths p x x' -> jax_structure x' = LeafDef.
Proof.
  intros Hleaf Hx Hp.
  inversion Hp as [? ? Hk|? ? ? ? Hi Hin|? ? ? ? cs' Hin Hs Hlen Hch]; subst.
  - destruct x'; try discriminate. reflexivity.
  - reflexivity.
  - discriminate.
Qed.

Lemma pruned_recorded_structure (paths : gset path) (p : path) (x x' : tree) :
  is_leaf_node x = true -> p ∈ paths ->
  pruned paths p x x' -> jax_structure x' = LeafDef.
Proof.
  intros Hleaf Hin Hp.
  inversion Hp as [? ? Hk|? ? ? ? Hi Hin'|? ? ? ? cs' Hin' Hs Hlen Hch]; subst.
  - destruct x'; try discriminate. reflexivity.
  - reflexivity.
  - contradiction.
Qed.

Lemma groups_common_structure (paths : gset path) (p : path)
    (lists : list (list tree)) :
  (forall e', e' ∈ imap (fun i g => (p ++ [i], g)) (zip_star lists) ->
     Forall (fun x => is_leaf_node x = true) e'.2 ->
     forall n1 n2 n1' n2', n1 ∈ e'.2 -> n2 ∈ e'.2 ->
       pruned paths e'.1 n1 n1' -> pruned paths e'.1 n2 n2' ->
       jax_structure n1' = jax_structure n2') ->
  Forall (Forall (fun x => is_leaf_node x = true)) lists ->
  (forall l l', l ∈ lists -> l' ∈ lists -> length l = length l') ->
  forall L1 L2 L1' L2', L1 ∈ lists -> L2 ∈ lists ->
    pruned_leaves paths p L1 L1' -> pruned_leaves paths p L2 L2' ->
    map jax_structure L1' = map jax_structure L2'.
Proof.
  intros IH Hleaf Hlen L1 L2 L1' L2' HL1 HL2 [Hlen1 Hpr1] [Hlen2 Hpr2].
  apply list_eq_same_length with (length L1).
  - by rewrite length_map, Hlen2, (Hlen L2 L1).
  - by rewrite length_map, Hlen1.
  - intros i s1 s2 Hi Hs1 Hs2. rewrite list_lookup_fmap in Hs1, Hs2.
    destruct (L1' !! i) as [y1'|] eqn:E1'; [|discriminate]. injection Hs1 as <-.
    destruct (L2' !! i) as [y2'|] eqn:E2'; [|discriminate]. injection Hs2 as <-.
    destruct (lookup_lt_is_Some_2 L1 i Hi) as [y1 E1].
    destruct (lookup_lt_is_Some_2 L2 i) as [y2 E2]; [by rewrite (Hlen L2 L1)|].
    destruct (zip_star_lookup_exists lists i) as (g & Hg & HF).
    { intros ->. inversion HL1. }
    { apply Forall_forall. intros l Hl. by rewrite (Hlen l L1). }
    assert (Hy1 : y1 ∈ g).
    { destruct (Forall2_elem_of_r _ _ _ _ HF HL1) as (x & Hx & Hlx).
      rewrite E1 in Hlx. by injection Hlx as ->. }
    assert (Hy2 : y2 ∈ g).
    { destruct (Forall2_elem_of_r _ _ _ _ HF HL2) as (x & Hx & Hlx).
      rewrite E2 in Hlx. by injection Hlx as ->. }
    apply (IH (p ++ [i], g)) with y1 y2; cbn [fst snd]; try assumption.
    + apply list_elem_of_lookup. exists i. by rewrite list_lookup_imap, Hg.
    + apply Forall_forall. intros x Hx.
      destruct (zip_star_elem_of lists g x) as (l & Hl & Hxl);
        [eapply list_elem_of_lookup_2; eauto | exact Hx|].
      rewrite Forall_forall in Hleaf. specialize (Hleaf l Hl).
      rewrite Forall_forall in Hleaf. by apply Hleaf.
    + by eapply Hpr1.
    + by eapply Hpr2.
Qed.

Lemma one_layer_length (n : tree) :
  leaf_predicate n = true ->
  length (flatten_one_implicit_layer n).1 = num_leaves (flatten_one_implicit_layer n).2.
Proof.
  destruct n as [a d|a aux cs|k cs]; try discriminate. intros _.
  cbn [flatten_one_implicit_layer fst snd one_layer_leaves one_layer_structure
       num_leaves].
  apply num_leaves_children.
Qed.

Lemma existsb_false_elem (nodes : list tree) (n : tree) :
  existsb leaf_predicate nodes = false -> n ∈ nodes -> leaf_predicate n = false.
Proof.
  intros H Hn. destruct (leaf_predicate n) eqn:E; [|reflexivity].
  assert (existsb leaf_predicate nodes = true); [|congruence].
  apply existsb_elem_of. eauto.
Qed.

(** The nodes of a settled entry, pruned, have one structure. *)
Lemma settled_common_structure (paths : gset path) (e : entry) :
  settled paths e ->
  Forall (fun x => is_leaf_node x = true) e.2 ->
  forall n1 n2 n1' n2', n1 ∈ e.2 -> n2 ∈ e.2 ->
    pruned paths e.1 n1 n1' -> pruned paths e.1 n2 n2' ->
    jax_structure n1' = jax_structure n2'.
Proof.
  induction 1 as [[p nodes] He|[p nodes] He Hin|[p nodes] entries He Hnin _ IH];
    cbn [fst snd] in *; intros Hleaf n1 n2 n1' n2' Hn1 Hn2 Hp1 Hp2;
    rewrite Forall_forall in Hleaf.
  - apply process_entry_skip_inv in He.
    rewrite (pruned_concrete_structure paths p n1 n1'),
            (pruned_concrete_structure paths p n2 n2');
      eauto using existsb_false_elem.
  - rewrite (pruned_recorded_structure paths p n1 n1'),
            (pruned_recorded_structure paths p n2 n2'); eauto.
  - apply process_entry_expand_inv in He as (-> & Himp & Hsame & _ & _).
    rewrite Forall_forall in Himp.
    pose proof (Himp n1 Hn1) as Hi1. pose proof (Himp n2 Hn2) as Hi2.
    pose proof (Hsame n1 n2 Hn1 Hn2) as Hs12.
    destruct n1 as [|a1 aux1 cs1|]; try discriminate.
    destruct n2 as [|a2 aux2 cs2|]; try discriminate.
    cbn in Hs12. injection Hs12 as -> -> Hs12.
    inversion Hp1 as [? ? Hk|? ? ? ? Hi Hin|? ? ? ? cs1' _ Hs1 Hlen1 Hch1]; subst;
      [discriminate | contradiction |].
    inversion Hp2 as [? ? Hk|? ? ? ? Hi Hin|? ? ? ? cs2' _ Hs2 Hlen2 Hch2]; subst;
      [discriminate | contradiction |].
    cbn [tree_util_tree_structure]. f_equal.
    apply jax_structure_children_determined; [congruence|].
    apply (groups_common_structure paths p
             (map (fun n => (flatten_one_implicit_layer n).1) nodes) IH)
      with (flat_map tree_leaves_with_implicit cs1)
           (flat_map tree_leaves_with_implicit cs2).
    + apply Forall_forall. intros l Hl. apply list_elem_of_fmap in Hl as (n & -> & Hn).
      specialize (Himp n Hn). destruct n; try discriminate.
      apply children_leaves_are_leaf_nodes.
    + intros l l' Hl Hl'. apply list_elem_of_fmap in Hl as (n & -> & Hn).
      apply list_elem_of_fmap in Hl' as (n' & -> & Hn').
      rewrite !one_layer_length by auto. by rewrite (Hsame n n').
    + apply list_elem_of_fmap. by exists (Implicit a2 aux2 cs1).
    + apply list_elem_of_fmap. by exists (Implicit a2 aux2 cs2).
    + split; assumption.
    + split; assumption.
Qed.

Lemma _get_pruning_transform_inv
    (_materialize : aval -> nat -> list tree -> materialized) (fuel : nat)
    (paths : gset path) (t0 t t' : tree) (calls : list call) :
  _get_pruning_transform _materialize fuel t0 paths t = Returns t' calls ->
  pruned_leaves paths [] (tree_leaves_with_implicit t) (tree_leaves_with_implicit t')
  /\ tree_structure_with_implicit t' = tree_structure_with_implicit t.
Proof.
  unfold _get_pruning_transform.
  destruct (bool_decide (paths = ∅)) eqn:E.
  - apply bool_decide_eq_true in E. subst paths. intros [= <- <-].
    split; [|reflexivity]. split; [reflexivity|].
    intros i y y' Hy Hy'. rewrite Hy in Hy'. injection Hy' as <-.
    by apply (pruned_empty (tree_size y)).
  - intros H. by apply materialize_subtrees_inv in H as (Hpr & Hs & _).
Qed.

Lemma agree_with_first_structure (trees : list tree) (t t' : tree) :
  agree_with_first trees -> t ∈ trees -> t' ∈ trees ->
  tree_structure_with_implicit t = tree_structure_with_implicit t'.
Proof.
  destruct trees as [|t0 rest]; [intros _ H; inversion H|].
  cbn [agree_with_first]. rewrite Forall_forall. intros Hagree Ht Ht'.
  assert (Hall : forall x, x ∈ t0 :: rest ->
            tree_structure_with_implicit x = tree_structure_with_implicit t0).
  { intros x Hx. apply elem_of_cons in Hx as [->|Hx]; [reflexivity|].
    by apply Hagree. }
  by rewrite (Hall t Ht), (Hall t' Ht').
Qed.

(** X21. The purpose of [get_common_prefix_transforms]: the returned
    transforms bring the trees to a common structure.  When the call
    returns and the transforms of two of the trees, applied to these trees,
    return, the two results have the same structure for JAX, every
    ImplicitArray that is left being opened. *)
Theorem transforms_give_common_structure
    (_materialize : aval -> nat -> list tree -> materialized) (fuel : nat)
    (trees : list tree) (transforms : list (tree -> outcome tree))
    (calls c1 c2 : list call) (k1 k2 : nat) (t1 t2 t1' t2' : tree)
    (tr1 tr2 : tree -> outcome tree) :
  get_common_prefix_transforms _materialize fuel trees = Returns transforms calls ->
  trees !! k1 = Some t1 -> trees !! k2 = Some t2 ->
  transforms !! k1 = Some tr1 -> transforms !! k2 = Some tr2 ->
  tr1 t1 = Returns t1' c1 -> tr2 t2 = Returns t2' c2 ->
  jax_structure t1' = jax_structure t2'.
Proof.
  intros Hget Ht1 Ht2 Htr1 Htr2 Hr1 Hr2. unfold get_common_prefix_transforms in Hget.
  destruct (bool_decide (length trees <= 1)) eqn:Elen.
  - apply bool_decide_eq_true in Elen. injection Hget as <- _.
    pose proof (lookup_lt_Some _ _ _ Ht1). pose proof (lookup_lt_Some _ _ _ Ht2).
    assert (k1 = k2) as -> by lia. rewrite Ht1 in Ht2. injection Ht2 as <-.
    rewrite Htr1 in Htr2. injection Htr2 as <-. rewrite Hr1 in Hr2.
    by injection Hr2 as <- _.
  - apply bind_Returns_inv in Hget as (paths & c & c' & Hp & Hmap & _).
    injection Hmap as <- _.
    rewrite list_lookup_fmap, Ht1 in Htr1. injection Htr1 as <-.
    rewrite list_lookup_fmap, Ht2 in Htr2. injection Htr2 as <-.
    apply _get_pruning_transform_inv in Hr1 as [Hpr1 Hs1], Hr2 as [Hpr2 Hs2].
    assert (Hagree : agree_with_first trees).
    { unfold materialization_paths_of in Hp. destruct trees as [|t0 rest]; [exact I|].
      cbn [map] in Hp.
      change (tree_flatten_with_implicit t0)
        with (tree_leaves_with_implicit t0, tree_structure_with_implicit t0) in Hp.
      cbv beta iota in Hp.
      apply bind_Returns_inv in Hp as ([] & c3 & c4 & Hc & _ & _).
      by eapply check_trees_returns. }
    assert (Hin1 : t1 ∈ trees) by (eapply list_elem_of_lookup_2; eauto).
    assert (Hin2 : t2 ∈ trees) by (eapply list_elem_of_lookup_2; eauto).
    apply materialization_paths_of_inv in Hp as [_ [[-> _]|Hrun]]; [inversion Hin1|].
    apply run_stack_run_any, run_any_contributes in Hrun as (S0 & Hc & HS).
    cbn [fst snd] in Hc, HS. rewrite (left_id_L ∅ (∪)) in HS. subst S0.
    pose proof (settled_of_contributes _ _ Hc
                  (proj1 (stack_invariant_initial trees))) as Hsettled.
    apply jax_structure_determined.
    + rewrite Hs1, Hs2. by apply (agree_with_first_structure trees).
    + apply (groups_common_structure paths []
               (map tree_leaves_with_implicit trees))
        with (tree_leaves_with_implicit t1) (tree_leaves_with_implicit t2);
        try assumption.
      * intros e' He'. apply settled_common_structure. by apply Hsettled.
      * apply Forall_forall. intros l Hl. apply list_elem_of_fmap in Hl as (t & -> & _).
        apply leaves_are_leaf_nodes.
      * intros l l' Hl Hl'. apply list_elem_of_fmap in Hl as (t & -> & Ht).
        apply list_elem_of_fmap in Hl' as (t' & -> & Ht').
        by rewrite !num_leaves_structure, (agree_with_first_structure trees t t').
      * apply list_elem_of_fmap. by exists t1.
      * apply list_elem_of_fmap. by exists t2.
Qed.

Lemma transforms_give_common_structure_witness :
  jax_structure Examples.tree1_pruned
  = jax_structure (Container 0 [Implicit Examples.f32 7
                                  [Array Examples.f32 1; Array Examples.f32 1];
                                Examples.inner]).
Proof.
  apply (transforms_give_common_structure Examples.materialize_now 10
           [Examples.tree1; Examples.tree2]
           (map (fun t => _get_pruning_transform Examples.materialize_now 10 t
                            {[ [0; 0] ]})
                [Examples.tree1; Examples.tree2])
           []
           [([0; 0], Implicit Examples.f32 1 [Array Examples.f32 0])]
           [([0; 0], Implicit Examples.f32 1 [Array Examples.f32 0; Array Examples.f32 0])]
           0 1 Examples.tree1 Examples.tree2 Examples.tree1_pruned
           (Container 0 [Implicit Examples.f32 7
                           [Array Examples.f32 1; Array Examples.f32 1];
                         Examples.inner])
           (_get_pruning_transform Examples.materialize_now 10 Examples.tree1
              {[ [0; 0] ]})
           (_get_pruning_transform Examples.materialize_now 10 Examples.tree2
              {[ [0; 0] ]})).
  - exact example_transforms.
  - reflexivity.
  - reflexivity.
  - reflexivity.
  - reflexivity.
  - exact example_transform.
  - vm_compute. reflexivity.
Defined.

(** ** More on what the pruning transform leaves alone *)

Lemma node_at_not_below (paths : gset path) (q : path) :
  forall (p : path) (ls ls' : list tree) (n : tree),
  pruned_leaves paths p ls ls' ->
  node_at ls q = Some n ->
  (forall r, r ∈ paths -> r `prefix_of` p ++ q -> r = p ++ q) ->
  exists n', node_at ls' q = Some n' /\ pruned paths (p ++ q) n n'.
Proof.
  induction q as [|i q IH]; intros p ls ls' n Hpr Hn Hno; [discriminate|].
  destruct q as [|j q].
  - cbn [node_at] in *. by eapply pruned_leaves_lookup.
  - cbn [node_at] in Hn |- *.
    destruct (ls !! i) as [n0|] eqn:E; [|discriminate].
    destruct n0 as [a d|a aux cs|k cs]; try discriminate.
    destruct (pruned_leaves_lookup _ _ _ _ _ _ Hpr E) as (n' & Hn' & Hp).
    rewrite Hn'.
    inversion Hp as [? ? Hx|? ? ? ? Hx Hin|? ? ? ? cs' Hin Hs Hlen Hch]; subst.
    + discriminate.
    + exfalso. assert (Heq : p ++ [i] = p ++ i :: j :: q).
      { apply Hno; [exact Hin|]. exists (j :: q). by rewrite <- app_assoc. }
      apply (f_equal length) in Heq. rewrite !length_app in Heq. simpl in Heq. lia.
    + destruct (IH (p ++ [i]) (flat_map tree_leaves_with_implicit cs)
                   (flat_map tree_leaves_with_implicit cs') n) as (n'' & Hn'' & Hp'').
      * split; assumption.
      * exact Hn.
      * rewrite <- app_assoc. exact Hno.
      * exists n''. split; [exact Hn''|]. rewrite <- app_assoc in Hp''. exact Hp''.
Qed.

(** X22. A concrete leaf at a recorded path is left unchanged: when the
    transform built by [_get_pruning_transform] for a prefix-free set of
    paths returns, a node of the tree that is at a recorded path and is not
    an ImplicitArray is the node at that path of the result. *)
Theorem concrete_leaf_at_recorded_path
    (_materialize : aval -> nat -> list tree -> materialized) (fuel : nat)
    (paths : gset path) (t0 t t' : tree) (calls : list call) (q : path) (n : tree) :
  prefix_free paths ->
  _get_pruning_transform _materialize fuel t0 paths t = Returns t' calls ->
  q ∈ paths ->
  node_at (tree_leaves_with_implicit t) q = Some n ->
  leaf_predicate n = false ->
  node_at (tree_leaves_with_implicit t') q = Some n.
Proof.
  intros Hfree Htr Hq Hn Hconc.
  apply _get_pruning_transform_inv in Htr as [Hpr _].
  destruct (node_at_not_below paths q [] _ _ n Hpr Hn) as (n' & Hn' & Hp).
  { cbn [app]. intros r Hr Hpre.
    destruct (decide (r = q)) as [->|Hne]; [reflexivity|].
    exfalso. by apply (Hfree r q Hr Hq Hne). }
  cbn [app] in Hp. rewrite Hn'. f_equal.
  inversion Hp as [? ? Hx|? ? ? ? Hx Hin|? ? ? ? cs' Hin Hs Hlen Hch]; subst.
  - reflexivity.
  - congruence.
  - discriminate.
Qed.

Lemma concrete_leaf_at_recorded_path_witness :
  node_at (tree_leaves_with_implicit MoreExamples.aval_mismatch_first) [1]
  = Some (Array Examples.f32 1).
Proof.
  apply (concrete_leaf_at_recorded_path Examples.materialize_now 3 {[ [1] ]}
           MoreExamples.aval_mismatch_first MoreExamples.aval_mismatch_first
           MoreExamples.aval_mismatch_first [] [1] (Array Examples.f32 1)).
  - intros p q Hp Hq Hne. apply elem_of_singleton in Hp, Hq. congruence.
  - vm_compute. reflexivity.
  - apply elem_of_singleton. reflexivity.
  - reflexivity.
  - reflexivity.
Defined.

(** X23. ImplicitArrays above the frontier stay lazy: when the transform
    built by [_get_pruning_transform] returns, an ImplicitArray of the tree
    at a path that no recorded path is a prefix of is, in the result, an
    ImplicitArray at the same path with the same aval and auxiliary data,
    whose children have the structures they had. *)
Theorem implicit_above_frontier_stays
    (_materialize : aval -> nat -> list tree -> materialized) (fuel : nat)
    (paths : gset path) (t0 t t' : tree) (calls : list call) (q : path)
    (a : aval) (aux : nat) (cs : list tree) :
  _get_pruning_transform _materialize fuel t0 paths t = Returns t' calls ->
  (forall r, r ∈ paths -> ~ r `prefix_of` q) ->
  node_at (tree_leaves_with_implicit t) q = Some (Implicit a aux cs) ->
  exists cs',
    node_at (tree_leaves_with_implicit t') q = Some (Implicit a aux cs')
    /\ map tree_structure_with_implicit cs' = map tree_structure_with_implicit cs.
Proof.
  intros Htr Hno Hn.
  apply _get_pruning_transform_inv in Htr as [Hpr _].
  destruct (node_at_not_below paths q [] _ _ _ Hpr Hn) as (n' & Hn' & Hp).
  { cbn [app]. intros r Hr Hpre. exfalso. by apply (Hno r Hr). }
  cbn [app] in Hp.
  inversion Hp as [? ? Hx|? ? ? ? Hx Hin|? ? ? ? cs' Hin Hs Hlen Hch]; subst.
  - discriminate.
  - exfalso. by apply (Hno q Hin).
  - exists cs'. split; assumption.
Qed.

Lemma implicit_above_frontier_stays_witness :
  exists cs',
    node_at (tree_leaves_with_implicit Examples.tree1_pruned) [0]
    = Some (Implicit Examples.f32 7 cs')
    /\ map tree_structure_with_implicit cs'
       = map tree_structure_with_implicit
           [Implicit Examples.f32 1 [Array Examples.f32 0]; Array Examples.f32 1].
Proof.
  apply (implicit_above_frontier_stays Examples.materialize_now 10 {[ [0; 0] ]}
           Examples.tree1 Examples.tree1 Examples.tree1_pruned
           [([0; 0], Implicit Examples.f32 1 [Array Examples.f32 0])] [0]).
  - exact example_transform.
  - intros r Hr Hpre. apply elem_of_singleton in Hr as ->.
    apply prefix_length in Hpre. simpl in Hpre. lia.
  - reflexivity.
Defined.

(** ** The order of two trees *)

Lemma remove_dups_pair {A} `{EqDecision A} (a b : A) :
  bool_decide (1 < length (remove_dups [a; b])) = bool_decide (a <> b).
Proof.
  cbn [remove_dups]. destruct (decide_rel elem_of a [b]) as [Hin|Hnin].
  - apply list_elem_of_singleton in Hin as ->.
    rewrite bool_decide_eq_false_2 by (simpl; lia).
    symmetry. apply bool_decide_eq_false_2. intros H; by apply H.
  - rewrite bool_decide_eq_true_2 by (simpl; lia).
    symmetry. apply bool_decide_eq_true_2. intros ->. apply Hnin. left.
Qed.

Lemma aval_matches_sym (a b : aval) : aval_matches a b = aval_matches b a.
Proof.
  destruct (aval_matches a b) eqn:E1, (aval_matches b a) eqn:E2; try reflexivity.
  - apply aval_matches_eq in E1 as ->. by rewrite aval_matches_refl in E2.
  - apply aval_matches_eq in E2 as ->. by rewrite aval_matches_refl in E1.
Qed.

Lemma zip_with_swap (l1 l2 : list tree) :
  zip_with (fun y x => [y; x]) l2 l1
  = map (@rev tree) (zip_with (fun x y => [x; y]) l1 l2).
Proof.
  revert l2. induction l1 as [|x l1 IH]; intros [|y l2]; try reflexivity.
  cbn. by rewrite IH.
Qed.

Lemma aval_diff_swap (groups : list (list tree)) :
  Forall (fun g => exists x y, g = [x; y]) groups ->
  aval_diff (map (@rev tree) groups) = aval_diff groups.
Proof.
  unfold aval_diff. induction 1 as [|g groups (x & y & ->) _ IH]; [reflexivity|].
  cbn [map existsb rev app group_aval_diff]. rewrite IH.
  by rewrite (aval_matches_sym (get_aval x) (get_aval y)).
Qed.

Lemma zip_with_pairs (l1 l2 : list tree) :
  Forall (fun g => exists x y, g = [x; y]) (zip_with (fun x y => [x; y]) l1 l2).
Proof.
  revert l2. induction l1 as [|x l1 IH]; intros [|y l2]; cbn; try constructor; eauto.
Qed.

Lemma imap_swap (p : path) (groups : list (list tree)) :
  imap (fun i g => (p ++ [i], g)) (map (@rev tree) groups)
  = map swap_entry (imap (fun i g => (p ++ [i], g)) groups).
Proof.
  apply list_eq. intros i.
  rewrite list_lookup_imap, !list_lookup_fmap, list_lookup_imap.
  destruct (groups !! i); reflexivity.
Qed.

Lemma process_entry_swap (p : path) (x y : tree) :
  process_entry (p, [y; x])
  = match process_entry (p, [x; y]) with
    | Skip => Skip
    | Materialize => Materialize
    | Expand entries => Expand (map swap_entry entries)
    end.
Proof.
  unfold process_entry. cbn [map]. rewrite !zip_star_pair, !remove_dups_pair.
  replace (existsb leaf_predicate [y; x]) with (existsb leaf_predicate [x; y])
    by (cbn; destruct (leaf_predicate x), (leaf_predicate y); reflexivity).
  destruct (existsb leaf_predicate [x; y]); cbn [negb]; [|reflexivity].
  destruct (decide ((flatten_one_implicit_layer x).2 = (flatten_one_implicit_layer y).2))
    as [Hs|Hs].
  - rewrite !bool_decide_eq_false_2 by (intros H; apply H; congruence).
    rewrite zip_with_swap, aval_diff_swap by apply zip_with_pairs.
    destruct (aval_diff _); [reflexivity|]. by rewrite imap_swap.
  - rewrite !bool_decide_eq_true_2 by congruence. reflexivity.
Qed.

Lemma contributes_swap (l : list entry) (paths : gset path) :
  contributes l paths ->
  Forall (fun e : entry => exists x y, e.2 = [x; y]) l ->
  contributes (map swap_entry l) paths.
Proof.
  induction 1 as [|[p nodes] l p1 He _ IH|[p nodes] l p1 He _ IH
                 |[p nodes] entries l p1 p2 He _ IH1 _ IH2];
    intros Hpairs; [constructor| | |];
    apply Forall_cons in Hpairs as [(x & y & Hxy) Hpairs];
    cbn [snd] in Hxy; subst nodes; cbn [map];
    unfold swap_entry at 1; cbn [fst snd rev app].
  - apply contributes_skip; [by rewrite process_entry_swap, He | by apply IH].
  - apply (contributes_materialize (p, [y; x]));
      [by rewrite process_entry_swap, He | by apply IH].
  - apply (contributes_expand (p, [y; x]) (map swap_entry entries));
      [by rewrite process_entry_swap, He | | by apply IH2].
    apply IH1. apply process_entry_expand_inv in He as (-> & _).
    cbn [map]. rewrite zip_star_pair.
    apply Forall_forall. intros e Hin. apply list_elem_of_lookup in Hin as [i Hi].
    rewrite list_lookup_imap in Hi.
    destruct (zip_with _ _ _ !! i) as [g|] eqn:E; [|discriminate].
    injection Hi as <-. cbn [snd].
    pose proof (zip_with_pairs (flatten_one_implicit_layer x).1
                  (flatten_one_implicit_layer y).1) as Hall.
    rewrite Forall_forall in Hall. apply Hall.
    eapply list_elem_of_lookup_2; eauto.
Qed.

(** X24. The order of two trees does not matter for the paths: when
    reconciling [t1] with [t2] completes with a set of paths, reconciling
    [t2] with [t1] passes the checks too and, given enough iterations, ends
    with the same set. *)
Theorem two_trees_order_irrelevant (fuel : nat) (t1 t2 : tree) (paths : gset path)
    (calls : list call) :
  materialization_paths_of fuel [t1; t2] = Returns paths calls ->
  exists n, forall fuel', n <= fuel' ->
    materialization_paths_of fuel' [t2; t1] = Returns paths [].
Proof.
  intros H.
  assert (Hagree : agree_with_first [t1; t2]).
  { unfold materialization_paths_of in H. cbn [map] in H.
    change (tree_flatten_with_implicit t1)
      with (tree_leaves_with_implicit t1, tree_structure_with_implicit t1) in H.
    cbv beta iota in H.
    apply bind_Returns_inv in H as ([] & c3 & c4 & Hc & _ & _).
    by eapply (check_trees_returns [t2]). }
  cbn [agree_with_first] in Hagree. apply Forall_singleton in Hagree as [Hs Ha].
  apply materialization_paths_of_inv in H as [_ [[Hnil _]|Hrun]]; [discriminate|].
  apply run_stack_run_any, run_any_contributes in Hrun as (S0 & Hc & HS).
  cbn [fst snd] in Hc, HS. rewrite (left_id_L ∅ (∪)) in HS. subst S0.
  rewrite initial_stack_pair in Hc.
  apply contributes_swap in Hc.
  2:{ apply Forall_forall. intros e Hin. apply list_elem_of_lookup in Hin as [i Hi].
      rewrite list_lookup_imap in Hi.
      destruct (zip_with _ _ _ !! i) as [g|] eqn:E; [|discriminate].
      injection Hi as <-. cbn [snd].
      pose proof (zip_with_pairs (tree_leaves_with_implicit t1)
                    (tree_leaves_with_implicit t2)) as Hall.
      rewrite Forall_forall in Hall. apply Hall.
      eapply list_elem_of_lookup_2; eauto. }
  rewrite <- imap_swap, <- zip_with_swap, <- initial_stack_pair in Hc.
  destruct (run_stack_of_contributes _ _ Hc) as [n Hn].
  exists n. intros fuel' Hfuel. unfold materialization_paths_of.
  cbn [map tree_flatten_with_implicit check_trees].
  rewrite bool_decide_eq_false_2 by (intros Hne; apply Hne; by symmetry).
  rewrite Ha, check_avals_same, (Hn fuel' Hfuel). reflexivity.
Qed.

Lemma two_trees_order_irrelevant_witness :
  exists n, forall fuel', n <= fuel' ->
    materialization_paths_of fuel' [Examples.tree2; Examples.tree1]
    = Returns {[ [0; 0] ]} [].
Proof.
  apply (two_trees_order_irrelevant 10 Examples.tree1 Examples.tree2 {[ [0; 0] ]} []).
  exact example_materialization_paths.
Defined.

(** ** The loop of [f] *)

Lemma f_result (_materialize : aval -> nat -> list tree -> materialized)
    (fuel : nat) :
  forall (p : path) (x y : tree) (calls : list call),
  f _materialize fuel p x = Returns y calls ->
  leaf_predicate y = false
  /\ (leaf_predicate x = true -> exists rest, calls = (p, x) :: rest).
Proof.
  induction fuel as [|fuel IH]; intros p x y calls H.
  - destruct x; try discriminate; injection H as <- <-; split; done.
  - destruct x as [a d|a aux cs|k cs];
      try (injection H as <- <-; split; done).
    cbn [f] in H. apply bind_Returns_inv in H as (x' & c1 & c2 & H1 & H2 & ->).
    injection H1 as <- <-. destruct (IH _ _ _ _ H2) as [Hy _].
    split; [exact Hy|]. intros _. by exists c2.
Qed.

(** X25. The loop of [f], lines 112-113: whenever it ends, the node
    returned is not an ImplicitArray; a node that is not an ImplicitArray
    is returned as it is, without any call of [_materialize]; for an
    ImplicitArray the first call of [_materialize] is on the node itself,
    and every call is recorded with the path [f] was given. *)
Theorem f_materializes_fully
    (_materialize : aval -> nat -> list tree -> materialized) (fuel : nat)
    (p : path) (x y : tree) (calls : list call) :
  f _materialize fuel p x = Returns y calls ->
  leaf_predicate y = false
  /\ (leaf_predicate x = false -> y = x /\ calls = [])
  /\ (leaf_predicate x = true -> exists rest, calls = (p, x) :: rest)
  /\ Forall (fun c : call => c.1 = p) calls.
Proof.
  intros H. destruct (f_result _ _ _ _ _ _ H) as [Hy Hfirst].
  destruct (f_inv _ _ _ _ _ _ H) as (Hk & _ & Hc).
  split; [exact Hy|]. split; [exact Hk|]. split; [exact Hfirst | exact Hc].
Qed.

Lemma f_materializes_fully_witness :
  leaf_predicate (Array Examples.f32 7) = false
  /\ (leaf_predicate Examples.inner = false ->
        Array Examples.f32 7 = Examples.inner /\ [([2], Examples.inner)] = [])
  /\ (leaf_predicate Examples.inner = true ->
        exists rest, [([2], Examples.inner)] = ([2], Examples.inner) :: rest)
  /\ Forall (fun c : call => c.1 = [2]) [([2], Examples.inner)].
Proof.
  apply (f_materializes_fully Examples.materialize_now 3 [2] Examples.inner
           (Array Examples.f32 7) [([2], Examples.inner)]).
  reflexivity.
Defined.

(** ** Applying the pruning transform again *)

Lemma pruned_stable (paths : gset path) (p : path) (x x' : tree) :
  pruned paths p x x' -> pruned paths p x' x'.
Proof.
  induction 1 as [p x Hx|p x a d Hx Hp|p a aux cs cs' Hp Hs Hlen Hpr IH].
  - by apply pruned_kept.
  - by apply pruned_kept.
  - apply pruned_rebuilt; [exact Hp | reflexivity | reflexivity|].
    intros i y y' Hy Hy'. rewrite Hy in Hy'. injection Hy' as <-.
    destruct (lookup_lt_is_Some_2 (flat_map tree_leaves_with_implicit cs) i)
      as [y0 Hy0].
    { rewrite <- Hlen. by eapply lookup_lt_Some. }
    by apply (IH i y0 y).
Qed.

Lemma map_leaves_from_stable
    (_materialize : aval -> nat -> list tree -> materialized) (fuel_f : nat)
    (paths : gset path)
    (recurse : list tree -> path -> outcome (list tree)) (p : path)
    (leaves : list tree) :
  (forall a aux cs q, Implicit a aux cs ∈ leaves ->
     (forall i y, flat_map tree_leaves_with_implicit cs !! i = Some y ->
                  pruned paths (q ++ [i]) y y) ->
     recurse (flat_map tree_leaves_with_implicit cs) q
     = Returns (flat_map tree_leaves_with_implicit cs) []) ->
  forall idx,
  (forall i y, leaves !! i = Some y -> pruned paths (p ++ [idx + i]) y y) ->
  map_leaves_from recurse (f _materialize fuel_f)
    (fun q _ => bool_decide (q ∈ paths)) p idx leaves
  = Returns leaves [].
Proof.
  induction leaves as [|x l IH]; intros Hrec idx Hst; [reflexivity|].
  cbn [map_leaves_from].
  rewrite (IH (fun a aux cs q Hin =>
                 Hrec a aux cs q (proj2 (elem_of_cons _ _ _) (or_intror Hin)))
              (S idx)).
  2:{ intros i y Hy. replace (S idx + i) with (idx + S i) by lia. by apply Hst. }
  pose proof (Hst 0 x eq_refl) as Hx. rewrite Nat.add_0_r in Hx.
  destruct x as [a d|a aux cs|k cs].
  - cbn [leaf_predicate negb orb]. destruct fuel_f; reflexivity.
  - cbn [leaf_predicate negb orb].
    inversion Hx as [? ? Hk|? ? ? ? Hi Hin|? ? ? ? cs' Hin Hs Hlen Hch]; subst;
      [discriminate|].
    rewrite bool_decide_eq_false_2 by exact Hin.
    cbn [flatten_one_implicit_layer one_layer_leaves one_layer_structure].
    rewrite (Hrec a aux cs (p ++ [idx])); [|left|].
    2:{ intros i y Hy. by apply (Hch i y y). }
    pose proof (flatten_one_implicit_layer_round_trip_aux (Implicit a aux cs)) as Hrt.
    cbn [flatten_one_implicit_layer fst snd one_layer_leaves one_layer_structure]
      in Hrt.
    rewrite bind_ret_l, Hrt, !bind_ret_l. reflexivity.
  - cbn [leaf_predicate negb orb]. destruct fuel_f; reflexivity.
Qed.

Lemma map_leaves_stable
    (_materialize : aval -> nat -> list tree -> materialized) (fuel_f : nat)
    (paths : gset path) (fuel : nat) :
  forall (leaves : list tree) (p : path),
  list_max (map implicit_nesting leaves) < fuel ->
  (forall i y, leaves !! i = Some y -> pruned paths (p ++ [i]) y y) ->
  _map_leaves_with_implicit_path fuel (f _materialize fuel_f) leaves
    (fun q _ => bool_decide (q ∈ paths)) p
  = Returns leaves [].
Proof.
  induction fuel as [|fuel IH]; intros leaves p Hfuel Hst; [lia|].
  cbn [_map_leaves_with_implicit_path].
  apply map_leaves_from_stable; [|exact Hst].
  intros a aux cs q Hin Hch. apply IH; [|exact Hch].
  rewrite nesting_children_leaves.
  apply nesting_elem_le in Hin. cbn [implicit_nesting] in Hin. lia.
Qed.

(** X26. The pruning transform is idempotent: applied to a tree it has
    returned, the transform built by [_get_pruning_transform] returns that
    tree again and makes no call of [_materialize]. *)
Theorem pruning_transform_idempotent
    (_materialize : aval -> nat -> list tree -> materialized) (fuel : nat)
    (paths : gset path) (t0 t t' : tree) (calls : list call) :
  _get_pruning_transform _materialize fuel t0 paths t = Returns t' calls ->
  implicit_nesting t' < fuel ->
  _get_pruning_transform _materialize fuel t0 paths t' = Returns t' [].
Proof.
  intros Htr Hfuel.
  apply _get_pruning_transform_inv in Htr as [[Hlen Hpr] _].
  unfold _get_pruning_transform. destruct (bool_decide (paths = ∅)); [reflexivity|].
  unfold materialize_subtrees. cbn [tree_flatten_with_implicit].
  rewrite (map_leaves_stable _materialize fuel paths fuel).
  - rewrite bind_ret_l. apply tree_flatten_with_implicit_round_trip_aux.
  - by rewrite nesting_leaves.
  - intros i y' Hy'.
    destruct (lookup_lt_is_Some_2 (tree_leaves_with_implicit t) i) as [y Hy].
    { rewrite <- Hlen. by eapply lookup_lt_Some. }
    eapply pruned_stable. by apply (Hpr i y y').
Qed.

Lemma pruning_transform_idempotent_witness :
  _get_pruning_transform Examples.materialize_now 10 Examples.tree1 {[ [0; 0] ]}
    Examples.tree1_pruned
  = Returns Examples.tree1_pruned [].
Proof.
  apply (pruning_transform_idempotent Examples.materialize_now 10 {[ [0; 0] ]}
           Examples.tree1 Examples.tree1 Examples.tree1_pruned
           [([0; 0], Implicit Examples.f32 1 [Array Examples.f32 0])]).
  - exact example_transform.
  - simpl. lia.
Defined.
